(** * YouTube transcript extractor worker: the acquisition pipeline of
    [src/index.js], embedded function by function.

    JavaScript strings are sequences of UTF-16 code units, regular
    expressions are run by a small backtracking matcher, JSON data is a
    tree of values, and the effects of the code (console output, sleeps,
    cache reads and writes, upstream calls) are threaded explicitly. *)

From Stdlib Require Import List ZArith NArith Bool String Ascii Lia QArith Qround
  Qpower Permutation.
Import ListNotations.

Local Open Scope N_scope.

#[local] Set Warnings "-register-all".

(** ** JavaScript strings *)

(** A string is the list of its UTF-16 code units. *)
Definition jsstring : Type := list N.

(** An ASCII literal of the source. *)
Definition js (s : string) : jsstring :=
  map N_of_ascii (list_ascii_of_string s).

Fixpoint str_eqb (a b : jsstring) : bool :=
  match a, b with
  | [], [] => true
  | x :: a', y :: b' => (x =? y) && str_eqb a' b'
  | _, _ => false
  end.

(** [WhiteSpace] and [LineTerminator] of ECMAScript: the characters that
    [String.prototype.trim] strips and that [\s] matches. *)
Definition isWhiteSpace (c : N) : bool :=
  (c =? 9) || (c =? 10) || (c =? 11) || (c =? 12) || (c =? 13) || (c =? 32)
  || (c =? 160) || (c =? 5760) || ((8192 <=? c) && (c <=? 8202))
  || (c =? 8232) || (c =? 8233) || (c =? 8239) || (c =? 8287)
  || (c =? 12288) || (c =? 65279).

Fixpoint trimStart (s : jsstring) : jsstring :=
  match s with
  | c :: s' => if isWhiteSpace c then trimStart s' else s
  | [] => []
  end.

Definition trimEnd (s : jsstring) : jsstring := rev (trimStart (rev s)).

(** [s.trim()] *)
Definition trim (s : jsstring) : jsstring := trimEnd (trimStart s).

(** [prefix.startsWith]-style test used by [includes]. *)
Fixpoint starts_with (p s : jsstring) : bool :=
  match p, s with
  | [], _ => true
  | x :: p', y :: s' => (x =? y) && starts_with p' s'
  | _ :: _, [] => false
  end.

(** [s.includes(p)] *)
Fixpoint includes (s p : jsstring) : bool :=
  starts_with p s ||
  match s with
  | [] => false
  | _ :: s' => includes s' p
  end.

(** [xs.join(sep)] on an array of strings. *)
Fixpoint join (sep : jsstring) (xs : list jsstring) : jsstring :=
  match xs with
  | [] => []
  | [x] => x
  | x :: xs' => x ++ sep ++ join sep xs'
  end.

(** ** Regular expressions *)

(** The fragment of the regular-expression language that the literals of
    [extractVideoId] use.  Quantifiers apply to character classes only,
    except [?], and there is a single capturing group. *)
Inductive regex : Type :=
| Chr (c : N)                      (* a literal character *)
| Cls (p : N -> bool)              (* a character class *)
| Bol                              (* ^ *)
| Eol                              (* $ *)
| Seq (r1 r2 : regex)
| Alt (r1 r2 : regex)              (* r1|r2 *)
| Opt (r : regex)                  (* (?:r)? *)
| Plus (p : N -> bool)             (* [..]+ *)
| StarLazy (p : N -> bool)         (* [..]*? *)
| Times (n : nat) (p : N -> bool)  (* [..]{n} *)
| Group (r : regex).               (* ( r ), capture 1 *)

Declare Scope regex_scope.
Delimit Scope regex_scope with re.
Infix ";;" := Seq (at level 41, right associativity) : regex_scope.
Infix "<|>" := Alt (at level 42, right associativity) : regex_scope.

(** A literal run of characters. *)
Fixpoint lit_chars (s : jsstring) : regex :=
  match s with
  | [] => Times 0 (fun _ => true)
  | [c] => Chr c
  | c :: s' => Seq (Chr c) (lit_chars s')
  end.

Definition lit (s : string) : regex := lit_chars (js s).

Section Matcher.

Context {A : Type}.

(** Backtracking matcher in continuation-passing style.  [bol] tells
    whether the current position is the start of the input, [s] is the
    rest of the input and [cap] the capture made so far.  Alternatives
    are tried left to right, greedy quantifiers longest first, lazy
    ones shortest first, as the ECMAScript matcher does. *)
Fixpoint rmatch (r : regex) (bol : bool) (s : jsstring)
         (cap : option jsstring)
         (k : bool -> jsstring -> option jsstring -> option A) : option A :=
  match r with
  | Chr c =>
      match s with
      | x :: s' => if x =? c then k false s' cap else None
      | [] => None
      end
  | Cls p =>
      match s with
      | x :: s' => if p x then k false s' cap else None
      | [] => None
      end
  | Bol => if bol then k bol s cap else None
  | Eol => match s with [] => k bol s cap | _ :: _ => None end
  | Seq r1 r2 =>
      rmatch r1 bol s cap (fun b s' c => rmatch r2 b s' c k)
  | Alt r1 r2 =>
      match rmatch r1 bol s cap k with
      | Some a => Some a
      | None => rmatch r2 bol s cap k
      end
  | Opt r1 =>
      match rmatch r1 bol s cap k with
      | Some a => Some a
      | None => k bol s cap
      end
  | Plus p =>
      (fix more (s0 : jsstring) : option A :=
         match s0 with
         | x :: s' =>
             if p x then
               match more s' with
               | Some a => Some a
               | None => k false s' cap
               end
             else None
         | [] => None
         end) s
  | StarLazy p =>
      (fix less (b : bool) (s0 : jsstring) : option A :=
         match k b s0 cap with
         | Some a => Some a
         | None =>
             match s0 with
             | x :: s' => if p x then less false s' else None
             | [] => None
             end
         end) bol s
  | Times n p =>
      (fix count (n0 : nat) (b : bool) (s0 : jsstring) : option A :=
         match n0 with
         | O => k b s0 cap
         | S n' =>
             match s0 with
             | x :: s' => if p x then count n' false s' else None
             | [] => None
             end
         end) n bol s
  | Group r1 =>
      rmatch r1 bol s cap
        (fun b s' _ =>
           k b s' (Some (firstn (List.length s - List.length s') s)))
  end.

End Matcher.

(** [RegExp.prototype.exec] without the [g] flag: the leftmost position
    where the pattern matches.  The result is the capture of the match
    ([None] inside when the group did not take part). *)
Fixpoint exec_from (r : regex) (bol : bool) (s : jsstring)
  : option (option jsstring) :=
  match rmatch r bol s None (fun _ _ cap => Some cap) with
  | Some cap => Some cap
  | None =>
      match s with
      | [] => None
      | _ :: s' => exec_from r false s'
      end
  end.

(** [s.match(r)] *)
Definition regex_match (r : regex) (s : jsstring) : option (option jsstring) :=
  exec_from r true s.

(** [r.test(s)] *)
Definition regex_test (r : regex) (s : jsstring) : bool :=
  match regex_match r s with Some _ => true | None => false end.

(** ** extractVideoId *)

Definition in_range (lo hi c : N) : bool := (lo <=? c) && (c <=? hi).

(** [[a-zA-Z0-9_-]] *)
Definition id_char (c : N) : bool :=
  in_range 97 122 c || in_range 65 90 c || in_range 48 57 c
  || (c =? 95) || (c =? 45).

(** [\S] *)
Definition non_space (c : N) : bool := negb (isWhiteSpace c).

(** [[^\/\n\s]] *)
Definition not_slash_nl_space (c : N) : bool :=
  negb ((c =? 47) || (c =? 10) || isWhiteSpace c).

(** [[?&]] *)
Definition query_or_amp (c : N) : bool := (c =? 63) || (c =? 38).

(** [/^[a-zA-Z0-9_-]{11}$/] *)
Definition bare_id_pattern : regex :=
  (Bol ;; Times 11 id_char ;; Eol)%re.

(** [/(?:youtube\.com\/(?:[^\/\n\s]+\/\S+\/|(?:v|e(?:mbed)?)\/|\S*?[?&]v=)|youtu\.be\/)([a-zA-Z0-9_-]{11})/] *)
Definition url_pattern : regex :=
  ((lit "youtube.com/" ;;
      ((Plus not_slash_nl_space ;; Chr 47 ;; Plus non_space ;; Chr 47)
       <|> ((Chr 118 <|> (Chr 101 ;; Opt (lit "mbed"))) ;; Chr 47)
       <|> (StarLazy non_space ;; Cls query_or_amp ;; lit "v="))
    <|> lit "youtu.be/") ;;
   Group (Times 11 id_char))%re.

(** [/(?:youtube\.com\/shorts\/)([a-zA-Z0-9_-]{11})/] *)
Definition shorts_pattern : regex :=
  (lit "youtube.com/shorts/" ;; Group (Times 11 id_char))%re.

Definition patterns : list regex := [url_pattern; shorts_pattern].

(** The [for (const pattern of patterns)] loop: the first pattern that
    matches with a non-empty capture decides. *)
Fixpoint first_capture (ps : list regex) (url : jsstring) : option jsstring :=
  match ps with
  | [] => None
  | p :: ps' =>
      match regex_match p url with
      | Some (Some (c :: cs)) => Some (c :: cs)
      | _ => first_capture ps' url
      end
  end.

(** [extractVideoId(url)]; [None] is the [null] result. *)
Definition extractVideoId (url : jsstring) : option jsstring :=
  match url with
  | [] => None
  | _ :: _ =>
      if regex_test bare_id_pattern url then Some url
      else first_capture patterns url
  end.

(** ** Errors and outcomes *)

(** Faults raised by the runtime itself, not by a [throw] of the source. *)
Inductive engine_fault : Type :=
| InvalidCharacter                 (* btoa on a code unit above 255 *)
| MalformedURI                     (* encodeURIComponent on a lone surrogate *)
| NotIterable (what : jsstring)    (* for-of over a value that is not iterable *)
| NotAnObject (what : jsstring)    (* property read on undefined *)
| NotPrimitive.                    (* ToString of an object that has no usable toString *)

(** What the code can throw. *)
Inductive js_error : Type :=
| TranscriptError (message : jsstring) (status : Z)
| Error (message : jsstring)
| EngineError (f : engine_fault).

(** The result of running a piece of code that may throw. *)
Inductive outcome (A : Type) : Type :=
| Returned (a : A)
| Thrown (e : js_error).

Arguments Returned {A} a.
Arguments Thrown {A} e.

Definition bind_outcome {A B : Type} (m : outcome A) (f : A -> outcome B)
  : outcome B :=
  match m with
  | Returned a => f a
  | Thrown e => Thrown e
  end.

(** ** buildTranscriptToken *)

Definition b64_alphabet : jsstring :=
  js "ABCDEFGHIJKLMNOPQRSTUVWXYZabcdefghijklmnopqrstuvwxyz0123456789+/".

Definition b64_char (i : N) : N := nth (N.to_nat i) b64_alphabet 0.

(** Three bytes become four characters; a short last group is padded
    with [=]. *)
Fixpoint b64_groups (bs : list N) : jsstring :=
  match bs with
  | [] => []
  | [a] => [b64_char (a / 4); b64_char ((a mod 4) * 16); 61; 61]
  | [a; b] =>
      [b64_char (a / 4); b64_char ((a mod 4) * 16 + b / 16);
       b64_char ((b mod 16) * 4); 61]
  | a :: b :: c :: rest =>
      b64_char (a / 4) :: b64_char ((a mod 4) * 16 + b / 16)
      :: b64_char ((b mod 16) * 4 + c / 64) :: b64_char (c mod 64)
      :: b64_groups rest
  end.

(** A binary string: every code unit is a byte. *)
Definition is_binary (s : jsstring) : bool := forallb (fun c => c <=? 255) s.

(** [btoa(s)] *)
Definition btoa (s : jsstring) : outcome jsstring :=
  if is_binary s then Returned (b64_groups s)
  else Thrown (EngineError InvalidCharacter).

(** The characters [encodeURIComponent] leaves alone. *)
Definition uri_unreserved (c : N) : bool :=
  in_range 97 122 c || in_range 65 90 c || in_range 48 57 c
  || existsb (N.eqb c) (js "-_.!~*'()").

Definition hex_digit (d : N) : N := nth (N.to_nat d) (js "0123456789ABCDEF") 0.

Definition percent (b : N) : jsstring :=
  [37; hex_digit (b / 16); hex_digit (b mod 16)].

Definition utf8 (cp : N) : list N :=
  if cp <? 128 then [cp]
  else if cp <? 2048 then [192 + cp / 64; 128 + cp mod 64]
  else if cp <? 65536 then
    [224 + cp / 4096; 128 + (cp / 64) mod 64; 128 + cp mod 64]
  else
    [240 + cp / 262144; 128 + (cp / 4096) mod 64;
     128 + (cp / 64) mod 64; 128 + cp mod 64].

Definition is_high_surrogate (c : N) : bool := in_range 55296 56319 c.
Definition is_low_surrogate (c : N) : bool := in_range 56320 57343 c.

Definition escape_code_point (cp : N) (rest : option jsstring) : option jsstring :=
  option_map (app (List.concat (map percent (utf8 cp)))) rest.

(** [encodeURIComponent(s)]; [None] is the [URIError] of a lone
    surrogate. *)
Fixpoint encodeURIComponent (s : jsstring) : option jsstring :=
  match s with
  | [] => Some []
  | c :: s' =>
      if uri_unreserved c then option_map (cons c) (encodeURIComponent s')
      else if is_low_surrogate c then None
      else if is_high_surrogate c then
        match s' with
        | d :: s'' =>
            if is_low_surrogate d then
              escape_code_point
                ((c - 55296) * 1024 + (d - 56320) + 65536)
                (encodeURIComponent s'')
            else None
        | [] => None
        end
      else escape_code_point c (encodeURIComponent s')
  end.

(** [String.fromCharCode(n)] for a single argument. *)
Definition fromCharCode (n : N) : jsstring := [n mod 65536].

Definition str_length (s : jsstring) : N := N.of_nat (List.length s).

(** The nested helper [b64urlEncodeBinary]. *)
Definition b64urlEncodeBinary (binary : jsstring) : outcome jsstring :=
  bind_outcome (btoa binary) (fun b =>
  match encodeURIComponent b with
  | Some t => Returned t
  | None => Thrown (EngineError MalformedURI)
  end).

Definition panel : jsstring :=
  js "engagement-panel-searchable-transcript-search-panel".

(** The inner blob of [buildTranscriptToken]. *)
Definition inner_blob (source lang : jsstring) : jsstring :=
  fromCharCode 10 ++ fromCharCode (str_length source) ++ source ++
  fromCharCode 18 ++ fromCharCode (str_length lang) ++ lang ++
  fromCharCode 26 ++ fromCharCode 0.

(** The outer structure of [buildTranscriptToken]. *)
Definition outer_blob (videoId innerB64 : jsstring) (lastFlag : bool) : jsstring :=
  fromCharCode 10 ++ fromCharCode (str_length videoId) ++ videoId ++
  fromCharCode 18 ++ fromCharCode (str_length innerB64) ++ innerB64 ++
  fromCharCode 24 ++ fromCharCode 1 ++
  fromCharCode 42 ++ fromCharCode (str_length panel) ++ panel ++
  fromCharCode 48 ++ fromCharCode 1 ++
  fromCharCode 56 ++ fromCharCode 1 ++
  fromCharCode 64 ++ fromCharCode (if lastFlag then 1 else 0).

(** [buildTranscriptToken(videoId, source, lang, lastFlag)] *)
Definition buildTranscriptToken (videoId source lang : jsstring)
           (lastFlag : bool) : outcome jsstring :=
  bind_outcome (btoa (inner_blob source lang)) (fun innerB64 =>
  b64urlEncodeBinary (outer_blob videoId innerB64 lastFlag)).

(** *** The encoder as the specification words it *)

(** One length-delimited field: tag byte, length byte, value bytes. *)
Definition tlv (tag : N) (value : list N) : list N :=
  tag :: str_length value :: value.

(** The three length-delimited fields the specification names for the
    outer blob. *)
Definition outer_fields (videoId innerB64 : jsstring) : list N :=
  tlv 10 videoId ++ tlv 18 innerB64 ++ tlv 42 panel.

(** The outer blob the specification describes: those fields and two
    flags (at most two bytes each, tag included), in some order. *)
Definition outer_as_specified (blob videoId innerB64 : jsstring) : Prop :=
  exists flags : list N,
    (List.length flags <= 4)%nat /\
    Permutation blob (outer_fields videoId innerB64 ++ flags).

(** ** retryWithBackoff *)

Definition MAX_RETRIES : nat := 3.
Definition INITIAL_RETRY_DELAY : Z := 1000.

(** What the executor does besides returning. *)
Inductive retry_event : Type :=
| Invoke (attempt : nat)                                (* await fn() *)
| Warn (attempt : nat) (delay : Z) (e : js_error)       (* console.warn *)
| Sleep (delay : Z).                                    (* setTimeout *)

Section Retry.

(** The world the operation acts on, and the type of its results. *)
Context {W A : Type}.

(** The operation: it changes the world and returns or throws. *)
Variable fn : W -> outcome A * W.

Variable initialDelay : Z.

(** The [for] loop, from [attempt] on, with [retriesLeft] equal to
    [maxRetries - attempt].  The branch [retriesLeft = 0] is the
    [attempt === maxRetries] break followed by [throw lastError]. *)
Fixpoint retry_from (retriesLeft attempt : nat) (w : W)
  : outcome A * W * list retry_event :=
  match fn w with
  | (Returned a, w') => (Returned a, w', [Invoke attempt])
  | (Thrown e, w') =>
      match retriesLeft with
      | O => (Thrown e, w', [Invoke attempt])
      | S r =>
          let delay := (initialDelay * 2 ^ Z.of_nat attempt)%Z in
          let '(res, w'', evs) := retry_from r (S attempt) w' in
          (res, w'', Invoke attempt :: Warn (S attempt) delay e
                      :: Sleep delay :: evs)
      end
  end.

End Retry.

(** [retryWithBackoff(fn, maxRetries, initialDelay)] *)
Definition retryWithBackoff {W A : Type} (fn : W -> outcome A * W)
           (maxRetries : nat) (initialDelay : Z) (w : W)
  : outcome A * W * list retry_event :=
  retry_from fn initialDelay maxRetries 0 w.

(** The delays slept, in order. *)
Fixpoint sleeps (evs : list retry_event) : list Z :=
  match evs with
  | [] => []
  | Sleep d :: evs' => d :: sleeps evs'
  | _ :: evs' => sleeps evs'
  end.

(** The number of invocations of the operation. *)
Fixpoint invocations (evs : list retry_event) : nat :=
  match evs with
  | [] => O
  | Invoke _ :: evs' => S (invocations evs')
  | _ :: evs' => invocations evs'
  end.

(** The outcomes of the first [n] successive calls of an operation. *)
Fixpoint first_outcomes {W A : Type} (fn : W -> outcome A * W) (n : nat) (w : W)
  : list (outcome A) :=
  match n with
  | O => []
  | S n' => let (r, w') := fn w in r :: first_outcomes fn n' w'
  end.

(** ** Array.prototype.sort *)

(** The comparators of [getLangOptionsWithLink] are not consistent (two
    names that both contain "English" each compare below the other), so
    ECMAScript leaves the order to the engine.  This is the procedure of
    V8, the engine of the Workers runtime, for arrays shorter than 64
    elements, where its TimSort is one run: [CountAndMakeRun] finds the
    initial run and reverses it when it is descending, and
    [BinaryInsertionSort] inserts each later element at the slot a binary
    search gives.  The comparator is called as V8 calls it: with the
    later element first in run detection, with the pivot first in the
    search. *)
Section Sort.

Context {T : Type}.

Variable comparefn : T -> T -> Z.

(** The loop of [CountAndMakeRun]: how far the run goes on after
    [previous]. *)
Fixpoint extend_run (isDescending : bool) (previous : T) (rest : list T)
  : list T * list T :=
  match rest with
  | [] => ([], [])
  | current :: rest' =>
      let order := comparefn current previous in
      if (if isDescending then (0 <=? order)%Z else (order <? 0)%Z)
      then ([], rest)
      else
        let (run, tail) := extend_run isDescending current rest' in
        (current :: run, tail)
  end.

(** [CountAndMakeRun]: the initial run, made ascending, and what
    follows it. *)
Definition countAndMakeRun (a : list T) : list T * list T :=
  match a with
  | elementHigh :: elementLow :: rest =>
      let order := comparefn elementLow elementHigh in
      let isDescending := (order <? 0)%Z in
      let (run, tail) := extend_run isDescending elementLow rest in
      let whole := elementHigh :: elementLow :: run in
      (if isDescending then rev whole else whole, tail)
  | _ => (a, [])
  end.

(** The binary search of [BinaryInsertionSort]; [fuel] bounds the
    iterations of [while (left < right)]. *)
Fixpoint find_slot (fuel : nat) (pivot : T) (sorted : list T)
         (left right : nat) : nat :=
  match fuel with
  | O => left
  | S fuel' =>
      if (left <? right)%nat then
        let mid := (left + Nat.div2 (right - left))%nat in
        let order := comparefn pivot (nth mid sorted pivot) in
        if (order <? 0)%Z then find_slot fuel' pivot sorted left mid
        else find_slot fuel' pivot sorted (S mid) right
      else left
  end.

(** One round of [BinaryInsertionSort]: the pivot goes to its slot. *)
Definition insert_pivot (sorted : list T) (pivot : T) : list T :=
  let left :=
    find_slot (List.length sorted) pivot sorted 0 (List.length sorted) in
  firstn left sorted ++ pivot :: skipn left sorted.

Definition binaryInsertionSort (run rest : list T) : list T :=
  fold_left insert_pivot rest run.

(** [a.sort(comparefn)] *)
Definition array_sort (a : list T) : list T :=
  let (run, rest) := countAndMakeRun a in
  binaryInsertionSort run rest.

End Sort.

(** ** getLangOptionsWithLink *)

Record LanguageOption : Type := {
  language : jsstring;
  languageCode : jsstring;
  kind : jsstring
}.

(** One entry of [captionTracks]; [track_name] is [name.simpleText]. *)
Record CaptionTrack : Type := {
  track_name : jsstring;
  track_languageCode : jsstring;
  track_kind : option jsstring
}.

Definition first : jsstring := js "English".

(** [function (x, y) { return x.includes(first) ? -1 : y.includes(first) ? 1 : 0; }] *)
Definition compare_includes (x y : jsstring) : Z :=
  if includes x first then (-1)%Z else if includes y first then 1%Z else 0%Z.

(** [function (x, y) { return x == first ? -1 : y == first ? 1 : 0; }] *)
Definition compare_equals (x y : jsstring) : Z :=
  if str_eqb x first then (-1)%Z else if str_eqb y first then 1%Z else 0%Z.

(** The two [languageOptions.sort] calls. *)
Definition sort_names (languageOptions : list jsstring) : list jsstring :=
  array_sort compare_equals (array_sort compare_includes languageOptions).

(** The callback of the final [map]. *)
Definition option_for (captionTracks : list CaptionTrack) (langName : jsstring)
  : outcome LanguageOption :=
  match find (fun i => str_eqb (track_name i) langName) captionTracks with
  | Some captionTrack =>
      Returned {|
        language := langName;
        languageCode := track_languageCode captionTrack;
        kind := match track_kind captionTrack with
                | Some (c :: k) => c :: k
                | _ => js "manual"
                end |}
  | None => Thrown (EngineError (NotAnObject (js "captionTrack")))
  end.

Fixpoint map_outcome {A B : Type} (f : A -> outcome B) (xs : list A)
  : outcome (list B) :=
  match xs with
  | [] => Returned []
  | x :: xs' =>
      bind_outcome (f x) (fun y =>
      bind_outcome (map_outcome f xs') (fun ys => Returned (y :: ys)))
  end.

(** From [captionTracks] to the returned list: the names, the two sorts
    and the lookup of each name. *)
Definition languageOptionsOf (captionTracks : list CaptionTrack)
  : outcome (list LanguageOption) :=
  let languageOptions := map track_name captionTracks in
  map_outcome (option_for captionTracks) (sort_names languageOptions).

(** What the page request of one attempt comes to.  The text of the page
    is not modelled: the environment says which branch its content
    takes. *)
Inductive video_page : Type :=
| FetchFailed (e : js_error)                        (* fetch rejects *)
| NotOk (status statusText : jsstring)              (* !videoPageResponse.ok *)
| NoCaptionsMarker                                  (* splittedHtml.length < 2 *)
| CaptionsUnparsable (parseErrorMessage : jsstring) (* JSON.parse throws *)
| CaptionsWithoutTracks                             (* captionTracks missing *)
| Captions (captionTracks : list CaptionTrack).

Section Discovery.

Context {W : Type}.

(** The page request for a video, acting on the world. *)
Variable fetch_page : jsstring -> W -> video_page * W.

(** The operation handed to [retryWithBackoff]; [None] is the
    [undefined] returned when no caption is available. *)
Definition discover_once (videoId : jsstring) (w : W)
  : outcome (option (list LanguageOption)) * W :=
  let (page, w') := fetch_page videoId w in
  (match page with
   | FetchFailed e => Thrown e
   | NotOk status statusText =>
       Thrown (Error (js "Failed to fetch YouTube page: " ++ status
                      ++ js " " ++ statusText))
   | NoCaptionsMarker => Returned None
   | CaptionsUnparsable m =>
       Thrown (Error (js "Failed to parse captions JSON: " ++ m))
   | CaptionsWithoutTracks =>
       Thrown (Error (js "Caption tracks not found in response"))
   | Captions captionTracks =>
       bind_outcome (languageOptionsOf captionTracks)
                    (fun l => Returned (Some l))
   end, w').

Definition getLangOptionsWithLink (videoId : jsstring) (w : W)
  : outcome (option (list LanguageOption)) * W * list retry_event :=
  retryWithBackoff (discover_once videoId) MAX_RETRIES INITIAL_RETRY_DELAY w.

End Discovery.

(** ** JavaScript values *)

(** A number is an IEEE 754 double: [NaN], an infinity, a zero of
    either sign or a finite value, kept as the rational it is exactly
    ([Finite 0] is [+0]). *)
Inductive jsnum : Type :=
| NaN
| Infinity (negative : bool)
| NegZero
| Finite (q : Q).

Definition pow2 (e : Z) : Q := Qpower 2 e.

(** The integer nearest to [q], the even one of two that are equally
    near. *)
Definition round_half_even (q : Q) : Z :=
  let f := Qfloor q in
  match Qcompare (q - inject_Z f)%Q (1 # 2)%Q with
  | Lt => f
  | Gt => (f + 1)%Z
  | Eq => if Z.even f then f else (f + 1)%Z
  end.

(** The exponent [e] with [2^e <= q < 2^(e+1)], for [q > 0]. *)
Definition binade (q : Q) : Z :=
  let e0 := (Z.log2 (Qnum q) - Z.log2 (Zpos (Qden q)))%Z in
  if Qle_bool (pow2 e0) q then e0 else (e0 - 1)%Z.

(** The double nearest to [q > 0], with the sign [negative]: 53 bits of
    precision down to the exponent -1022, ties to even, infinite from
    [2^1024] on. *)
Definition to_double_pos (negative : bool) (q : Q) : jsnum :=
  let e := Z.max (binade q) (-1022) in
  let ulp := pow2 (e - 52) in
  let m := round_half_even (q / ulp)%Q in
  let v := (inject_Z m * ulp)%Q in
  if (m =? 0)%Z then (if negative then NegZero else Finite 0)
  else if Qle_bool (pow2 1024) v then Infinity negative
  else Finite (Qred (if negative then (- v)%Q else v)).

(** The Number value for a real number: round to nearest, ties to
    even. *)
Definition to_double (q : Q) : jsnum :=
  match Qcompare q 0%Q with
  | Eq => Finite 0
  | Gt => to_double_pos false q
  | Lt => to_double_pos true (- q)%Q
  end.

Definition isNaN (x : jsnum) : bool :=
  match x with NaN => true | _ => false end.

(** The value of a number that is neither [NaN] nor infinite. *)
Definition finite_value (x : jsnum) : Q :=
  match x with
  | Finite q => q
  | _ => 0%Q
  end.

Definition is_zero (x : jsnum) : bool :=
  match x with
  | NegZero => true
  | Finite q => Qeq_bool q 0
  | _ => false
  end.

(** [a < b] *)
Definition num_lt (a b : jsnum) : bool :=
  match a, b with
  | NaN, _ | _, NaN => false
  | Infinity s, Infinity t => s && negb t
  | Infinity s, _ => s
  | _, Infinity t => negb t
  | _, _ => negb (Qle_bool (finite_value b) (finite_value a))
  end.

(** [a - b] *)
Definition num_sub (a b : jsnum) : jsnum :=
  match a, b with
  | NaN, _ | _, NaN => NaN
  | Infinity s, Infinity t => if Bool.eqb s t then NaN else Infinity s
  | Infinity s, _ => Infinity s
  | _, Infinity t => Infinity (negb t)
  | _, _ =>
      if is_zero a && is_zero b then
        match a, b with
        | NegZero, Finite _ => NegZero
        | _, _ => Finite 0
        end
      else to_double (finite_value a - finite_value b)%Q
  end.

(** [a / 1000] *)
Definition per_thousand (a : jsnum) : jsnum :=
  match a with
  | NaN => NaN
  | Infinity s => Infinity s
  | NegZero => NegZero
  | Finite q => to_double (q / 1000)%Q
  end.

(** The values the code handles: what [JSON.parse] produces, and
    [undefined]. *)
Inductive jsval : Type :=
| VUndefined
| VNull
| VBool (b : bool)
| VNum (x : jsnum)
| VStr (s : jsstring)
| VArr (items : list jsval)
| VObj (props : list (jsstring * jsval)).

Fixpoint lookup (name : jsstring) (props : list (jsstring * jsval)) : jsval :=
  match props with
  | [] => VUndefined
  | (k, v) :: props' => if str_eqb k name then v else lookup name props'
  end.

(** [v?.name], and [v.name] where [v] is neither [null] nor [undefined],
    for the property names the source reads: strings, numbers, booleans
    and arrays have none of them. *)
Definition get (name : string) (v : jsval) : jsval :=
  match v with
  | VObj props => lookup (js name) props
  | _ => VUndefined
  end.

(** [v?.[0]] and [v[0]] *)
Definition get0 (v : jsval) : jsval :=
  match v with
  | VArr items => nth 0 items VUndefined
  | VStr (c :: _) => VStr [c]
  | VObj props => lookup (js "0") props
  | _ => VUndefined
  end.

(** [ToBoolean] *)
Definition truthy (v : jsval) : bool :=
  match v with
  | VUndefined | VNull => false
  | VBool b => b
  | VNum (NaN | NegZero) => false
  | VNum (Finite q) => negb (Qeq_bool q 0)
  | VNum (Infinity _) => true
  | VStr [] => false
  | VStr (_ :: _) | VArr _ | VObj _ => true
  end.

(** The code points of a string, each as a string: what its iterator
    yields. *)
Fixpoint code_points (s : jsstring) : list jsstring :=
  match s with
  | [] => []
  | c :: s' =>
      match s' with
      | d :: s'' =>
          if is_high_surrogate c && is_low_surrogate d
          then [c; d] :: code_points s''
          else [c] :: code_points s'
      | [] => [[c]]
      end
  end.

(** What [for (const x of v)] goes through; [None] when [v] is not
    iterable. *)
Definition iterate (v : jsval) : option (list jsval) :=
  match v with
  | VArr items => Some items
  | VStr s => Some (map VStr (code_points s))
  | _ => None
  end.

(** *** parseInt *)

Definition is_digit (c : N) : bool := in_range 48 57 c.

(** The value of the longest prefix of decimal digits, and whether there
    was a digit at all. *)
Fixpoint read_digits (acc : Z) (seen : bool) (s : jsstring) : option Z :=
  match s with
  | c :: s' =>
      if is_digit c then read_digits (acc * 10 + Z.of_N (c - 48))%Z true s'
      else if seen then Some acc else None
  | [] => if seen then Some acc else None
  end.

(** [parseInt(s, 10)] on a string: leading white space, a sign, digits;
    the result is the double nearest to the integer read (V8 reads
    every digit), [-0] for a zero after a minus sign. *)
Definition parseInt_string (s : jsstring) : jsnum :=
  let body := trimStart s in
  let '(negative, digits) :=
    match body with
    | 45 :: r => (true, r)
    | 43 :: r => (false, r)
    | _ => (false, body)
    end in
  match read_digits 0 false digits with
  | Some 0%Z => if negative then NegZero else Finite 0
  | Some n => to_double (inject_Z (if negative then (- n)%Z else n))
  | None => NaN
  end.

Section Conversions.

(** [Number::toString]: the decimal text of a number.  It is the
    engine's; nothing is assumed of it. *)
Variable Number_toString : jsnum -> jsstring.

(** An object has a property of its own with this name. *)
Definition has_own (name : string) (props : list (jsstring * jsval)) : bool :=
  existsb (fun kx => str_eqb (fst kx) (js name)) props.

(** [ToString(v)].  An array prints its elements between commas, [null]
    and [undefined] among them as nothing.  An object of JSON data has
    no function among its properties: with a [toString] of its own,
    which hides the inherited one, neither [toString] nor [valueOf]
    gives a primitive value and the conversion throws a TypeError;
    without one it prints as [[object Object]]. *)
Fixpoint ToString (v : jsval) : outcome jsstring :=
  match v with
  | VUndefined => Returned (js "undefined")
  | VNull => Returned (js "null")
  | VBool b => Returned (if b then js "true" else js "false")
  | VNum x => Returned (Number_toString x)
  | VStr s => Returned s
  | VArr items =>
      bind_outcome
        ((fix elements (l : list jsval) : outcome (list jsstring) :=
            match l with
            | [] => Returned []
            | x :: l' =>
                bind_outcome
                  match x with
                  | VUndefined | VNull => Returned []
                  | _ => ToString x
                  end (fun t =>
                bind_outcome (elements l') (fun ts => Returned (t :: ts)))
            end) items)
        (fun ts => Returned (join (js ",") ts))
  | VObj props =>
      if has_own "toString" props then Thrown (EngineError NotPrimitive)
      else Returned (js "[object Object]")
  end.

(** [parseInt(v, 10)]: [v] is turned into a string first. *)
Definition parseInt (v : jsval) : outcome jsnum :=
  bind_outcome (ToString v) (fun s => Returned (parseInt_string s)).

End Conversions.

(** *** JSON *)

(** A JSON text, up to the layout of its characters; a number literal
    is kept as the double it reads as. *)
Inductive jsondoc : Type :=
| DNull
| DBool (b : bool)
| DNum (q : Q)
| DStr (s : jsstring)
| DArr (items : list jsondoc)
| DObj (members : list (jsstring * jsondoc)).

(** [JSON.stringify(v)]; [None] is the [undefined] it returns for
    [undefined].  A property holding [undefined] is left out, an array
    element holding it becomes [null], and so do [NaN] and the
    infinities; a finite number is written so that it reads back as
    itself, [-0] as [0]. *)
Fixpoint JSON_stringify (v : jsval) : option jsondoc :=
  match v with
  | VUndefined => None
  | VNull => Some DNull
  | VBool b => Some (DBool b)
  | VNum (NaN | Infinity _) => Some DNull
  | VNum NegZero => Some (DNum 0)
  | VNum (Finite q) => Some (DNum q)
  | VStr s => Some (DStr s)
  | VArr items =>
      Some (DArr
        (map (fun x => match JSON_stringify x with
                       | Some d => d
                       | None => DNull
                       end) items))
  | VObj props =>
      Some (DObj
        (flat_map (fun kx => match JSON_stringify (snd kx) with
                             | Some d => [(fst kx, d)]
                             | None => []
                             end) props))
  end.

(** [JSON.parse(text)] on a well-formed text. *)
Fixpoint JSON_parse (d : jsondoc) : jsval :=
  match d with
  | DNull => VNull
  | DBool b => VBool b
  | DNum q => VNum (Finite q)
  | DStr s => VStr s
  | DArr items => VArr (map JSON_parse items)
  | DObj members =>
      VObj (map (fun kx => (fst kx, JSON_parse (snd kx))) members)
  end.

(** ** Console output *)

Inductive log_level : Type := log_ | warn_ | error_.

Inductive log_detail : Type :=
| NoDetail
| Text (t : option jsondoc)        (* a JSON text *)
| Value (v : jsval)
| Caught (e : js_error).

Record log_entry : Type := {
  level : log_level;
  message : jsstring;
  detail : log_detail
}.

(** ** getTranscript *)

Record TranscriptSegment : Type := {
  start : jsnum;
  duration : jsnum;
  text : jsstring
}.

(** [{ ...langOption, transcript, parts }] *)
Record TranscriptResult : Type := {
  langOption : LanguageOption;
  transcript : jsstring;
  parts : list TranscriptSegment
}.

(** [s.replace(/\s+/g, ' ')]: [inRun] tells that the previous character
    was white space, already replaced. *)
Fixpoint collapse_spaces (inRun : bool) (s : jsstring) : jsstring :=
  match s with
  | [] => []
  | c :: s' =>
      if isWhiteSpace c then
        if inRun then collapse_spaces true s'
        else 32 :: collapse_spaces true s'
      else c :: collapse_spaces false s'
  end.

(** [text.trim().replace(/\s+/g, ' ')] *)
Definition normalize (text : jsstring) : jsstring :=
  collapse_spaces false (trim text).

(** The body of [for (const run of renderer.snippet.runs)]. *)
Definition run_text (run : jsval) : jsstring :=
  match get "text" run with
  | VStr s => s
  | _ => []
  end.

Section Parser.

Variable Number_toString : jsnum -> jsstring.

(** What one round of the segment loop does. *)
Inductive segment_step : Type :=
| Skipped                               (* continue *)
| SkippedTiming (renderer : jsval)      (* console.warn, continue *)
| Pushed (part : TranscriptSegment)     (* parts.push *)
| Failed (e : js_error).

Definition is_undefined (v : jsval) : bool :=
  match v with VUndefined => true | _ => false end.

(** The body of [for (const segment of initialSegments)]. *)
Definition segment_step_of (segment : jsval) : segment_step :=
  let renderer := get "transcriptSegmentRenderer" segment in
  if negb (truthy renderer)
     || is_undefined (get "startMs" renderer)
     || is_undefined (get "endMs" renderer)
     || negb (truthy (get "runs" (get "snippet" renderer)))
  then Skipped
  else
    match iterate (get "runs" (get "snippet" renderer)) with
    | None => Failed (EngineError (NotIterable (js "renderer.snippet.runs")))
    | Some runs =>
        let text := normalize (List.concat (map run_text runs)) in
        match text with
        | [] => Skipped
        | _ :: _ =>
            match parseInt Number_toString (get "startMs" renderer) with
            | Thrown e => Failed e
            | Returned startMs =>
                match parseInt Number_toString (get "endMs" renderer) with
                | Thrown e => Failed e
                | Returned endMs =>
                    if isNaN startMs || isNaN endMs || num_lt endMs startMs
                    then SkippedTiming renderer
                    else Pushed {| start := per_thousand startMs;
                                   duration :=
                                     per_thousand (num_sub endMs startMs);
                                   text := text |}
                end
            end
        end
    end.

Definition warn_timing (renderer : jsval) : log_entry :=
  {| level := warn_;
     message := js "Skipping segment with invalid timing:";
     detail := Value renderer |}.

(** The segment loop: the parts pushed, in order, and the warnings. *)
Fixpoint collect_parts (segments : list jsval)
  : outcome (list TranscriptSegment) * list log_entry :=
  match segments with
  | [] => (Returned [], [])
  | segment :: rest =>
      match segment_step_of segment with
      | Failed e => (Thrown e, [])
      | Skipped => collect_parts rest
      | SkippedTiming renderer =>
          let (r, logs) := collect_parts rest in
          (r, warn_timing renderer :: logs)
      | Pushed part =>
          let (r, logs) := collect_parts rest in
          (bind_outcome r (fun ps => Returned (part :: ps)), logs)
      end
  end.

(** The chain of optional reads down to [initialSegments]. *)
Definition initialSegments_of (responseData : jsval) : jsval :=
  get "initialSegments"
   (get "transcriptSegmentListRenderer"
    (get "body"
     (get "transcriptSearchPanelRenderer"
      (get "content"
       (get "transcriptRenderer"
        (get "content"
         (get "updateEngagementPanelAction"
          (get0 (get "actions" responseData))))))))).

(** [actions && actions[0]?.updateEngagementPanelAction?.targetId === "engagement-panel-searchable-transcript"] *)
Definition is_transcript_panel (responseData : jsval) : bool :=
  let actions := get "actions" responseData in
  truthy actions &&
  match get "targetId" (get "updateEngagementPanelAction" (get0 actions)) with
  | VStr s => str_eqb s (js "engagement-panel-searchable-transcript")
  | _ => false
  end.

Definition no_transcript_found (language : jsstring) : js_error :=
  TranscriptError
    (js "No transcript found for this video in the specified language ('"
     ++ language ++ js "').") 404.

Definition parse_error : js_error :=
  TranscriptError
    (js "Could not parse transcript data. The API structure might have changed.")
    500.

Definition empty_transcript (language : jsstring) : js_error :=
  TranscriptError
    (js "Transcript was found but contained no text segments for language '"
     ++ language ++ js "'.") 404.

Definition warn_structure (responseData : jsval) : log_entry :=
  {| level := warn_;
     message :=
       js "Transcript data structure not found or unexpectedly changed in response:";
     detail := Text (JSON_stringify responseData) |}.

(** [getTranscript] from [responseData] on. *)
Definition read_transcript (langOption : LanguageOption) (responseData : jsval)
  : outcome TranscriptResult * list log_entry :=
  let initialSegments := initialSegments_of responseData in
  if negb (truthy initialSegments) then
    if is_transcript_panel responseData
    then (Thrown (no_transcript_found (language langOption)), [])
    else (Thrown parse_error, [warn_structure responseData])
  else
    match iterate initialSegments with
    | None => (Thrown (EngineError (NotIterable (js "initialSegments"))), [])
    | Some segments =>
        match collect_parts segments with
        | (Thrown e, logs) => (Thrown e, logs)
        | (Returned [], logs) =>
            (Thrown (empty_transcript (language langOption)), logs)
        | (Returned (p :: ps), logs) =>
            let parts := p :: ps in
            let fullTranscript := trim (join (js " ") (map text parts)) in
            (Returned {| langOption := langOption;
                         transcript := fullTranscript;
                         parts := parts |}, logs)
        end
    end.

End Parser.

(** The [params] of the request: [reqBodyToEncode]. *)
Definition request_params (videoId : jsstring) (langOption : LanguageOption)
  : outcome jsstring :=
  if str_eqb (kind langOption) (js "asr")
  then buildTranscriptToken videoId (kind langOption)
                            (languageCode langOption) true
  else buildTranscriptToken videoId [] (languageCode langOption) true.

Section Transcript.

(** The client version drawn for the request, and the POST to the
    transcript endpoint followed by [response.json()]. *)
Variable Number_toString : jsnum -> jsstring.
Variable clientVersion : jsstring.
Variable post_get_transcript : jsstring -> jsstring -> outcome jsval.

(** [getTranscript(videoId, langOption)] *)
Definition getTranscript (videoId : jsstring) (langOption : LanguageOption)
  : outcome TranscriptResult * list log_entry :=
  match request_params videoId langOption with
  | Thrown e => (Thrown e, [])
  | Returned reqBodyToEncode =>
      match post_get_transcript clientVersion reqBodyToEncode with
      | Thrown e => (Thrown e, [])
      | Returned responseData =>
          read_transcript Number_toString langOption responseData
      end
  end.

End Transcript.

(** The result as the value handed to [c.json] and [JSON.stringify]. *)
Definition segment_value (p : TranscriptSegment) : jsval :=
  VObj [(js "start", VNum (start p));
        (js "duration", VNum (duration p));
        (js "text", VStr (text p))].

Definition result_value (r : TranscriptResult) : jsval :=
  VObj [(js "languageCode", VStr (languageCode (langOption r)));
        (js "kind", VStr (kind (langOption r)));
        (js "language", VStr (language (langOption r)));
        (js "transcript", VStr (transcript r));
        (js "parts", VArr (map segment_value (parts r)))].

Definition option_value (o : LanguageOption) : jsval :=
  VObj [(js "language", VStr (language o));
        (js "languageCode", VStr (languageCode o));
        (js "kind", VStr (kind o))].

(** What [getLangOptionsWithLink] resolves to, as a value. *)
Definition languages_value (l : option (list LanguageOption)) : jsval :=
  match l with
  | Some options => VArr (map option_value options)
  | None => VUndefined
  end.

(** ** The endpoints *)

Definition DEFAULT_TRANSCRIPT_LANGUAGE : jsstring := js "en".
Definition DEFAULT_TRANSCRIPT_KIND : jsstring := js "asr".
Definition CACHE_TTL_SECONDS : Z := 3600.

(** The request body, with the fields of the documented schema: each is
    absent or a string. *)
Record RequestBody : Type := {
  body_videoUrl : option jsstring;
  body_videoId : option jsstring;
  body_language : option jsstring;
  body_kind : option jsstring
}.

(** [a || b] on values that are strings or [undefined]. *)
Definition or_else (a b : option jsstring) : option jsstring :=
  match a with
  | Some (_ :: _) => a
  | _ => b
  end.

(** [a || d] with a string literal on the right. *)
Definition or_default (a : option jsstring) (d : jsstring) : jsstring :=
  match a with
  | Some (c :: s) => c :: s
  | _ => d
  end.

(** What [MY_KV.get(key, 'json')] settles to. *)
Inductive kv_read : Type :=
| Resolved (cachedData : jsval)
| Rejected (kvError : js_error).

(** The cache store: [get] by key, and how a [put] settles ([None] when
    it succeeds). *)
Record KVNamespace : Type := {
  kv_get : jsstring -> kv_read;
  kv_put : jsstring -> option jsondoc -> Z -> option js_error
}.

Inductive cache_tag : Type := hit | miss.

(** The JSON answers of the endpoints. *)
Inductive reply : Type :=
| Failure (status : Z) (error : jsstring)
| Languages (videoId : jsstring) (data : jsval) (cache : cache_tag)
| Transcript (videoId language : jsstring) (data : jsval) (cache : cache_tag).

(** The write handed to [executionCtx.waitUntil], and what it logs when
    it settles. *)
Record cache_write : Type := {
  write_key : jsstring;
  write_value : option jsondoc;
  write_ttl : Z;
  write_log : log_entry
}.

(** A request served: the answer, the console output on the way, the
    retries of discovery, and the detached cache write. *)
Record served : Type := {
  answer : reply;
  console : list log_entry;
  retries : list retry_event;
  waitUntil : option cache_write
}.

Definition say (l : log_level) (m : jsstring) : log_entry :=
  {| level := l; message := m; detail := NoDetail |}.

Definition cache_hit_log (cacheKey : jsstring) : log_entry :=
  say log_ (js "Cache hit for key: " ++ cacheKey).

Definition cache_miss_log (cacheKey : jsstring) : log_entry :=
  say log_ (js "Cache miss for key: " ++ cacheKey).

Definition kv_get_error_log (cacheKey : jsstring) (kvError : js_error) : log_entry :=
  {| level := error_;
     message := js "KV get error for key " ++ cacheKey ++ js ":";
     detail := Caught kvError |}.

Definition put_in_cache (kv : KVNamespace) (cacheKey : jsstring)
           (value : option jsondoc) : cache_write :=
  {| write_key := cacheKey;
     write_value := value;
     write_ttl := CACHE_TTL_SECONDS;
     write_log :=
       match kv_put kv cacheKey value CACHE_TTL_SECONDS with
       | None => say log_ (js "Cached data for key: " ++ cacheKey)
       | Some err =>
           {| level := error_;
              message := js "KV put error for key " ++ cacheKey ++ js ":";
              detail := Caught err |}
       end |}.

Definition no_kv_binding : served :=
  {| answer := Failure 500 (js "Server configuration error: Cache not available.");
     console :=
       [say error_
          (js "MY_KV binding is not configured in wrangler.jsonc or environment.")];
     retries := [];
     waitUntil := None |}.

Definition bad_request (logs : list log_entry) (m : string) : served :=
  {| answer := Failure 400 (js m); console := logs; retries := [];
     waitUntil := None |}.

(** The first step of both endpoints: what the cache read leads to. *)
Inductive cache_step : Type :=
| ServeCached (cachedData : jsval) (logs : list log_entry)
| Proceed (logs : list log_entry).

(** The [try { ... } catch (kvError) { ... }] around the cache read. *)
Definition check_cache (kv : KVNamespace) (cacheKey : jsstring) : cache_step :=
  match kv_get kv cacheKey with
  | Resolved cachedData =>
      if truthy cachedData
      then ServeCached cachedData [cache_hit_log cacheKey]
      else Proceed [cache_miss_log cacheKey]
  | Rejected kvError => Proceed [kv_get_error_log cacheKey kvError]
  end.

Section Endpoints.

(** The message the runtime gives its own faults, and the decimal text
    it gives a number. *)
Variable engine_message : engine_fault -> jsstring.
Variable Number_toString : jsnum -> jsstring.

Definition message_of (e : js_error) : jsstring :=
  match e with
  | TranscriptError m _ => m
  | Error m => m
  | EngineError f => engine_message f
  end.

(** The outer [catch (error)] of both endpoints. *)
Definition caught (logs : list log_entry) (evs : list retry_event)
           (error : js_error) : served :=
  {| answer :=
       match error with
       | TranscriptError m status => Failure status m
       | _ =>
           Failure 500
             match message_of error with
             | [] => js "An unexpected error occurred."
             | c :: m => c :: m
             end
       end;
     console :=
       logs ++ [{| level := error_;
                   message := js "Transcript extraction error:";
                   detail := Caught error |}];
     retries := evs;
     waitUntil := None |}.

(** [app.post('/transcript', ...)] *)
Definition post_transcript (MY_KV : option KVNamespace)
           (req_json : outcome RequestBody)
           (clientVersion : jsstring)
           (post_get_transcript : jsstring -> jsstring -> outcome jsval)
  : served :=
  match MY_KV with
  | None => no_kv_binding
  | Some kv =>
      match req_json with
      | Thrown e => caught [] [] e
      | Returned body =>
          let videoUrl := or_else (body_videoUrl body) (body_videoId body) in
          let language := or_default (body_language body) DEFAULT_TRANSCRIPT_LANGUAGE in
          let kind := or_default (body_kind body) DEFAULT_TRANSCRIPT_KIND in
          match videoUrl with
          | Some (c :: u) =>
              match extractVideoId (c :: u) with
              | None => bad_request [] "Invalid YouTube URL or video ID provided."
              | Some videoId =>
                  let cacheKey :=
                    js "transcript:" ++ videoId ++ js ":" ++ language
                    ++ js ":" ++ kind in
                  match check_cache kv cacheKey with
                  | ServeCached cachedData logs =>
                      {| answer := Transcript videoId language cachedData hit;
                         console := logs; retries := [];
                         waitUntil := None |}
                  | Proceed logs =>
                      let langOption :=
                        {| languageCode := language;
                           kind := kind;
                           language := language |} in
                      match getTranscript Number_toString clientVersion
                                          post_get_transcript
                                          videoId langOption with
                      | (Thrown e, logs') => caught (logs ++ logs') [] e
                      | (Returned transcriptData, logs') =>
                          {| answer :=
                               Transcript videoId language
                                          (result_value transcriptData) miss;
                             console := logs ++ logs';
                             retries := [];
                             waitUntil :=
                               Some (put_in_cache kv cacheKey
                                       (JSON_stringify
                                          (result_value transcriptData))) |}
                      end
                  end
              end
          | _ => bad_request [] "Missing videoUrl or videoId in request body."
          end
      end
  end.

(** [app.post('/languages', ...)] *)
Definition post_languages {W : Type} (MY_KV : option KVNamespace)
           (req_json : outcome RequestBody)
           (fetch_page : jsstring -> W -> video_page * W) (w : W)
  : served :=
  match MY_KV with
  | None => no_kv_binding
  | Some kv =>
      match req_json with
      | Thrown e => caught [] [] e
      | Returned body =>
          let videoUrl := or_else (body_videoUrl body) (body_videoId body) in
          match videoUrl with
          | Some (c :: u) =>
              match extractVideoId (c :: u) with
              | None => bad_request [] "Invalid YouTube URL or video ID provided."
              | Some videoId =>
                  let cacheKey := js "languages:" ++ videoId in
                  match check_cache kv cacheKey with
                  | ServeCached cachedData logs =>
                      {| answer := Languages videoId cachedData hit;
                         console := logs; retries := [];
                         waitUntil := None |}
                  | Proceed logs =>
                      match getLangOptionsWithLink fetch_page videoId w with
                      | (Thrown e, _, evs) => caught logs evs e
                      | (Returned languagesData, _, evs) =>
                          {| answer :=
                               Languages videoId
                                         (languages_value languagesData) miss;
                             console := logs;
                             retries := evs;
                             waitUntil :=
                               Some (put_in_cache kv cacheKey
                                       (JSON_stringify
                                          (languages_value languagesData))) |}
                      end
                  end
              end
          | _ => bad_request [] "Missing videoUrl or videoId in request body."
          end
      end
  end.

End Endpoints.

(** A store whose every read fails with [kvError], and one that holds
    nothing; both settle writes as [put] says. *)
Definition failing_store (kvError : js_error)
           (put : jsstring -> option jsondoc -> Z -> option js_error)
  : KVNamespace :=
  {| kv_get := fun _ => Rejected kvError; kv_put := put |}.

Definition empty_store
           (put : jsstring -> option jsondoc -> Z -> option js_error)
  : KVNamespace :=
  {| kv_get := fun _ => Resolved VNull; kv_put := put |}.

(** ** Sample data *)

(** [{ k: v }] *)
Definition obj1 (k : string) (v : jsval) : jsval := VObj [(js k, v)].

(** A raw segment with string times and one run per text. *)
Definition sample_segment (startMs endMs : string) (runs : list string) : jsval :=
  obj1 "transcriptSegmentRenderer"
    (VObj [(js "startMs", VStr (js startMs));
           (js "endMs", VStr (js endMs));
           (js "snippet",
            obj1 "runs" (VArr (map (fun t => obj1 "text" (VStr (js t))) runs)))]).

(** A response with the given value at [initialSegments]. *)
Definition sample_response (initialSegments : jsval) : jsval :=
  obj1 "actions"
    (VArr [obj1 "updateEngagementPanelAction"
      (obj1 "content"
        (obj1 "transcriptRenderer"
          (obj1 "content"
            (obj1 "transcriptSearchPanelRenderer"
              (obj1 "body"
                (obj1 "transcriptSegmentListRenderer"
                  (obj1 "initialSegments" initialSegments)))))))]).

(** A segment whose two times are a 1 followed by 400 zeros. *)
Definition endless_segment : jsval :=
  obj1 "transcriptSegmentRenderer"
    (VObj [(js "startMs", VStr (49 :: repeat 48 400));
           (js "endMs", VStr (49 :: repeat 48 400));
           (js "snippet", obj1 "runs" (VArr [obj1 "text" (VStr (js "a"))]))]).

(** A segment whose start time is the object [{"toString": 0}]. *)
Definition opaque_segment : jsval :=
  obj1 "transcriptSegmentRenderer"
    (VObj [(js "startMs", obj1 "toString" (VNum (Finite 0)));
           (js "endMs", VStr (js "1"));
           (js "snippet", obj1 "runs" (VArr [obj1 "text" (VStr (js "a"))]))]).

(** A response of the transcript panel without segments. *)
Definition sample_no_transcript : jsval :=
  obj1 "actions"
    (VArr [obj1 "updateEngagementPanelAction"
             (obj1 "targetId"
                (VStr (js "engagement-panel-searchable-transcript")))]).

(** The request parameter for dQw4w9WgXcQ, asr, en. *)
Definition sample_params : jsstring :=
  js "CgtkUXc0dzlXZ1hjURIQQ2dOaGMzSVNBbVZ1R2dBPRgBKjNlbmdhZ2VtZW50LXBhbmVsLXNlYXJjaGFibGUtdHJhbnNjcmlwdC1zZWFyY2gtcGFuZWwwATgBQAE%3D".

(** A request for the transcript of a short link, with the defaults. *)
Definition sample_request : RequestBody :=
  {| body_videoUrl := Some (js "https://youtu.be/dQw4w9WgXcQ");
     body_videoId := None;
     body_language := None;
     body_kind := None |}.

(** A request for the manual French transcript of the same video. *)
Definition french_request : RequestBody :=
  {| body_videoUrl := None;
     body_videoId := Some (js "dQw4w9WgXcQ");
     body_language := Some (js "fr");
     body_kind := Some (js "standard") |}.

Definition fr_standard : LanguageOption :=
  {| language := js "fr"; languageCode := js "fr"; kind := js "standard" |}.

Definition en_asr : LanguageOption :=
  {| language := js "en"; languageCode := js "en"; kind := js "asr" |}.

(** A decimal text for the numbers of the examples, in which no number
    is read as a string. *)
Definition number_text : jsnum -> jsstring := fun _ => js "0".

(** An endpoint that answers every request with the same data. *)
Definition always (responseData : jsval) : jsstring -> jsstring -> outcome jsval :=
  fun _ _ => Returned responseData.

(** * Vocabulary of the properties *)

(** The delays [initialDelay * 2^attempt] of [k] successive failed
    attempts, the first of index [attempt]. *)
Fixpoint backoff (initialDelay : Z) (attempt k : nat) : list Z :=
  match k with
  | O => []
  | S k' =>
      (initialDelay * 2 ^ Z.of_nat attempt)%Z :: backoff initialDelay (S attempt) k'
  end.

(** The events of a run whose attempts from [attempt] on fail with the
    errors [es], one after the other, before a last invocation: each
    failed attempt is invoked, then warned about with the number of the
    attempt, the delay and the error, then slept after. *)
Definition trace (initialDelay : Z) (attempt : nat) (es : list js_error)
  : list retry_event :=
  flat_map (fun '(i, e) =>
              let delay := (initialDelay * 2 ^ Z.of_nat i)%Z in
              [Invoke i; Warn (S i) delay e; Sleep delay])
           (combine (seq attempt (List.length es)) es)
  ++ [Invoke (attempt + List.length es)].

(** An operation on a counter that fails twice and then returns 42. *)
Definition fails_twice (n : nat) : outcome nat * nat :=
  (if (n <? 2)%nat then Thrown (Error (js "down")) else Returned 42%nat, S n).

(** The name is exactly "English". *)
Definition is_English (x : jsstring) : bool := str_eqb x first.

(** The name contains "English". *)
Definition has_English (x : jsstring) : bool := includes x first.

Definition is_ascii (s : jsstring) : bool := forallb (fun c => c <? 128) s.

(** The escape of one character of an ASCII string. *)
Definition uri_escape (c : N) : jsstring :=
  if uri_unreserved c then [c] else percent c.

(** Percent-encoding of an ASCII string. *)
Definition percent_encode (s : jsstring) : jsstring := flat_map uri_escape s.

(** Every white-space character is a single U+0020, none follows
    another ([afterSpace] tells that one came just before). *)
Fixpoint single_spaced (afterSpace : bool) (t : jsstring) : bool :=
  match t with
  | [] => true
  | c :: t' =>
      if isWhiteSpace c
      then (c =? 32) && negb afterSpace && single_spaced true t'
      else single_spaced false t'
  end.

(** A non-empty white-space-normalized string: no white space at
    either end, single spaces inside. *)
Definition normalized (t : jsstring) : Prop :=
  t <> []
  /\ isWhiteSpace (hd 32 t) = false
  /\ isWhiteSpace (last t 32) = false
  /\ single_spaced false t = true.

(** A number that is not [NaN] and is at least 0 (as both zeros are). *)
Definition nonneg (x : jsnum) : Prop :=
  match x with
  | NaN => False
  | Infinity negative => negative = false
  | NegZero => True
  | Finite q => (0 <= q)%Q
  end.

(** The invariant of a segment, as the data model states it. *)
Definition segment_invariant (p : TranscriptSegment) : Prop :=
  nonneg (start p) /\ nonneg (duration p) /\ normalized (text p).

Definition renderer_of (segment : jsval) : jsval :=
  get "transcriptSegmentRenderer" segment.

Definition runs_of (segment : jsval) : jsval :=
  get "runs" (get "snippet" (renderer_of segment)).

(** The part [p] is read from the raw segment: its text is the
    normalized text of the runs, its times are made of the numbers that
    [parseInt] reads from the two fields of the segment, neither [NaN],
    the end not below the start. *)
Definition read_from (Number_toString : jsnum -> jsstring)
           (segment : jsval) (p : TranscriptSegment) : Prop :=
  exists (runs : list jsval) (startMs endMs : jsnum),
    iterate (runs_of segment) = Some runs
    /\ text p = normalize (List.concat (map run_text runs))
    /\ parseInt Number_toString (get "startMs" (renderer_of segment))
       = Returned startMs
    /\ parseInt Number_toString (get "endMs" (renderer_of segment))
       = Returned endMs
    /\ isNaN startMs = false /\ isNaN endMs = false
    /\ num_lt endMs startMs = false
    /\ start p = per_thousand startMs
    /\ duration p = per_thousand (num_sub endMs startMs)
    /\ (nonneg startMs -> nonneg (start p))
    /\ (duration p = NaN ->
        exists negative,
          startMs = Infinity negative /\ endMs = Infinity negative).

(** The invariant the parser establishes: the start is a number, the
    duration is never below 0, the text is normalized. *)
Definition segment_timed (p : TranscriptSegment) : Prop :=
  isNaN (start p) = false
  /\ (duration p = NaN \/ nonneg (duration p))
  /\ normalized (text p).

(** The raw segments that are left out, as the code has it: the
    conditions on the text suppose that the runs can be iterated, the
    condition on the times that both fields convert to a number, and
    the times are compared as the doubles that [parseInt] reads. *)
Inductive excluded (Number_toString : jsnum -> jsstring) (segment : jsval)
  : Prop :=
| missing_renderer :
    truthy (renderer_of segment) = false ->
    excluded Number_toString segment
| missing_startMs :
    get "startMs" (renderer_of segment) = VUndefined ->
    excluded Number_toString segment
| missing_endMs :
    get "endMs" (renderer_of segment) = VUndefined ->
    excluded Number_toString segment
| no_runs :
    truthy (runs_of segment) = false \/ runs_of segment = VArr [] ->
    excluded Number_toString segment
| empty_text (runs : list jsval) :
    iterate (runs_of segment) = Some runs ->
    normalize (List.concat (map run_text runs)) = [] ->
    excluded Number_toString segment
| end_before_start (runs : list jsval) (startMs endMs : jsnum) :
    iterate (runs_of segment) = Some runs ->
    parseInt Number_toString (get "startMs" (renderer_of segment))
    = Returned startMs ->
    parseInt Number_toString (get "endMs" (renderer_of segment))
    = Returned endMs ->
    num_lt endMs startMs = true ->
    excluded Number_toString segment.

(** The round of the loop pushes nothing and does not throw. *)
Definition skips (Number_toString : jsnum -> jsstring) (segment : jsval)
  : Prop :=
  segment_step_of Number_toString segment = Skipped
  \/ exists renderer,
       segment_step_of Number_toString segment = SkippedTiming renderer.

(** What a number is once written to JSON and read back: [null] for
    what JSON has no text for, [0] for [-0]. *)
Definition revived (x : jsnum) : jsval :=
  match x with
  | NaN | Infinity _ => VNull
  | NegZero => VNum (Finite 0)
  | Finite q => VNum (Finite q)
  end.

(** A result once written to JSON and read back. *)
Definition revived_result (r : TranscriptResult) : jsval :=
  VObj [(js "languageCode", VStr (languageCode (langOption r)));
        (js "kind", VStr (kind (langOption r)));
        (js "language", VStr (language (langOption r)));
        (js "transcript", VStr (transcript r));
        (js "parts",
         VArr (map (fun p =>
                      VObj [(js "start", revived (start p));
                            (js "duration", revived (duration p));
                            (js "text", VStr (text p))])
                   (parts r)))].

(** A number that JSON keeps as it is. *)
Definition kept (x : jsnum) : Prop := exists q, x = Finite q.

(** The texts of the parts of a result that is a value. *)
Definition texts_of (v : jsval) : list jsstring :=
  match get "parts" v with
  | VArr items =>
      map (fun item => match get "text" item with
                       | VStr t => t
                       | _ => []
                       end) items
  | _ => []
  end.

(** The first action of the response targets the transcript panel. *)
Definition transcript_panel_target (responseData : jsval) : Prop :=
  get "targetId"
      (get "updateEngagementPanelAction" (get0 (get "actions" responseData)))
  = VStr (js "engagement-panel-searchable-transcript").

(** A request that stops before the cache is read: both runs are the
    same, and the premises about a resolved identifier do not hold. *)
Ltac request_not_served :=
  split; [|split; [|split]]; try reflexivity;
  intros; congruence.

(** ** Vocabulary of the further properties *)

(** [s'] is what is left of [s] after some prefix. *)
Definition suffix (s' s : jsstring) : Prop := exists pre, s = pre ++ s'.

(** [c] occurs in [s] as a contiguous part. *)
Definition within (c s : jsstring) : Prop :=
  exists pre post, s = pre ++ c ++ post.

(** A well-formed video identifier: 11 characters of [A-Za-z0-9_-]. *)
Definition is_video_id (t : jsstring) : Prop :=
  List.length t = 11%nat /\ forallb id_char t = true.

(** The world after [n] successive calls of an operation. *)
Fixpoint world_after {W A : Type} (fn : W -> outcome A * W) (n : nat) (w : W)
  : W :=
  match n with
  | O => w
  | S n' => world_after fn n' (snd (fn w))
  end.

(** The time slept in all. *)
Definition total (delays : list Z) : Z := fold_right Z.add 0%Z delays.

(** The warnings written, in order. *)
Fixpoint warnings (evs : list retry_event) : list (nat * Z * js_error) :=
  match evs with
  | [] => []
  | Warn n d e :: evs' => (n, d, e) :: warnings evs'
  | _ :: evs' => warnings evs'
  end.

(** The warnings of [k] successive failed attempts with the errors [es],
    the first of index [attempt]. *)
Fixpoint warned (initialDelay : Z) (attempt : nat) (es : list js_error)
  : list (nat * Z * js_error) :=
  match es with
  | [] => []
  | e :: es' =>
      (S attempt, (initialDelay * 2 ^ Z.of_nat attempt)%Z, e)
        :: warned initialDelay (S attempt) es'
  end.

(** The characters of a token: letters, digits and the percent sign. *)
Definition token_char (c : N) : bool :=
  in_range 97 122 c || in_range 65 90 c || in_range 48 57 c || (c =? 37).

(** The length of the string fits the one code unit
    [String.fromCharCode(s.length)] as a byte. *)
Definition byte_length (s : jsstring) : bool :=
  (str_length s) mod 65536 <=? 255.

(** [`transcript:${videoId}:${language}:${kind}`] and
    [`languages:${videoId}`] *)
Definition transcript_key (videoId language kind : jsstring) : jsstring :=
  js "transcript:" ++ videoId ++ js ":" ++ language ++ js ":" ++ kind.

Definition languages_key (videoId : jsstring) : jsstring :=
  js "languages:" ++ videoId.

(** The answer to a request served from the cache. *)
Definition served_from_cache (a : reply) (cacheKey : jsstring) : served :=
  {| answer := a; console := [cache_hit_log cacheKey]; retries := [];
     waitUntil := None |}.

(** A response with one segment, and the result read from it. *)
Definition hello_response : jsval :=
  sample_response (VArr [sample_segment "0" "1500" ["Hello"%string]]).

Definition hello_result : TranscriptResult :=
  {| langOption := en_asr;
     transcript := js "Hello";
     parts := [{| start := Finite 0;
                  duration := Finite (3 # 2);
                  text := js "Hello" |}] |}.

(** A video page that is the same at every request. *)
Definition page_always (page : video_page)
  : jsstring -> unit -> video_page * unit :=
  fun _ w => (page, w).

Definition sample_tracks : list CaptionTrack :=
  [{| track_name := js "Spanish"; track_languageCode := js "es";
      track_kind := None |};
   {| track_name := js "English (United Kingdom)";
      track_languageCode := js "en-GB"; track_kind := None |};
   {| track_name := js "English"; track_languageCode := js "en";
      track_kind := None |};
   {| track_name := js "English (auto-generated)";
      track_languageCode := js "en"; track_kind := Some (js "asr") |}].

(** The message of runtime faults, for the examples. *)
Definition fault_message : engine_fault -> jsstring := fun _ => js "fault".

(** A store that holds nothing and takes every write. *)
Definition fresh_store : KVNamespace := empty_store (fun _ _ _ => None).

(** A store that holds one value under one key and takes every
    write. *)
Definition holding (cacheKey : jsstring) (cachedData : jsval) : KVNamespace :=
  {| kv_get := fun k => if str_eqb k cacheKey then Resolved cachedData
                        else Resolved VNull;
     kv_put := fun _ _ _ => None |}.

(** An error of the class [TranscriptError]. *)
Definition is_TranscriptError (e : js_error) : Prop :=
  exists m status, e = TranscriptError m status.

(** The string has no colon. *)
Definition colon_free (s : jsstring) : Prop :=
  forallb (fun x => negb (x =? 58)) s = true.

(** The place of a character in the base64 alphabet, 64 when it is not
    in it. *)
Fixpoint index_in (c : N) (alphabet : jsstring) : N :=
  match alphabet with
  | [] => 0
  | x :: rest => if x =? c then 0 else N.succ (index_in c rest)
  end.

Definition b64_index (c : N) : N := index_in c b64_alphabet.

(** The characters of a base64 text: the alphabet and the padding. *)
Definition b64_text (c : N) : bool := (b64_index c <? 64) || (c =? 61).

(** * Properties *)

(** ** Identifier resolution *)

Lemma bare_id_test (t : jsstring) :
  List.length t = 11%nat -> forallb id_char t = true ->
  regex_test bare_id_pattern t = true.
Proof.
  intros Hlen Hall.
  do 11 (destruct t as [|? t]; [discriminate|]).
  destruct t; [|discriminate].
  cbn [forallb] in Hall.
  repeat (apply andb_prop in Hall; destruct Hall as [? Hall]).
  unfold regex_test, regex_match, bare_id_pattern.
  cbn -[id_char].
  repeat match goal with
         | H : id_char _ = true |- _ => rewrite H; clear H
         end.
  reflexivity.
Qed.

(** C3. The resolver returns every 11-character token over
    [A-Za-z0-9_-] unchanged, returns dQw4w9WgXcQ for the watch, short,
    embed and shorts links that embed it, and returns null for
    "not a url". *)
Theorem extractVideoId_resolves :
  (forall t : jsstring,
      List.length t = 11%nat -> forallb id_char t = true ->
      extractVideoId t = Some t)
  /\ extractVideoId (js "https://www.youtube.com/watch?v=dQw4w9WgXcQ")
     = Some (js "dQw4w9WgXcQ")
  /\ extractVideoId (js "https://youtu.be/dQw4w9WgXcQ")
     = Some (js "dQw4w9WgXcQ")
  /\ extractVideoId (js "https://www.youtube.com/embed/dQw4w9WgXcQ")
     = Some (js "dQw4w9WgXcQ")
  /\ extractVideoId (js "https://www.youtube.com/shorts/dQw4w9WgXcQ")
     = Some (js "dQw4w9WgXcQ")
  /\ extractVideoId (js "not a url") = None.
Proof.
  split.
  - intros t Hlen Hall. unfold extractVideoId.
    rewrite (bare_id_test t Hlen Hall).
    destruct t; [discriminate | reflexivity].
  - repeat split; vm_compute; reflexivity.
Qed.

Lemma extractVideoId_resolves_witness :
  extractVideoId (js "dQw4w9WgXcQ") = Some (js "dQw4w9WgXcQ").
Proof.
  apply (proj1 extractVideoId_resolves); reflexivity.
Defined.

(** ** Retry with backoff *)

Section RetryFacts.

Context {W A : Type}.
Variable fn : W -> outcome A * W.
Variable initialDelay : Z.

Lemma retry_from_unfold (r attempt : nat) (w : W) :
  retry_from fn initialDelay r attempt w =
  match fn w with
  | (Returned a, w') => (Returned a, w', [Invoke attempt])
  | (Thrown e, w') =>
      match r with
      | O => (Thrown e, w', [Invoke attempt])
      | S r' =>
          let delay := (initialDelay * 2 ^ Z.of_nat attempt)%Z in
          let '(res, w'', evs) := retry_from fn initialDelay r' (S attempt) w' in
          (res, w'', Invoke attempt :: Warn (S attempt) delay e
                      :: Sleep delay :: evs)
      end
  end.
Proof. destruct r; reflexivity. Qed.

(** Never more than one invocation per allowed attempt. *)
Lemma retry_from_bounded (r attempt : nat) (w : W) :
  (invocations (snd (retry_from fn initialDelay r attempt w)) <= S r)%nat.
Proof.
  revert attempt w.
  induction r as [|r IH]; intros attempt w; rewrite retry_from_unfold.
  - destruct (fn w) as [[a|e] w']; cbn; lia.
  - destruct (fn w) as [[a|e] w']; cbn; [lia|].
    specialize (IH (S attempt) w').
    destruct (retry_from fn initialDelay r (S attempt) w') as [[res w''] evs].
    cbn in *. lia.
Qed.

Lemma trace_cons (attempt : nat) (e : js_error) (es : list js_error) :
  trace initialDelay attempt (e :: es)
  = Invoke attempt
      :: Warn (S attempt) (initialDelay * 2 ^ Z.of_nat attempt)%Z e
      :: Sleep (initialDelay * 2 ^ Z.of_nat attempt)%Z
      :: trace initialDelay (S attempt) es.
Proof.
  unfold trace. cbn [List.length seq combine flat_map app].
  now rewrite Nat.add_succ_r.
Qed.

Lemma trace_nil (attempt : nat) :
  trace initialDelay attempt [] = [Invoke attempt].
Proof. unfold trace. cbn. now rewrite Nat.add_0_r. Qed.

(** [k] failures, then a return: the value comes back after [k]
    sleeps, and the run ends with the invocation that returned. *)
Lemma retry_from_returns (k : nat) :
  forall (r attempt : nat) (w : W) (es : list js_error) (a : A),
    (k <= r)%nat -> List.length es = k ->
    first_outcomes fn (S k) w = map Thrown es ++ [Returned a] ->
    exists w' evs,
      retry_from fn initialDelay r attempt w = (Returned a, w', evs)
      /\ invocations evs = S k
      /\ sleeps evs = backoff initialDelay attempt k
      /\ last evs (Sleep 0) = Invoke (attempt + k)
      /\ evs = trace initialDelay attempt es.
Proof.
  induction k as [|k IH]; intros r attempt w es a Hk Hlen Hout.
  - destruct es; [|discriminate]. cbn in Hout.
    rewrite retry_from_unfold.
    destruct (fn w) as [res w1]. inversion Hout; subst.
    exists w1, [Invoke attempt]. rewrite Nat.add_0_r, trace_nil.
    repeat split.
  - destruct es as [|e es]; [discriminate|].
    destruct r as [|r]; [lia|].
    cbn [first_outcomes] in Hout.
    rewrite retry_from_unfold.
    destruct (fn w) as [res w1].
    cbn [map app] in Hout. inversion Hout; subst res.
    destruct (IH r (S attempt) w1 es a)
      as (w2 & evs & Hrun & Hinv & Hsl & Hlast & Htrace);
      [lia | cbn in Hlen; lia | assumption |].
    eexists; eexists; split; [cbv zeta; rewrite Hrun; reflexivity|].
    cbn [invocations sleeps backoff]. rewrite Hinv, Hsl, trace_cons, Htrace.
    repeat split.
    replace (attempt + S k)%nat with (S attempt + k)%nat by lia.
    rewrite <- Hlast, Htrace.
    unfold trace. destruct (flat_map _ _); reflexivity.
Qed.

(** Every allowed attempt fails: the last failure is raised again,
    after a sleep between attempts and none after the last. *)
Lemma retry_from_gives_up (r : nat) :
  forall (attempt : nat) (w : W) (es : list js_error),
    List.length es = S r ->
    first_outcomes fn (S r) w = map Thrown es ->
    exists w' evs,
      retry_from fn initialDelay r attempt w
      = (Thrown (last es (Error [])), w', evs)
      /\ invocations evs = S r
      /\ sleeps evs = backoff initialDelay attempt r
      /\ last evs (Sleep 0) = Invoke (attempt + r)
      /\ evs = trace initialDelay attempt (removelast es).
Proof.
  induction r as [|r IH]; intros attempt w es Hlen Hout.
  - destruct es as [|e [|]]; try discriminate. cbn in Hout.
    rewrite retry_from_unfold.
    destruct (fn w) as [res w1]. inversion Hout; subst.
    exists w1, [Invoke attempt]. rewrite Nat.add_0_r.
    cbn [removelast]. rewrite trace_nil. repeat split.
  - destruct es as [|e es]; [discriminate|].
    change (first_outcomes fn (S (S r)) w)
      with (let (x, w') := fn w in x :: first_outcomes fn (S r) w') in Hout.
    rewrite retry_from_unfold.
    destruct (fn w) as [res w1].
    cbn [map] in Hout. inversion Hout; subst res.
    destruct (IH (S attempt) w1 es)
      as (w2 & evs & Hrun & Hinv & Hsl & Hlast & Htrace);
      [cbn in Hlen; lia | assumption |].
    eexists; eexists; split.
    + cbv zeta. rewrite Hrun.
      destruct es as [|e' es']; [discriminate|].
      reflexivity.
    + cbn [invocations sleeps backoff]. rewrite Hinv, Hsl.
      replace (removelast (e :: es)) with (e :: removelast es)
        by (destruct es; [discriminate|reflexivity]).
      rewrite trace_cons, <- Htrace.
      repeat split.
      replace (attempt + S r)%nat with (S attempt + r)%nat by lia.
      rewrite <- Hlast.
      destruct evs; [discriminate|reflexivity].
Qed.

End RetryFacts.

(** C4. With the default parameters the executor invokes the operation
    at most 4 times; an operation that returns (whatever the value) on
    its attempt of index k, after k failures, has its value returned
    after exactly k sleeps, of [initialDelay * 2^i] for the failed
    attempts i, that is 1000, 2000, 4000 ms, the run ending with that
    invocation; and when all 4 attempts fail the last failure is raised
    again after the sleeps 1000, 2000, 4000, none following the last
    attempt.  In both cases the run is, in this order and with nothing
    else: for each failed attempt but a fourth, its invocation, the
    warning with the number of the attempt, the delay and the error,
    and the sleep; then the last invocation. *)
Theorem retryWithBackoff_default {W A : Type} (fn : W -> outcome A * W) (w : W) :
  (invocations (snd (retryWithBackoff fn MAX_RETRIES INITIAL_RETRY_DELAY w)) <= 4)%nat
  /\ (forall (k : nat) (es : list js_error) (a : A),
        (k <= 3)%nat -> List.length es = k ->
        first_outcomes fn (S k) w = map Thrown es ++ [Returned a] ->
        exists w' evs,
          retryWithBackoff fn MAX_RETRIES INITIAL_RETRY_DELAY w
          = (Returned a, w', evs)
          /\ invocations evs = S k
          /\ sleeps evs = backoff INITIAL_RETRY_DELAY 0 k
          /\ sleeps evs = firstn k [1000; 2000; 4000]%Z
          /\ last evs (Sleep 0) = Invoke k
          /\ evs = trace 1000 0 es)
  /\ (forall es : list js_error,
        List.length es = 4%nat ->
        first_outcomes fn 4 w = map Thrown es ->
        exists w' evs,
          retryWithBackoff fn MAX_RETRIES INITIAL_RETRY_DELAY w
          = (Thrown (last es (Error [])), w', evs)
          /\ invocations evs = 4%nat
          /\ sleeps evs = [1000; 2000; 4000]%Z
          /\ last evs (Sleep 0) = Invoke 3
          /\ evs = trace 1000 0 (removelast es)
          /\ forall e0 e1 e2 e3,
               es = [e0; e1; e2; e3] ->
               evs = [Invoke 0; Warn 1 1000 e0; Sleep 1000;
                      Invoke 1; Warn 2 2000 e1; Sleep 2000;
                      Invoke 2; Warn 3 4000 e2; Sleep 4000;
                      Invoke 3]).
Proof.
  unfold retryWithBackoff, MAX_RETRIES, INITIAL_RETRY_DELAY.
  split; [apply retry_from_bounded|split].
  - intros k es a Hk Hlen Hout.
    destruct (retry_from_returns fn 1000 k 3 0 w es a Hk Hlen Hout)
      as (w' & evs & Hrun & Hinv & Hsl & Hlast & Htrace).
    exists w', evs. repeat split; try assumption.
    rewrite Hsl.
    destruct k as [|[|[|[|k]]]]; try reflexivity; lia.
  - intros es Hlen Hout.
    destruct (retry_from_gives_up fn 1000 3 0 w es Hlen Hout)
      as (w' & evs & Hrun & Hinv & Hsl & Hlast & Htrace).
    exists w', evs. repeat split; try assumption.
    intros e0 e1 e2 e3 ->. exact Htrace.
Qed.

Lemma retryWithBackoff_default_witness :
  exists w' evs,
    retryWithBackoff fails_twice MAX_RETRIES INITIAL_RETRY_DELAY 0%nat
    = (Returned 42%nat, w', evs)
    /\ invocations evs = 3%nat
    /\ sleeps evs = backoff 1000 0 2
    /\ sleeps evs = [1000; 2000]%Z
    /\ last evs (Sleep 0) = Invoke 2
    /\ evs = [Invoke 0; Warn 1 1000 (Error (js "down")); Sleep 1000;
              Invoke 1; Warn 2 2000 (Error (js "down")); Sleep 2000;
              Invoke 2].
Proof.
  apply (proj1 (proj2 (retryWithBackoff_default fails_twice 0%nat))
           2%nat [Error (js "down"); Error (js "down")] 42%nat).
  - lia.
  - reflexivity.
  - reflexivity.
Defined.

(** The "no captions" result of discovery is handed back at once: one
    page request, no warning, no sleep. *)
Lemma getLangOptionsWithLink_no_captions {W : Type}
      (fetch_page : jsstring -> W -> video_page * W)
      (videoId : jsstring) (w w' : W) :
  fetch_page videoId w = (NoCaptionsMarker, w') ->
  getLangOptionsWithLink fetch_page videoId w = (Returned None, w', [Invoke 0]).
Proof.
  intros H. unfold getLangOptionsWithLink, retryWithBackoff.
  rewrite retry_from_unfold. unfold discover_once. now rewrite H.
Qed.

(** ** The two-pass sort of language names *)

Lemma str_eqb_eq (a b : jsstring) : str_eqb a b = true <-> a = b.
Proof.
  revert b. induction a as [|x a IH]; intros [|y b]; cbn; split;
    try discriminate; try reflexivity.
  - intros H. apply andb_prop in H. destruct H as [Hx Hab].
    apply N.eqb_eq in Hx. apply IH in Hab. congruence.
  - intros H. inversion H; subst. rewrite N.eqb_refl. cbn. now apply IH.
Qed.

Lemma str_eqb_refl (a : jsstring) : str_eqb a a = true.
Proof. now apply str_eqb_eq. Qed.

Lemma filter_Permutation {T : Type} (f : T -> bool) (l l' : list T) :
  Permutation l l' -> Permutation (filter f l) (filter f l').
Proof.
  induction 1 as [|x l l' _ IH|x y l|l l' l'' _ IH1 _ IH2]; cbn.
  - constructor.
  - destruct (f x); [now constructor | assumption].
  - destruct (f x), (f y); try apply Permutation_refl. apply perm_swap.
  - eapply Permutation_trans; eassumption.
Qed.

Lemma filter_split_Permutation {T : Type} (f : T -> bool) (l : list T) :
  Permutation (filter f l ++ filter (fun x => negb (f x)) l) l.
Proof.
  induction l as [|x l IH]; cbn; [constructor|].
  destruct (f x); cbn.
  - now constructor.
  - apply Permutation_sym, Permutation_cons_app, Permutation_sym, IH.
Qed.

Lemma all_equal_same {T : Type} (a : T) (l l' : list T) :
  Forall (eq a) l -> Forall (eq a) l' -> List.length l = List.length l' ->
  l = l'.
Proof.
  intros Hl. revert l'.
  induction Hl as [|x l Hx _ IH]; intros [|y l'] Hl' Hlen;
    try discriminate; [reflexivity|].
  inversion Hl'; subst. f_equal. apply IH; [assumption | now inversion Hlen].
Qed.

Section PredicateSort.

(** A comparator that, like the two of the source, puts [x] below
    anything exactly when [x] has the property [p]. *)
Context {T : Type}.
Variable comparefn : T -> T -> Z.
Variable p : T -> bool.
Hypothesis below_iff : forall x y, (comparefn x y <? 0)%Z = p x.

Lemma find_slot_front (fuel : nat) (pivot : T) (sorted : list T) (left : nat) :
  p pivot = true ->
  forall right, find_slot comparefn fuel pivot sorted left right = left.
Proof.
  intros Hp. induction fuel as [|fuel IH]; intros right; cbn [find_slot];
    [reflexivity|].
  rewrite below_iff, Hp. destruct (left <? right)%nat; [apply IH | reflexivity].
Qed.

Lemma find_slot_back (fuel : nat) (pivot : T) (sorted : list T) :
  p pivot = false ->
  forall left right,
    (left <= right)%nat -> (right - left <= fuel)%nat ->
    find_slot comparefn fuel pivot sorted left right = right.
Proof.
  intros Hp. induction fuel as [|fuel IH]; intros left right Hle Hfuel;
    cbn [find_slot].
  - lia.
  - rewrite below_iff, Hp.
    destruct (left <? right)%nat eqn:Hlt.
    + apply Nat.ltb_lt in Hlt.
      assert (Hd : (Nat.div2 (right - left) < right - left)%nat)
        by (apply Nat.lt_div2; lia).
      generalize dependent (Nat.div2 (right - left)). intros d Hd.
      apply IH; lia.
    + apply Nat.ltb_ge in Hlt. lia.
Qed.

Lemma insert_pivot_front (sorted : list T) (pivot : T) :
  p pivot = true -> insert_pivot comparefn sorted pivot = pivot :: sorted.
Proof.
  intros Hp. unfold insert_pivot.
  rewrite find_slot_front by assumption. reflexivity.
Qed.

Lemma insert_pivot_back (sorted : list T) (pivot : T) :
  p pivot = false -> insert_pivot comparefn sorted pivot = sorted ++ [pivot].
Proof.
  intros Hp. unfold insert_pivot.
  rewrite find_slot_back by (assumption || lia).
  now rewrite firstn_all, skipn_all.
Qed.

(** Elements with the property are moved to the front one after the
    other; the others stay behind, in their order. *)
Lemma binaryInsertionSort_shape (rest run : list T) :
  binaryInsertionSort comparefn run rest
  = rev (filter p rest) ++ run ++ filter (fun x => negb (p x)) rest.
Proof.
  unfold binaryInsertionSort. revert run.
  induction rest as [|x rest IH]; intros run; cbn.
  - now rewrite app_nil_r.
  - destruct (p x) eqn:Hp; cbn.
    + rewrite insert_pivot_front by assumption. rewrite IH.
      now rewrite <- app_assoc.
    + rewrite insert_pivot_back by assumption. rewrite IH.
      now rewrite <- app_assoc.
Qed.

Lemma extend_run_descending (previous : T) (rest run tail : list T) :
  extend_run comparefn true previous rest = (run, tail) ->
  rest = run ++ tail /\ forallb p run = true.
Proof.
  revert previous run tail.
  induction rest as [|x rest IH]; intros previous run tail; cbn.
  - intros H; inversion H; subst. now split.
  - rewrite Z.leb_antisym, below_iff.
    destruct (p x) eqn:Hp; cbn.
    + destruct (extend_run comparefn true x rest) as [run' tail'] eqn:E.
      intros H; inversion H; subst.
      destruct (IH _ _ _ E) as [-> Hall]. cbn. now rewrite Hp.
    + intros H; inversion H; subst. now split.
Qed.

Lemma extend_run_ascending (previous : T) (rest run tail : list T) :
  extend_run comparefn false previous rest = (run, tail) ->
  rest = run ++ tail /\ forallb (fun x => negb (p x)) run = true.
Proof.
  revert previous run tail.
  induction rest as [|x rest IH]; intros previous run tail; cbn.
  - intros H; inversion H; subst. now split.
  - rewrite below_iff.
    destruct (p x) eqn:Hp; cbn.
    + intros H; inversion H; subst. now split.
    + destruct (extend_run comparefn false x rest) as [run' tail'] eqn:E.
      intros H; inversion H; subst.
      destruct (IH _ _ _ E) as [-> Hall]. cbn. now rewrite Hp.
Qed.

Lemma filter_all (f : T -> bool) (l : list T) :
  forallb f l = true ->
  filter f l = l /\ filter (fun x => negb (f x)) l = [].
Proof.
  induction l as [|x l IH]; cbn; [now split|].
  intros H. apply andb_prop in H. destruct H as [Hx Hl].
  rewrite Hx. cbn. destruct (IH Hl) as [-> ->]. now split.
Qed.

Lemma filter_none (l : list T) :
  forallb (fun x => negb (p x)) l = true ->
  filter p l = [] /\ filter (fun x => negb (p x)) l = l.
Proof.
  induction l as [|x l IH]; cbn; [now split|].
  intros H. apply andb_prop in H. destruct H as [Hx Hl].
  destruct (p x); [discriminate|]. cbn.
  destruct (IH Hl) as [-> ->]. now split.
Qed.

(** What one [sort] call with such a comparator does: the elements
    with the property first, in some order, then the others in their
    original order. *)
Lemma array_sort_shape (a : list T) :
  exists front,
    array_sort comparefn a = front ++ filter (fun x => negb (p x)) a
    /\ Permutation front (filter p a).
Proof.
  unfold array_sort, countAndMakeRun.
  destruct a as [|a0 [|a1 rest]].
  - exists []. cbn. split; constructor.
  - exists (filter p [a0]). cbn. destruct (p a0); cbn; split;
      try reflexivity; apply Permutation_refl.
  - rewrite below_iff.
    destruct (p a1) eqn:Hp1.
    + destruct (extend_run comparefn true a1 rest) as [run tail] eqn:E.
      destruct (extend_run_descending _ _ _ _ E) as [-> Hall].
      destruct (filter_all p run Hall) as [Hin Hout].
      rewrite binaryInsertionSort_shape.
      cbn [filter]. rewrite Hp1. cbn [negb].
      rewrite !filter_app, Hin, Hout. cbn [app rev].
      destruct (p a0) eqn:Hp0; cbn [negb].
      * exists (rev (filter p tail) ++ (rev run ++ [a1]) ++ [a0]).
        split; [now rewrite <- !app_assoc|].
        rewrite Permutation_app_comm.
        change (a0 :: a1 :: run ++ filter p tail)
          with ([a0] ++ [a1] ++ run ++ filter p tail).
        rewrite <- !app_assoc.
        rewrite <- (Permutation_rev run), <- (Permutation_rev (filter p tail)).
        rewrite (Permutation_app_comm run ([a1] ++ [a0] ++ filter p tail)).
        cbn. rewrite perm_swap. do 2 constructor.
        apply Permutation_app_comm.
      * exists (rev (filter p tail) ++ rev run ++ [a1]).
        split; [now rewrite <- !app_assoc|].
        rewrite Permutation_app_comm.
        rewrite <- (Permutation_rev run), <- (Permutation_rev (filter p tail)).
        rewrite <- app_assoc.
        rewrite (Permutation_app_comm run ([a1] ++ filter p tail)).
        cbn. constructor. apply Permutation_app_comm.
    + destruct (extend_run comparefn false a1 rest) as [run tail] eqn:E.
      destruct (extend_run_ascending _ _ _ _ E) as [-> Hall].
      destruct (filter_none run Hall) as [Hin Hout].
      rewrite binaryInsertionSort_shape.
      cbn [filter]. rewrite Hp1. cbn [negb].
      rewrite !filter_app, Hin, Hout. cbn [app].
      destruct (p a0) eqn:Hp0; cbn [negb].
      * exists (rev (filter p tail) ++ [a0]).
        split; [now rewrite <- !app_assoc|].
        rewrite Permutation_app_comm. cbn. constructor.
        apply Permutation_sym, Permutation_rev.
      * exists (rev (filter p tail)).
        split; [reflexivity|].
        apply Permutation_sym, Permutation_rev.
Qed.

End PredicateSort.

Lemma compare_includes_below (x y : jsstring) :
  (compare_includes x y <? 0)%Z = has_English x.
Proof.
  unfold compare_includes, has_English.
  destruct (includes x first); [reflexivity|].
  destruct (includes y first); reflexivity.
Qed.

Lemma compare_equals_below (x y : jsstring) :
  (compare_equals x y <? 0)%Z = is_English x.
Proof.
  unfold compare_equals, is_English.
  destruct (str_eqb x first); [reflexivity|].
  destruct (str_eqb y first); reflexivity.
Qed.

Lemma is_English_has_English (x : jsstring) :
  is_English x = true -> has_English x = true.
Proof.
  unfold is_English. intros H. apply str_eqb_eq in H. subst x. reflexivity.
Qed.

Lemma filter_filter_english (l : list jsstring) :
  filter (fun x => negb (is_English x)) (filter (fun x => negb (has_English x)) l)
  = filter (fun x => negb (has_English x)) l.
Proof.
  induction l as [|x l IH]; cbn; [reflexivity|].
  destruct (has_English x) eqn:Hh; cbn; [assumption|].
  destruct (is_English x) eqn:Hi; cbn.
  - apply is_English_has_English in Hi. congruence.
  - now rewrite IH.
Qed.

Lemma filter_filter_other (l : list jsstring) :
  filter (fun x => negb (is_English x)) (filter has_English l)
  = filter (fun x => has_English x && negb (is_English x)) l.
Proof.
  induction l as [|x l IH]; cbn; [reflexivity|].
  destruct (has_English x); cbn; [|assumption].
  destruct (is_English x); cbn; now rewrite IH.
Qed.

Lemma filter_is_English_all (l : list jsstring) :
  Forall (eq first) (filter is_English l).
Proof.
  induction l as [|x l IH]; cbn; [constructor|].
  destruct (is_English x) eqn:Hi; [|assumption].
  constructor; [|assumption].
  symmetry. now apply str_eqb_eq.
Qed.

(** The net effect of the two sorts. *)
Lemma sort_names_shape (names : list jsstring) :
  exists others,
    sort_names names
    = filter is_English names ++ others
      ++ filter (fun x => negb (has_English x)) names
    /\ Permutation others
         (filter (fun x => has_English x && negb (is_English x)) names).
Proof.
  unfold sort_names.
  destruct (array_sort_shape compare_includes has_English
              compare_includes_below names) as (front1 & E1 & P1).
  destruct (array_sort_shape compare_equals is_English
              compare_equals_below (array_sort compare_includes names))
    as (front2 & E2 & P2).
  rewrite E2, E1.
  rewrite filter_app, filter_filter_english.
  exists (filter (fun x => negb (is_English x)) front1). split.
  - f_equal.
    apply (all_equal_same first).
    + eapply Permutation_Forall; [apply Permutation_sym, P2|].
      apply filter_is_English_all.
    + apply filter_is_English_all.
    + rewrite (Permutation_length P2).
      apply Permutation_length, filter_Permutation.
      rewrite E1.
      eapply Permutation_trans;
        [|apply (filter_split_Permutation has_English names)].
      now apply Permutation_app_tail.
  - rewrite <- filter_filter_other. now apply filter_Permutation.
Qed.

Lemma sort_names_Permutation (names : list jsstring) :
  Permutation (sort_names names) names.
Proof.
  unfold sort_names.
  assert (Hperm : forall (cmp : jsstring -> jsstring -> Z) p,
             (forall x y, (cmp x y <? 0)%Z = p x) ->
             forall l, Permutation (array_sort cmp l) l).
  { intros cmp p H l.
    destruct (array_sort_shape cmp p H l) as (front & E & P).
    rewrite E.
    eapply Permutation_trans; [|apply (filter_split_Permutation p l)].
    now apply Permutation_app_tail. }
  eapply Permutation_trans.
  - apply (Hperm _ _ compare_equals_below).
  - apply (Hperm _ _ compare_includes_below).
Qed.

Lemma option_for_found (captionTracks : list CaptionTrack) (langName : jsstring) :
  In langName (map track_name captionTracks) ->
  exists o, option_for captionTracks langName = Returned o
            /\ language o = langName.
Proof.
  intros Hin. unfold option_for.
  destruct (find (fun i => str_eqb (track_name i) langName) captionTracks)
    as [t|] eqn:Hfind.
  - eexists; split; reflexivity.
  - exfalso. apply in_map_iff in Hin. destruct Hin as (t & Ht & Hin).
    apply (find_none _ _ Hfind) in Hin. cbn in Hin.
    rewrite Ht, str_eqb_refl in Hin. discriminate.
Qed.

Lemma map_outcome_options (captionTracks : list CaptionTrack) (l : list jsstring) :
  (forall x, In x l -> In x (map track_name captionTracks)) ->
  exists options,
    map_outcome (option_for captionTracks) l = Returned options
    /\ map language options = l.
Proof.
  induction l as [|x l IH]; intros Hin; cbn.
  - exists []. now split.
  - destruct (option_for_found captionTracks x) as (o & Ho & Hlang);
      [apply Hin; now left|].
    destruct IH as (os & Hos & Hmap); [intros y Hy; apply Hin; now right|].
    rewrite Ho, Hos. cbn. exists (o :: os). split; [reflexivity|].
    cbn. now rewrite Hlang, Hmap.
Qed.

(** C5. Discovery returns one option per track, and their names read:
    every name that is exactly "English", then the other names that
    contain "English" (in some order), then the remaining names in their
    original order; for the names Spanish, English,
    English (auto-generated) that is exactly English,
    English (auto-generated), Spanish. *)
Theorem languageOptionsOf_english_first :
  (forall captionTracks : list CaptionTrack,
      let names := map track_name captionTracks in
      exists options others,
        languageOptionsOf captionTracks = Returned options
        /\ map language options
           = filter is_English names ++ others
             ++ filter (fun x => negb (has_English x)) names
        /\ Permutation others
             (filter (fun x => has_English x && negb (is_English x)) names))
  /\ sort_names [js "Spanish"; js "English"; js "English (auto-generated)"]
     = [js "English"; js "English (auto-generated)"; js "Spanish"].
Proof.
  split; [|vm_compute; reflexivity].
  intros captionTracks names.
  destruct (sort_names_shape names) as (others & E & P).
  destruct (map_outcome_options captionTracks (sort_names names))
    as (options & Hopt & Hmap).
  { intros x Hx. eapply Permutation_in; [apply sort_names_Permutation|exact Hx]. }
  exists options, others. unfold languageOptionsOf. fold names.
  rewrite Hopt, Hmap. repeat split; assumption.
Qed.

(** ** The request parameter *)

Lemma list_ind3 {T : Type} (P : list T -> Prop) :
  P [] -> (forall a, P [a]) -> (forall a b, P [a; b]) ->
  (forall a b c l, P l -> P (a :: b :: c :: l)) ->
  forall l, P l.
Proof.
  intros H0 H1 H2 H3 l.
  assert (H : forall n l, (List.length l <= n)%nat -> P l).
  { induction n as [|n IH]; intros [|a [|b [|c k]]] Hlen; cbn in Hlen;
      try lia; auto.
    apply H3, IH. lia. }
  apply (H (List.length l)). lia.
Qed.

Lemma b64_char_ascii (i : N) : (b64_char i <? 128) = true.
Proof.
  unfold b64_char.
  assert (H : forall l n, forallb (fun c => c <? 128) l = true ->
                          (nth n l 0 <? 128) = true).
  { induction l as [|x l IH]; intros [|n] Hl; cbn in *; try reflexivity.
    - apply andb_prop in Hl. tauto.
    - apply andb_prop in Hl. apply IH. tauto. }
  apply H. reflexivity.
Qed.

Lemma b64_groups_ascii (bs : list N) : is_ascii (b64_groups bs) = true.
Proof.
  unfold is_ascii.
  induction bs as [|a|a b|a b c l IH] using list_ind3;
    cbn [b64_groups forallb]; rewrite ?b64_char_ascii; try reflexivity.
  exact IH.
Qed.

Lemma b64_groups_length (bs : list N) :
  (3 * List.length (b64_groups bs) <= 4 * List.length bs + 8)%nat.
Proof.
  induction bs as [|a|a b|a b c l IH] using list_ind3; cbn [b64_groups List.length] in *; lia.
Qed.

Lemma is_ascii_binary (s : jsstring) : is_ascii s = true -> is_binary s = true.
Proof.
  unfold is_ascii, is_binary. induction s as [|c s IH]; cbn; [reflexivity|].
  intros H. apply andb_prop in H. destruct H as [Hc Hs].
  rewrite (IH Hs), andb_true_r.
  apply N.ltb_lt in Hc. apply N.leb_le. lia.
Qed.

Lemma encodeURIComponent_ascii (s : jsstring) :
  is_ascii s = true -> encodeURIComponent s = Some (percent_encode s).
Proof.
  unfold is_ascii. induction s as [|c s IH]; cbn [forallb]; [reflexivity|].
  intros H. apply andb_prop in H. destruct H as [Hc Hs].
  cbn [encodeURIComponent percent_encode flat_map]. rewrite (IH Hs).
  unfold uri_escape.
  destruct (uri_unreserved c); [reflexivity|].
  assert (Hlt : c < 128) by now apply N.ltb_lt.
  assert (Hlow : is_low_surrogate c = false).
  { unfold is_low_surrogate, in_range. apply andb_false_iff. left.
    apply N.leb_gt. lia. }
  assert (Hhigh : is_high_surrogate c = false).
  { unfold is_high_surrogate, in_range. apply andb_false_iff. left.
    apply N.leb_gt. lia. }
  rewrite Hlow, Hhigh. unfold escape_code_point, utf8. rewrite Hc.
  cbn [map List.concat option_map]. now rewrite app_nil_r.
Qed.

Lemma fromCharCode_length (v : jsstring) :
  (List.length v < 256)%nat ->
  fromCharCode (str_length v) = [str_length v]
  /\ (str_length v <=? 255) = true.
Proof.
  intros H. unfold fromCharCode, str_length. split.
  - rewrite N.mod_small; [reflexivity | lia].
  - apply N.leb_le. lia.
Qed.

Lemma is_binary_app (a b : jsstring) :
  is_binary (a ++ b) = is_binary a && is_binary b.
Proof. apply forallb_app. Qed.

Lemma tlv_binary (tag : N) (v : jsstring) :
  (tag <=? 255) = true -> (List.length v < 256)%nat -> is_binary v = true ->
  is_binary (tlv tag v) = true.
Proof.
  intros Ht Hlen Hv. unfold tlv, is_binary in *. cbn [forallb].
  destruct (fromCharCode_length v Hlen) as [_ ->].
  now rewrite Ht, Hv.
Qed.

Lemma inner_blob_tlv (source lang : jsstring) :
  (List.length source < 256)%nat -> (List.length lang < 256)%nat ->
  inner_blob source lang = tlv 10 source ++ tlv 18 lang ++ tlv 26 [].
Proof.
  intros Hs Hl. unfold inner_blob.
  destruct (fromCharCode_length source Hs) as [-> _].
  destruct (fromCharCode_length lang Hl) as [-> _].
  reflexivity.
Qed.

Lemma outer_blob_tlv (videoId innerB64 : jsstring) (lastFlag : bool) :
  (List.length videoId < 256)%nat -> (List.length innerB64 < 256)%nat ->
  outer_blob videoId innerB64 lastFlag
  = tlv 10 videoId ++ tlv 18 innerB64 ++ [24; 1] ++ tlv 42 panel
    ++ [48; 1; 56; 1; 64; if lastFlag then 1 else 0].
Proof.
  intros Hv Hi. unfold outer_blob.
  destruct (fromCharCode_length videoId Hv) as [-> _].
  destruct (fromCharCode_length innerB64 Hi) as [-> _].
  destruct lastFlag; unfold fromCharCode, tlv;
    rewrite !N.mod_small by (vm_compute; reflexivity);
    cbn [app]; rewrite <- ?app_assoc; reflexivity.
Qed.

(** C7, as the code has it.  For byte strings short enough for one
    length byte, the inner blob is the three length-delimited fields
    (kind, language code, an empty field), each a tag byte, a length
    byte equal to the length of the value, and the value; the outer blob
    carries the video identifier, the base64 of the inner blob and the
    panel name as such fields, and four one-byte flags under the tags
    0x18, 0x30, 0x38 (each 1) and 0x40 (1 or 0 as [lastFlag] says); the
    token is the base64 of the outer blob, percent-encoded. *)
Theorem buildTranscriptToken_layout
        (videoId source lang : jsstring) (lastFlag : bool) :
  is_binary videoId = true -> is_binary source = true ->
  is_binary lang = true ->
  (List.length videoId < 256)%nat ->
  (List.length source + List.length lang <= 183)%nat ->
  let inner := tlv 10 source ++ tlv 18 lang ++ tlv 26 [] in
  let innerB64 := b64_groups inner in
  let outer :=
    tlv 10 videoId ++ tlv 18 innerB64 ++ [24; 1] ++ tlv 42 panel
    ++ [48; 1; 56; 1; 64; if lastFlag then 1 else 0] in
  inner_blob source lang = inner
  /\ btoa inner = Returned innerB64
  /\ outer_blob videoId innerB64 lastFlag = outer
  /\ is_binary outer = true
  /\ btoa outer = Returned (b64_groups outer)
  /\ encodeURIComponent (b64_groups outer)
     = Some (percent_encode (b64_groups outer))
  /\ buildTranscriptToken videoId source lang lastFlag
     = Returned (percent_encode (b64_groups outer)).
Proof.
  intros Hv Hs Hl Hvlen Hlen inner innerB64 outer.
  assert (Hinner : inner_blob source lang = inner)
    by (apply inner_blob_tlv; lia).
  assert (Hbin : is_binary inner = true).
  { unfold inner. rewrite !is_binary_app.
    rewrite !tlv_binary; try reflexivity; try assumption; cbn; lia. }
  assert (Hb64len : (List.length innerB64 < 256)%nat).
  { pose proof (b64_groups_length inner) as H.
    unfold inner in H at 2. rewrite !length_app in H. cbn [tlv List.length] in H.
    fold innerB64 in H. lia. }
  assert (Houter : outer_blob videoId innerB64 lastFlag = outer)
    by (apply outer_blob_tlv; assumption).
  assert (Hobin : is_binary outer = true).
  { unfold outer. rewrite !is_binary_app.
    rewrite !tlv_binary;
      first [ assumption
            | apply is_ascii_binary, b64_groups_ascii
            | destruct lastFlag; reflexivity
            | vm_compute; lia ]. }
  assert (Hbtoa : btoa inner = Returned innerB64)
    by (unfold btoa; now rewrite Hbin).
  assert (Henc : encodeURIComponent (b64_groups outer)
                 = Some (percent_encode (b64_groups outer)))
    by apply encodeURIComponent_ascii, b64_groups_ascii.
  repeat split; try assumption.
  - unfold btoa. now rewrite Hobin.
  - unfold buildTranscriptToken. rewrite Hinner, Hbtoa. cbn [bind_outcome].
    rewrite Houter. unfold b64urlEncodeBinary, btoa. rewrite Hobin.
    cbn [bind_outcome]. now rewrite Henc.
Qed.

Lemma buildTranscriptToken_layout_witness :
  buildTranscriptToken (js "dQw4w9WgXcQ") (js "asr") (js "en") true
  = Returned (js "CgtkUXc0dzlXZ1hjURIQQ2dOaGMzSVNBbVZ1R2dBPRgBKjNlbmdhZ2VtZW50LXBhbmVsLXNlYXJjaGFibGUtdHJhbnNjcmlwdC1zZWFyY2gtcGFuZWwwATgBQAE%3D").
Proof.
  apply (buildTranscriptToken_layout
           (js "dQw4w9WgXcQ") (js "asr") (js "en") true);
    try reflexivity; cbn; lia.
Defined.

(** Outside these bounds the encoder does not return: a language code
    with a code unit above 255 makes [btoa] throw. *)
Lemma buildTranscriptToken_rejects_wide :
  buildTranscriptToken (js "dQw4w9WgXcQ") (js "asr") [26085; 26412] true
  = Thrown (EngineError InvalidCharacter).
Proof. reflexivity. Qed.

(** C7, as the specification words it, fails: the outer blob of the
    token for dQw4w9WgXcQ, asr, en is its three fields and eight more
    bytes (four flags with their tags), not two flags. *)
Lemma outer_blob_not_as_specified :
  let videoId := js "dQw4w9WgXcQ" in
  let innerB64 := b64_groups (inner_blob (js "asr") (js "en")) in
  outer_blob videoId innerB64 true
  = tlv 10 videoId ++ tlv 18 innerB64 ++ [24; 1] ++ tlv 42 panel
    ++ [48; 1; 56; 1; 64; 1]
  /\ ~ outer_as_specified (outer_blob videoId innerB64 true) videoId innerB64.
Proof.
  split; [reflexivity|].
  intros (flags & Hlen & Hperm).
  apply Permutation_length in Hperm.
  rewrite length_app in Hperm. vm_compute in Hperm.
  cbv in Hlen. lia.
Qed.

(** ** Normalized text *)

Lemma trimStart_head (s : jsstring) :
  trimStart s = [] \/ isWhiteSpace (hd 32 (trimStart s)) = false.
Proof.
  induction s as [|c s IH]; cbn; [now left|].
  destruct (isWhiteSpace c) eqn:Hc; [assumption|]. right. exact Hc.
Qed.

Lemma trimStart_keeps_last (l : jsstring) (c : N) :
  isWhiteSpace c = false -> exists m, trimStart (l ++ [c]) = m ++ [c].
Proof.
  intros Hc. induction l as [|x l IH]; cbn.
  - rewrite Hc. now exists [].
  - destruct (isWhiteSpace x); [assumption|]. now exists (x :: l).
Qed.

Lemma last_rev {T : Type} (l : list T) (d : T) : last (rev l) d = hd d l.
Proof.
  destruct l as [|x l]; cbn; [reflexivity|]. apply last_last.
Qed.

Lemma trim_ends (s : jsstring) :
  trim s = []
  \/ (isWhiteSpace (hd 32 (trim s)) = false
      /\ isWhiteSpace (last (trim s) 32) = false).
Proof.
  unfold trim, trimEnd.
  destruct (trimStart_head s) as [E|Hhd].
  - left. now rewrite E.
  - destruct (trimStart s) as [|c m]; [now left|]. cbn in Hhd.
    cbn [rev].
    destruct (trimStart_keeps_last (rev m) c Hhd) as (m' & E).
    right. split.
    + rewrite E, rev_app_distr. exact Hhd.
    + rewrite last_rev.
      destruct (trimStart_head (rev m ++ [c])) as [E'|H]; [|exact H].
      rewrite E in E'. now destruct m'.
Qed.

Lemma collapse_spaces_single (b : bool) (s : jsstring) :
  single_spaced b (collapse_spaces b s) = true.
Proof.
  revert b. induction s as [|c s IH]; intros b; cbn; [reflexivity|].
  destruct (isWhiteSpace c) eqn:Hc.
  - destruct b; [apply IH|]. cbn. apply IH.
  - cbn. rewrite Hc. apply IH.
Qed.

Lemma collapse_spaces_cons (b : bool) (c : N) (s : jsstring) :
  collapse_spaces b (c :: s)
  = if isWhiteSpace c
    then if b then collapse_spaces true s else 32 :: collapse_spaces true s
    else c :: collapse_spaces false s.
Proof. reflexivity. Qed.

Lemma collapse_spaces_last (s : jsstring) :
  s <> [] -> isWhiteSpace (last s 32) = false ->
  forall b, exists pre, collapse_spaces b s = pre ++ [last s 32].
Proof.
  induction s as [|c s IH]; intros Hne Hlast b; [contradiction|].
  destruct s as [|c' s].
  - cbn in *. rewrite Hlast. now exists [].
  - change (last (c :: c' :: s) 32) with (last (c' :: s) 32) in *.
    assert (Hne' : c' :: s <> []) by discriminate.
    rewrite collapse_spaces_cons.
    destruct (isWhiteSpace c).
    + destruct b.
      * apply (IH Hne' Hlast).
      * destruct (IH Hne' Hlast true) as (pre & E). rewrite E.
        now exists (32 :: pre).
    + destruct (IH Hne' Hlast false) as (pre & E). rewrite E.
      now exists (c :: pre).
Qed.

(** What [text.trim().replace(/\s+/g, ' ')] gives is empty or
    normalized. *)
Lemma normalize_normalized (s : jsstring) :
  normalize s <> [] -> normalized (normalize s).
Proof.
  unfold normalize. intros Hne.
  destruct (trim_ends s) as [E|[Hhd Hlast]].
  - rewrite E in Hne. now contradiction Hne.
  - destruct (trim s) as [|c m] eqn:E; [now contradiction Hne|].
    repeat split.
    + exact Hne.
    + cbn in Hhd. cbn. rewrite Hhd. exact Hhd.
    + destruct (collapse_spaces_last (c :: m)) with (b := false)
        as (pre & E'); [discriminate | exact Hlast |].
      rewrite E', last_last. exact Hlast.
    + apply collapse_spaces_single.
Qed.

(** ** Numbers *)

Lemma pow2_pos (e : Z) : (0 < pow2 e)%Q.
Proof. apply Qpower_0_lt. reflexivity. Qed.

Lemma round_half_even_nonneg (q : Q) :
  (0 <= q)%Q -> (0 <= round_half_even q)%Z.
Proof.
  intros H. unfold round_half_even.
  assert (Hf : (0 <= Qfloor q)%Z).
  { change 0%Z with (Qfloor 0). now apply Qfloor_resp_le. }
  destruct (_ ?= _)%Q; [destruct (Z.even _)|..]; lia.
Qed.

Lemma to_double_pos_nonneg (q : Q) :
  (0 < q)%Q -> nonneg (to_double_pos false q).
Proof.
  intros Hq. unfold to_double_pos.
  set (ulp := pow2 _).
  set (m := round_half_even _).
  assert (Hulp : (0 < ulp)%Q) by apply pow2_pos.
  assert (Hm : (0 <= m)%Z).
  { apply round_half_even_nonneg. apply Qle_shift_div_l; [exact Hulp|].
    rewrite Qmult_0_l. now apply Qlt_le_weak. }
  destruct (m =? 0)%Z; [apply Qle_refl|].
  destruct (Qle_bool _ _); [reflexivity|].
  cbn [nonneg]. rewrite Qred_correct.
  apply Qmult_le_0_compat; [|now apply Qlt_le_weak].
  change 0%Q with (inject_Z 0). now rewrite <- Zle_Qle.
Qed.

Lemma to_double_nonneg (q : Q) : (0 <= q)%Q -> nonneg (to_double q).
Proof.
  intros Hq. unfold to_double.
  destruct (q ?= 0)%Q eqn:E.
  - apply Qle_refl.
  - apply Qlt_alt in E. exfalso. exact (Qlt_not_le _ _ E Hq).
  - apply Qgt_alt in E. now apply to_double_pos_nonneg.
Qed.

Lemma to_double_not_NaN (q : Q) : to_double q <> NaN.
Proof.
  unfold to_double, to_double_pos.
  destruct (q ?= 0)%Q; cbv zeta;
    repeat match goal with
           | |- context [if ?c then _ else _] => destruct c
           end; discriminate.
Qed.

Lemma parseInt_string_not_below (s : jsstring) :
  parseInt_string s = NaN \/ isNaN (parseInt_string s) = false.
Proof. destruct (parseInt_string s); auto. Qed.

Lemma per_thousand_nonneg (x : jsnum) : nonneg x -> nonneg (per_thousand x).
Proof.
  destruct x as [|negative| |q]; cbn [per_thousand nonneg]; try tauto.
  intros Hq. apply to_double_nonneg.
  apply Qle_shift_div_l; [reflexivity|]. now rewrite Qmult_0_l.
Qed.

Lemma per_thousand_NaN (x : jsnum) : per_thousand x = NaN -> x = NaN.
Proof.
  destruct x as [|negative| |q]; cbn [per_thousand]; try discriminate;
    [reflexivity|].
  intros H. now apply to_double_not_NaN in H.
Qed.

(** The difference of two numbers, the second not above the first: it
    is not a number only between two equal infinities, and is not
    negative otherwise. *)
Lemma num_sub_not_below (endMs startMs : jsnum) :
  isNaN startMs = false -> isNaN endMs = false ->
  num_lt endMs startMs = false ->
  (num_sub endMs startMs = NaN
   /\ exists negative,
        startMs = Infinity negative /\ endMs = Infinity negative)
  \/ nonneg (num_sub endMs startMs).
Proof.
  intros Hs He Hlt.
  assert (Hfinite :
            (finite_value startMs <= finite_value endMs)%Q ->
            nonneg (if is_zero endMs && is_zero startMs
                    then match endMs, startMs with
                         | NegZero, Finite _ => NegZero
                         | _, _ => Finite 0
                         end
                    else to_double (finite_value endMs
                                    - finite_value startMs)%Q)).
  { intros Hle. destruct (is_zero endMs && is_zero startMs).
    - destruct endMs, startMs; cbn [nonneg]; try exact I; apply Qle_refl.
    - apply to_double_nonneg. unfold Qminus. rewrite <- Qle_minus_iff.
      exact Hle. }
  destruct endMs as [|se| |qe], startMs as [|ss| |qs]; try discriminate;
    cbn [num_lt num_sub nonneg] in *;
    try (right; apply Hfinite;
         apply Qle_bool_iff; now apply negb_false_iff in Hlt).
  - destruct se, ss; try discriminate; cbn [Bool.eqb];
      [left|right; reflexivity|left]; split; try reflexivity; eauto.
  - right. exact Hlt.
  - right. exact Hlt.
  - right. now destruct ss.
  - right. now destruct ss.
Qed.

(** ** Segments *)

Section SegmentFacts.

Variable Number_toString : jsnum -> jsstring.

Lemma segment_step_pushed (segment : jsval) (part : TranscriptSegment) :
  segment_step_of Number_toString segment = Pushed part ->
  read_from Number_toString segment part /\ segment_timed part.
Proof.
  unfold segment_step_of, read_from, runs_of, renderer_of.
  destruct (_ || _); [discriminate|].
  destruct (iterate _) as [runs|]; [|discriminate].
  destruct (normalize _) as [|c t] eqn:Htext; [discriminate|].
  destruct (parseInt _ (get "startMs" _)) as [startMs|e]; [|discriminate].
  destruct (parseInt _ (get "endMs" _)) as [endMs|e]; [|discriminate].
  destruct (isNaN startMs) eqn:Hs; [discriminate|].
  destruct (isNaN endMs) eqn:He; [discriminate|].
  destruct (num_lt endMs startMs) eqn:Hlt; [discriminate|].
  cbn [orb]. intros H. inversion H; subst part; clear H.
  cbn [start duration text].
  pose proof (num_sub_not_below endMs startMs Hs He Hlt) as Hsub.
  assert (Hnorm : normalized (c :: t)).
  { rewrite <- Htext. apply normalize_normalized. rewrite Htext. discriminate. }
  split.
  - exists runs, startMs, endMs. rewrite Htext.
    do 9 (split; [reflexivity || assumption|]).
    split; [apply per_thousand_nonneg|].
    intros Hd. apply per_thousand_NaN in Hd.
    destruct Hsub as [[_ Hinf]|Hn]; [exact Hinf|].
    rewrite Hd in Hn. contradiction.
  - repeat split; try apply Hnorm.
    + destruct startMs; try discriminate; cbn [per_thousand isNaN];
        try reflexivity.
      destruct (to_double (q / 1000)) eqn:E; try reflexivity.
      now apply to_double_not_NaN in E.
    + destruct Hsub as [[-> _]|Hn]; [now left|].
      right. now apply per_thousand_nonneg.
Qed.

Lemma collect_parts_Forall (segments : list jsval) :
  forall ps logs,
    collect_parts Number_toString segments = (Returned ps, logs) ->
    Forall (fun p =>
              exists segment,
                In segment segments
                /\ segment_step_of Number_toString segment = Pushed p) ps.
Proof.
  induction segments as [|segment rest IH]; intros ps logs; cbn [collect_parts].
  - intros H; inversion H. constructor.
  - assert (Hrest :
              forall ps',
                Forall (fun p =>
                          exists s, In s rest
                                    /\ segment_step_of Number_toString s
                                       = Pushed p) ps' ->
                Forall (fun p =>
                          exists s, In s (segment :: rest)
                                    /\ segment_step_of Number_toString s
                                       = Pushed p) ps').
    { intros ps'. apply Forall_impl. intros p (s & Hin & Hstep).
      exists s. split; [now right|exact Hstep]. }
    destruct (segment_step_of Number_toString segment)
      as [|renderer|part|e] eqn:Hstep.
    + intros H. eapply Hrest, IH, H.
    + destruct (collect_parts Number_toString rest) as [r logs'].
      intros H; inversion H; subst. eapply Hrest, IH. reflexivity.
    + destruct (collect_parts Number_toString rest) as [[ps'|e] logs']; cbn;
        intros H; inversion H; subst.
      constructor.
      * exists segment. split; [now left|exact Hstep].
      * eapply Hrest, IH. reflexivity.
    + discriminate.
Qed.

(** What a returned result is made of. *)
Lemma read_transcript_returned (lo : LanguageOption) (responseData : jsval)
      (r : TranscriptResult) (logs : list log_entry) :
  read_transcript Number_toString lo responseData = (Returned r, logs) ->
  exists segments,
    iterate (initialSegments_of responseData) = Some segments
    /\ collect_parts Number_toString segments = (Returned (parts r), logs)
    /\ parts r <> []
    /\ transcript r = trim (join (js " ") (map text (parts r)))
    /\ langOption r = lo.
Proof.
  unfold read_transcript.
  destruct (negb _).
  - destruct (is_transcript_panel _); discriminate.
  - destruct (iterate _) as [segments|]; [|discriminate].
    destruct (collect_parts Number_toString segments) as [[[|p ps]|e] logs'] eqn:Hc;
      try discriminate.
    intros H; inversion H; subst. cbn [parts transcript langOption].
    exists segments. repeat split; try assumption; discriminate.
Qed.

Lemma getTranscript_returned (clientVersion : jsstring)
      (post : jsstring -> jsstring -> outcome jsval)
      (videoId : jsstring) (lo : LanguageOption)
      (r : TranscriptResult) (logs : list log_entry) :
  getTranscript Number_toString clientVersion post videoId lo = (Returned r, logs) ->
  exists params responseData,
    request_params videoId lo = Returned params
    /\ post clientVersion params = Returned responseData
    /\ read_transcript Number_toString lo responseData = (Returned r, logs).
Proof.
  unfold getTranscript.
  destruct (request_params videoId lo) as [params|e]; [|discriminate].
  destruct (post clientVersion params) as [responseData|e] eqn:Hpost;
    [|discriminate].
  intros H. exists params, responseData. repeat split; assumption.
Qed.

(** Every part of a returned result is read from a segment of the
    response. *)
Lemma returned_parts_read (clientVersion : jsstring)
      (post : jsstring -> jsstring -> outcome jsval)
      (videoId : jsstring) (lo : LanguageOption)
      (r : TranscriptResult) (logs : list log_entry) :
  getTranscript Number_toString clientVersion post videoId lo = (Returned r, logs) ->
  exists params responseData segments,
    post clientVersion params = Returned responseData
    /\ iterate (initialSegments_of responseData) = Some segments
    /\ Forall (fun p =>
                 segment_timed p
                 /\ exists segment,
                      In segment segments
                      /\ read_from Number_toString segment p)
              (parts r).
Proof.
  intros H.
  destruct (getTranscript_returned _ _ _ _ _ _ H) as (params & data & _ & Hpost & Hr).
  destruct (read_transcript_returned _ _ _ _ Hr) as (segments & Hit & Hc & _).
  exists params, data, segments. split; [exact Hpost|]. split; [exact Hit|].
  eapply Forall_impl; [|exact (collect_parts_Forall _ _ _ Hc)].
  intros p (segment & Hin & Hstep).
  destruct (segment_step_pushed _ _ Hstep) as [Hread Htimed].
  split; [exact Htimed|]. now exists segment.
Qed.

Lemma returned_parts_timed (clientVersion : jsstring)
      (post : jsstring -> jsstring -> outcome jsval)
      (videoId : jsstring) (lo : LanguageOption)
      (r : TranscriptResult) (logs : list log_entry) :
  getTranscript Number_toString clientVersion post videoId lo = (Returned r, logs) ->
  Forall segment_timed (parts r).
Proof.
  intros H.
  destruct (returned_parts_read _ _ _ _ _ _ H)
    as (params & data & segments & _ & _ & Hall).
  eapply Forall_impl; [|exact Hall]. intros p [Hp _]. exact Hp.
Qed.

End SegmentFacts.

(** C6, as the code has it.  Every segment of a returned transcript is
    read from a segment of the response: start = startMs/1000 and
    duration = (endMs - startMs)/1000 in the arithmetic of doubles, for
    the numbers that parseInt reads from the two fields of that
    segment, neither NaN, endMs not below startMs.  So the start is a
    number, at least 0 whenever startMs is; the duration is never below
    0, and is NaN only when startMs and endMs are the same infinity; and
    the text is a non-empty white-space-normalized string. *)
Theorem getTranscript_segments_timed
        (Number_toString : jsnum -> jsstring) (clientVersion : jsstring)
        (post : jsstring -> jsstring -> outcome jsval)
        (videoId : jsstring) (lo : LanguageOption)
        (r : TranscriptResult) (logs : list log_entry) :
  getTranscript Number_toString clientVersion post videoId lo = (Returned r, logs) ->
  exists params responseData segments,
    post clientVersion params = Returned responseData
    /\ iterate (initialSegments_of responseData) = Some segments
    /\ Forall (fun p =>
                 segment_timed p
                 /\ exists segment,
                      In segment segments
                      /\ read_from Number_toString segment p)
              (parts r).
Proof. apply returned_parts_read. Qed.

Lemma getTranscript_segments_timed_witness :
  exists params responseData segments,
    always (sample_response
              (VArr [sample_segment "0" "1500" ["Hello"%string]]))
           (js "2.20240101.00.00") params
    = Returned responseData
    /\ iterate (initialSegments_of responseData) = Some segments
    /\ Forall (fun p =>
                 segment_timed p
                 /\ exists segment,
                      In segment segments
                      /\ read_from number_text segment p)
              [{| start := Finite 0; duration := Finite (3 # 2);
                  text := js "Hello" |}].
Proof.
  apply (getTranscript_segments_timed
           number_text (js "2.20240101.00.00")
           (always (sample_response
                      (VArr [sample_segment "0" "1500" ["Hello"%string]])))
           (js "dQw4w9WgXcQ") en_asr
           {| langOption := en_asr;
              transcript := js "Hello";
              parts := [{| start := Finite 0;
                           duration := Finite (3 # 2);
                           text := js "Hello" |}] |}
           []).
  vm_compute. reflexivity.
Defined.

(** C6, as the specification words it, fails: a segment whose startMs
    is "-1000" and endMs "500" is emitted with start -1. *)
Lemma segment_invariant_violated :
  let r := {| langOption := en_asr;
              transcript := js "a";
              parts := [{| start := Finite (-1);
                           duration := Finite (3 # 2);
                           text := js "a" |}] |} in
  getTranscript number_text (js "2.20240101.00.00")
    (always (sample_response
               (VArr [sample_segment "-1000" "500" ["a"%string]])))
    (js "dQw4w9WgXcQ") en_asr = (Returned r, [])
  /\ ~ Forall segment_invariant (parts r).
Proof.
  split; [vm_compute; reflexivity|].
  intros H. inversion H as [|p ps [Hstart _] _]. cbn in Hstart.
  unfold Qle in Hstart. cbn in Hstart. lia.
Qed.

(** Nor is the duration always a number: two times too long for a
    double are both read as Infinity, and their difference is NaN. *)
Lemma duration_not_a_number :
  let r := {| langOption := en_asr;
              transcript := js "a";
              parts := [{| start := Infinity false;
                           duration := NaN;
                           text := js "a" |}] |} in
  getTranscript number_text (js "2.20240101.00.00")
    (always (sample_response (VArr [endless_segment])))
    (js "dQw4w9WgXcQ") en_asr = (Returned r, [])
  /\ ~ Forall segment_invariant (parts r).
Proof.
  split; [vm_compute; reflexivity|].
  intros H. inversion H as [|p ps [Hstart [Hduration _]] _].
  exact Hduration.
Qed.

(** ** Normalized text stays as it is *)

Lemma trimStart_fixed (t : jsstring) :
  isWhiteSpace (hd 32 t) = false -> trimStart t = t.
Proof. destruct t as [|c t]; cbn; [reflexivity|]. now intros ->. Qed.

Lemma trim_fixed (t : jsstring) :
  isWhiteSpace (hd 32 t) = false -> isWhiteSpace (last t 32) = false ->
  trim t = t.
Proof.
  intros Hhd Hlast. unfold trim, trimEnd.
  rewrite (trimStart_fixed t Hhd).
  rewrite trimStart_fixed; [apply rev_involutive|].
  rewrite <- (rev_involutive t) in Hlast. now rewrite last_rev in Hlast.
Qed.

Lemma trimStart_padded (pre t : jsstring) :
  forallb isWhiteSpace pre = true -> trimStart (pre ++ t) = trimStart t.
Proof.
  induction pre as [|c pre IH]; cbn [forallb app trimStart]; [reflexivity|].
  intros H. apply andb_prop in H. destruct H as [-> H]. now apply IH.
Qed.

(** White space around a text that has none at its ends is what [trim]
    removes. *)
Lemma trim_padded (pre t post : jsstring) :
  forallb isWhiteSpace pre = true -> forallb isWhiteSpace post = true ->
  isWhiteSpace (hd 32 t) = false -> isWhiteSpace (last t 32) = false ->
  trim (pre ++ t ++ post) = t.
Proof.
  intros Hpre Hpost Hhd Hlast. unfold trim, trimEnd.
  rewrite (trimStart_padded pre _ Hpre).
  rewrite (trimStart_fixed (t ++ post)).
  2:{ destruct t; [discriminate Hhd|exact Hhd]. }
  rewrite rev_app_distr, trimStart_padded.
  2:{ apply forallb_forall. intros x Hx. apply in_rev in Hx.
      now apply (proj1 (forallb_forall _ _) Hpost). }
  rewrite trimStart_fixed; [apply rev_involutive|].
  rewrite <- (rev_involutive t) in Hlast. now rewrite last_rev in Hlast.
Qed.

Lemma collapse_spaces_fixed (t : jsstring) :
  forall b, single_spaced b t = true -> collapse_spaces b t = t.
Proof.
  induction t as [|c t IH]; intros b; [reflexivity|].
  rewrite collapse_spaces_cons. cbn [single_spaced].
  destruct (isWhiteSpace c).
  - intros H. apply andb_prop in H. destruct H as [H Ht].
    apply andb_prop in H. destruct H as [Hc Hb].
    apply N.eqb_eq in Hc. subst c. destruct b; [discriminate|].
    now rewrite (IH true Ht).
  - intros Ht. now rewrite (IH false Ht).
Qed.

Lemma normalize_fixed (t : jsstring) : normalized t -> normalize t = t.
Proof.
  intros (_ & Hhd & Hlast & Hsingle). unfold normalize.
  rewrite (trim_fixed t Hhd Hlast). now apply collapse_spaces_fixed.
Qed.

Lemma single_spaced_app (x r : jsstring) :
  x <> [] ->
  forall b,
    single_spaced b (x ++ r)
    = single_spaced b x && single_spaced (isWhiteSpace (last x 32)) r.
Proof.
  induction x as [|c x IH]; intros Hne b; [contradiction|].
  destruct x as [|c' x].
  - cbn [app single_spaced last].
    destruct (isWhiteSpace c); [|reflexivity].
    destruct (c =? 32), b; reflexivity.
  - change (last (c :: c' :: x) 32) with (last (c' :: x) 32).
    change ((c :: c' :: x) ++ r) with (c :: (c' :: x) ++ r).
    cbn [single_spaced].
    destruct (isWhiteSpace c).
    + rewrite (IH ltac:(discriminate) true).
      now rewrite !andb_assoc.
    + apply (IH ltac:(discriminate) false).
Qed.

Lemma last_app_cons {T : Type} (x : list T) (c : T) (r : list T) (d : T) :
  last (x ++ c :: r) d = last (c :: r) d.
Proof.
  induction x as [|a x IH]; [reflexivity|].
  change ((a :: x) ++ c :: r) with (a :: (x ++ c :: r)).
  destruct (x ++ c :: r) eqn:E; [now destruct x|]. exact IH.
Qed.

Lemma join_normalized (xs : list jsstring) :
  xs <> [] -> Forall normalized xs -> normalized (join (js " ") xs).
Proof.
  induction xs as [|x xs IH]; intros Hne Hall; [contradiction|].
  inversion Hall as [|? ? Hx Hxs]; subst.
  destruct xs as [|y ys]; [exact Hx|].
  specialize (IH ltac:(discriminate) Hxs).
  change (join (js " ") (x :: y :: ys))
    with (x ++ 32 :: join (js " ") (y :: ys)).
  destruct Hx as (Hxne & Hxhd & Hxlast & Hxs1).
  destruct IH as (Hjne & Hjhd & Hjlast & Hjs).
  destruct (join (js " ") (y :: ys)) as [|c j] eqn:Ej; [contradiction|].
  repeat split.
  - destruct x; discriminate.
  - destruct x; [contradiction|exact Hxhd].
  - rewrite last_app_cons.
    change (last (32 :: c :: j) 32) with (last (c :: j) 32). exact Hjlast.
  - rewrite (single_spaced_app x _ Hxne), Hxs1, Hxlast.
    cbn [hd] in Hjhd. cbn [single_spaced] in *.
    change (isWhiteSpace 32) with true. rewrite Hjhd in *. exact Hjs.
Qed.

Lemma returned_transcript_normalized
      (Number_toString : jsnum -> jsstring) (clientVersion : jsstring)
      (post : jsstring -> jsstring -> outcome jsval)
      (videoId : jsstring) (lo : LanguageOption)
      (r : TranscriptResult) (logs : list log_entry) :
  getTranscript Number_toString clientVersion post videoId lo = (Returned r, logs) ->
  transcript r = trim (join (js " ") (map text (parts r)))
  /\ transcript r = join (js " ") (map text (parts r))
  /\ normalized (transcript r).
Proof.
  intros H.
  pose proof (returned_parts_timed _ _ _ _ _ _ _ H) as Htimed.
  destruct (getTranscript_returned _ _ _ _ _ _ _ H) as (params & data & _ & _ & Hr).
  destruct (read_transcript_returned _ _ _ _ _ Hr) as (segments & _ & _ & Hne & Ht & _).
  assert (Hjoin : normalized (join (js " ") (map text (parts r)))).
  { apply join_normalized.
    - destruct (parts r); [contradiction|discriminate].
    - apply Forall_map. eapply Forall_impl; [|exact Htimed].
      intros p (_ & _ & Hp). exact Hp. }
  assert (Htrim : transcript r = join (js " ") (map text (parts r))).
  { rewrite Ht. destruct Hjoin as (_ & Hhd & Hlast & _).
    now apply trim_fixed. }
  split; [exact Ht|]. split; [exact Htrim|]. now rewrite Htrim.
Qed.

(** ** The transcript string and the cache round trip *)

Lemma segment_value_revived (p : TranscriptSegment) :
  JSON_parse
    match JSON_stringify (segment_value p) with
    | Some d => d
    | None => DNull
    end
  = VObj [(js "start", revived (start p));
          (js "duration", revived (duration p));
          (js "text", VStr (text p))].
Proof.
  unfold segment_value.
  destruct (start p) as [|ss| |qs], (duration p) as [|sd| |qd]; reflexivity.
Qed.

Lemma result_value_revived (r : TranscriptResult) :
  exists doc,
    JSON_stringify (result_value r) = Some doc
    /\ JSON_parse doc = revived_result r.
Proof.
  unfold result_value, revived_result.
  cbn [JSON_stringify flat_map fst snd app].
  eexists. split; [reflexivity|].
  cbn [JSON_parse map fst snd]. rewrite !map_map.
  now rewrite (map_ext _ _ segment_value_revived (parts r)).
Qed.

Lemma revived_kept (x : jsnum) : kept x -> revived x = VNum x.
Proof. intros [q ->]. reflexivity. Qed.

Lemma revived_result_kept (r : TranscriptResult) :
  Forall (fun p => kept (start p) /\ kept (duration p)) (parts r) ->
  revived_result r = result_value r.
Proof.
  intros Hall. unfold revived_result, result_value.
  rewrite (map_ext_in _ segment_value); [reflexivity|].
  intros p Hp. rewrite Forall_forall in Hall.
  destruct (Hall p Hp) as [Hs Hd]. unfold segment_value.
  now rewrite (revived_kept _ Hs), (revived_kept _ Hd).
Qed.

Lemma texts_of_revived (r : TranscriptResult) :
  texts_of (revived_result r) = map text (parts r).
Proof.
  unfold texts_of, revived_result.
  change (map text (parts r))
    with (map (fun p => text p) (parts r)).
  rewrite <- (map_map
                (fun p => VObj [(js "start", revived (start p));
                                (js "duration", revived (duration p));
                                (js "text", VStr (text p))])
                (fun item => match get "text" item with
                             | VStr t => t
                             | _ => []
                             end)).
  reflexivity.
Qed.

(** C1, as the code has it.  The transcript of every result the
    fetcher returns is the texts of its parts, in order, joined by
    single spaces and trimmed (the trim finding nothing to remove: the
    transcript is not empty and has no white space at either end, and
    it is what trimming leaves of itself put between any white
    space).  The result serialized to JSON and parsed back has the same language
    fields, the same transcript and the same texts, and the times of
    the parts where they are finite, with 0 for -0 and null for
    Infinity and NaN; so the equality holds of what the cache gives
    back, which is the result itself when all its times are finite and
    none is -0; and a store that returns the parsed text is answered
    from, with that value. *)
Theorem getTranscript_transcript_joined
        (Number_toString : jsnum -> jsstring) (clientVersion : jsstring)
        (post : jsstring -> jsstring -> outcome jsval)
        (videoId : jsstring) (lo : LanguageOption)
        (r : TranscriptResult) (logs : list log_entry) :
  getTranscript Number_toString clientVersion post videoId lo = (Returned r, logs) ->
  transcript r = trim (join (js " ") (map text (parts r)))
  /\ transcript r = join (js " ") (map text (parts r))
  /\ normalized (transcript r)
  /\ (forall before after,
        forallb isWhiteSpace before = true ->
        forallb isWhiteSpace after = true ->
        trim (before ++ join (js " ") (map text (parts r)) ++ after)
        = transcript r)
  /\ exists doc,
       JSON_stringify (result_value r) = Some doc
       /\ JSON_parse doc = revived_result r
       /\ texts_of (JSON_parse doc) = map text (parts r)
       /\ get "transcript" (JSON_parse doc)
          = VStr (trim (join (js " ") (texts_of (JSON_parse doc))))
       /\ (Forall (fun p => kept (start p) /\ kept (duration p)) (parts r) ->
           JSON_parse doc = result_value r)
       /\ forall kv cacheKey,
            kv_get kv cacheKey = Resolved (JSON_parse doc) ->
            check_cache kv cacheKey
            = ServeCached (revived_result r)
                [{| level := log_;
                    message := js "Cache hit for key: " ++ cacheKey;
                    detail := NoDetail |}].
Proof.
  intros H.
  destruct (returned_transcript_normalized _ _ _ _ _ _ _ H)
    as (Htrim & Hjoin & Hnorm).
  do 3 (split; [assumption|]).
  split.
  { intros before after Hpre Hpost. rewrite <- Hjoin.
    destruct Hnorm as (_ & Hhd & Hlast & _). now apply trim_padded. }
  destruct (result_value_revived r) as (doc & Hs & Hp).
  exists doc. rewrite Hp, texts_of_revived, <- Htrim.
  repeat split; try assumption.
  - intros Hkept. now apply revived_result_kept.
  - intros kv cacheKey Hget. unfold check_cache. now rewrite Hget.
Qed.

Lemma getTranscript_transcript_joined_witness :
  js "Hello world again"
  = trim (join (js " ") [js "Hello world"; js "again"]).
Proof.
  apply (getTranscript_transcript_joined
           number_text (js "2.20240101.00.00")
           (always (sample_response
                      (VArr [sample_segment "0" "1500" [" Hello  "; "world "]%string;
                             sample_segment "1500" "2000" ["again"%string]])))
           (js "dQw4w9WgXcQ") en_asr
           {| langOption := en_asr;
              transcript := js "Hello world again";
              parts := [{| start := Finite 0;
                           duration := Finite (3 # 2);
                           text := js "Hello world" |};
                        {| start := Finite (3 # 2);
                           duration := Finite (1 # 2);
                           text := js "again" |}] |}
           []).
  vm_compute. reflexivity.
Defined.

(** C1, as the specification words it, fails: the round trip does not
    always give an identical result.  Two times too long for a double
    are read as Infinity, the part has the start Infinity and the
    duration NaN, and both come back from JSON as null. *)
Lemma round_trip_not_identical :
  exists r logs doc,
    getTranscript number_text (js "2.20240101.00.00")
      (always (sample_response (VArr [endless_segment])))
      (js "dQw4w9WgXcQ") en_asr = (Returned r, logs)
    /\ parts r = [{| start := Infinity false; duration := NaN;
                     text := js "a" |}]
    /\ JSON_stringify (result_value r) = Some doc
    /\ get0 (get "parts" (JSON_parse doc))
       = VObj [(js "start", VNull); (js "duration", VNull);
               (js "text", VStr (js "a"))]
    /\ JSON_parse doc <> result_value r.
Proof.
  eexists. eexists. eexists.
  split; [vm_compute; reflexivity|].
  split; [reflexivity|].
  split; [vm_compute; reflexivity|].
  split; [vm_compute; reflexivity|].
  vm_compute. discriminate.
Qed.

(** ** Excluded segments *)

Section ExcludedFacts.

Variable Number_toString : jsnum -> jsstring.

Lemma excluded_skips (segment : jsval) :
  excluded Number_toString segment -> skips Number_toString segment.
Proof.
  unfold skips, segment_step_of.
  fold (renderer_of segment). fold (runs_of segment).
  intros [H|H|H|[H|H]|runs Hit Htext|runs startMs endMs Hit Hs He Hlt].
  - rewrite H. now left.
  - rewrite H. cbn [is_undefined]. rewrite orb_true_r. now left.
  - rewrite H. cbn [is_undefined]. rewrite !orb_true_r. now left.
  - rewrite H. cbn [negb]. rewrite !orb_true_r. now left.
  - rewrite H. destruct (_ || _); now left.
  - destruct (_ || _); [now left|]. rewrite Hit, Htext. now left.
  - destruct (_ || _); [now left|]. rewrite Hit.
    destruct (normalize _); [now left|].
    rewrite Hs, He, Hlt, !orb_true_r. right. eauto.
Qed.

Lemma collect_parts_fst_cons (segment : jsval) (rest : list jsval) :
  fst (collect_parts Number_toString (segment :: rest))
  = match segment_step_of Number_toString segment with
    | Failed e => Thrown e
    | Skipped | SkippedTiming _ => fst (collect_parts Number_toString rest)
    | Pushed part =>
        bind_outcome (fst (collect_parts Number_toString rest))
                     (fun ps => Returned (part :: ps))
    end.
Proof.
  cbn [collect_parts].
  destruct (segment_step_of Number_toString segment);
    destruct (collect_parts Number_toString rest); reflexivity.
Qed.

Lemma collect_parts_skip (before after : list jsval) (segment : jsval) :
  skips Number_toString segment ->
  fst (collect_parts Number_toString (before ++ segment :: after))
  = fst (collect_parts Number_toString (before ++ after)).
Proof.
  intros Hskip. induction before as [|x before IH]; cbn [app].
  - rewrite collect_parts_fst_cons.
    destruct Hskip as [->|(renderer & ->)]; reflexivity.
  - rewrite !collect_parts_fst_cons, IH. reflexivity.
Qed.

Lemma collect_parts_all_skipped (segments : list jsval) :
  Forall (excluded Number_toString) segments ->
  fst (collect_parts Number_toString segments) = Returned [].
Proof.
  induction 1 as [|segment rest Hex _ IH]; [reflexivity|].
  rewrite collect_parts_fst_cons.
  destruct (excluded_skips segment Hex) as [->|(renderer & ->)]; exact IH.
Qed.

End ExcludedFacts.

(** C2, as the code has it.  A raw segment without renderer, without
    start or end millisecond field, without text runs, with runs that
    give an empty text after trimming and collapsing white space, or
    with two time fields of which parseInt reads an end below the start
    (as doubles), pushes no part and does not make the operation fail:
    the outcome is the one of the list without it; and when the segment
    list is there and every segment is such, the operation fails with
    the empty-transcript error. *)
Theorem excluded_segments_skipped (Number_toString : jsnum -> jsstring) :
  (forall segment,
      excluded Number_toString segment -> skips Number_toString segment)
  /\ (forall before segment after,
         excluded Number_toString segment ->
         fst (collect_parts Number_toString (before ++ segment :: after))
         = fst (collect_parts Number_toString (before ++ after)))
  /\ (forall clientVersion post videoId lo params responseData segments,
         request_params videoId lo = Returned params ->
         post clientVersion params = Returned responseData ->
         initialSegments_of responseData = VArr segments ->
         Forall (excluded Number_toString) segments ->
         fst (getTranscript Number_toString clientVersion post videoId lo)
         = Thrown (empty_transcript (language lo))
         /\ empty_transcript (language lo)
            = TranscriptError
                (js "Transcript was found but contained no text segments for language '"
                 ++ language lo ++ js "'.") 404).
Proof.
  split; [apply excluded_skips|split].
  - intros before segment after Hex.
    now apply collect_parts_skip, excluded_skips.
  - intros clientVersion post videoId lo params responseData segments
           Hparams Hpost Hinit Hall.
    split; [|reflexivity].
    unfold getTranscript. rewrite Hparams, Hpost.
    unfold read_transcript. rewrite Hinit. cbn [truthy negb iterate].
    pose proof (collect_parts_all_skipped Number_toString segments Hall) as Hc.
    destruct (collect_parts Number_toString segments) as [res logs].
    cbn in Hc. subst res. reflexivity.
Qed.

Lemma excluded_segments_skipped_witness :
  fst (getTranscript number_text (js "2.20240101.00.00")
         (always (sample_response
                    (VArr [sample_segment "5000" "1000" ["late"%string];
                           sample_segment "0" "1000" ["  "%string];
                           VObj []])))
         (js "dQw4w9WgXcQ") en_asr)
  = Thrown (empty_transcript (js "en")).
Proof.
  apply (proj2 (proj2 (excluded_segments_skipped number_text))) with
    (params := sample_params)
    (responseData :=
       sample_response
         (VArr [sample_segment "5000" "1000" ["late"%string];
                sample_segment "0" "1000" ["  "%string];
                VObj []]))
    (segments := [sample_segment "5000" "1000" ["late"%string];
                  sample_segment "0" "1000" ["  "%string];
                  VObj []]);
    [vm_compute; reflexivity | reflexivity | reflexivity |].
  apply Forall_cons; [|apply Forall_cons; [|apply Forall_cons; [|apply Forall_nil]]].
  - apply end_before_start with (runs := [obj1 "text" (VStr (js "late"))])
                                (startMs := Finite 5000) (endMs := Finite 1000);
      vm_compute; reflexivity.
  - apply empty_text with (runs := [obj1 "text" (VStr (js "  "))]);
      reflexivity.
  - apply missing_renderer. reflexivity.
Defined.

(** C2, as the specification words it, fails.  A segment whose endMs,
    9007199254740992, is before its startMs, 9007199254740993, is not
    skipped: both are read as the same double, and the segment is
    pushed with the duration 0. *)
Lemma end_before_start_pushed :
  let segment :=
    sample_segment "9007199254740993" "9007199254740992" ["late"%string] in
  (exists startMs endMs : Z,
      read_digits 0 false (js "9007199254740993") = Some startMs
      /\ read_digits 0 false (js "9007199254740992") = Some endMs
      /\ (endMs < startMs)%Z)
  /\ ~ skips number_text segment
  /\ fst (getTranscript number_text (js "2.20240101.00.00")
            (always (sample_response (VArr [segment])))
            (js "dQw4w9WgXcQ") en_asr)
     = Returned {| langOption := en_asr;
                   transcript := js "late";
                   parts := [{| start := Finite (1152921504606847 # 128);
                                duration := Finite 0;
                                text := js "late" |}] |}.
Proof.
  split; [|split].
  - eexists. eexists. split; [vm_compute; reflexivity|].
    split; [vm_compute; reflexivity|]. reflexivity.
  - intros [H|(renderer & H)]; vm_compute in H; discriminate H.
  - vm_compute. reflexivity.
Qed.

(** Nor is a segment with the end before the start skipped when its
    runs cannot be iterated: the loop over them throws. *)
Lemma end_before_start_throws :
  segment_step_of number_text
    (obj1 "transcriptSegmentRenderer"
       (VObj [(js "startMs", VStr (js "5000"));
              (js "endMs", VStr (js "1000"));
              (js "snippet", obj1 "runs" (VNum (Finite 5)))]))
  = Failed (EngineError (NotIterable (js "renderer.snippet.runs"))).
Proof. vm_compute. reflexivity. Qed.

(** ** A response without segment list *)

Lemma is_transcript_panel_iff (responseData : jsval) :
  is_transcript_panel responseData = true
  <-> transcript_panel_target responseData.
Proof.
  unfold is_transcript_panel, transcript_panel_target. split.
  - intros H. apply andb_prop in H. destruct H as [_ H].
    destruct (get "targetId" _); try discriminate.
    apply str_eqb_eq in H. now subst.
  - intros H. rewrite H, str_eqb_refl, andb_true_r.
    destruct (get "actions" responseData)
      as [ | | [|] | [|negative| |q] | [|c s] | l | o ];
      try reflexivity; discriminate H.
Qed.

(** C8. When the response has no segment list, the fetcher fails with
    the no-transcript error (status 404) if the first action targets the
    transcript panel, and otherwise with the parse error (status 500)
    after a warning that carries the whole response as JSON. *)
Theorem getTranscript_without_segments
        (Number_toString : jsnum -> jsstring)
        (clientVersion : jsstring)
        (post : jsstring -> jsstring -> outcome jsval)
        (videoId : jsstring) (lo : LanguageOption)
        (params : jsstring) (responseData : jsval) :
  request_params videoId lo = Returned params ->
  post clientVersion params = Returned responseData ->
  truthy (initialSegments_of responseData) = false ->
  (transcript_panel_target responseData ->
   getTranscript Number_toString clientVersion post videoId lo
   = (Thrown (TranscriptError
                (js "No transcript found for this video in the specified language ('"
                 ++ language lo ++ js "').") 404), []))
  /\ (~ transcript_panel_target responseData ->
      getTranscript Number_toString clientVersion post videoId lo
      = (Thrown (TranscriptError
                   (js "Could not parse transcript data. The API structure might have changed.")
                   500),
         [{| level := warn_;
             message :=
               js "Transcript data structure not found or unexpectedly changed in response:";
             detail := Text (JSON_stringify responseData) |}])).
Proof.
  intros Hparams Hpost Hfalsy.
  unfold getTranscript. rewrite Hparams, Hpost.
  unfold read_transcript. rewrite Hfalsy. cbn [negb].
  split; intros H.
  - apply is_transcript_panel_iff in H. now rewrite H.
  - destruct (is_transcript_panel responseData) eqn:E; [|reflexivity].
    apply is_transcript_panel_iff in E. contradiction.
Qed.

Lemma getTranscript_without_segments_witness :
  getTranscript number_text (js "2.20240101.00.00")
                (always sample_no_transcript)
                (js "dQw4w9WgXcQ") en_asr
  = (Thrown (TranscriptError
               (js "No transcript found for this video in the specified language ('en').")
               404), []).
Proof.
  apply (getTranscript_without_segments
           number_text
           (js "2.20240101.00.00") (always sample_no_transcript)
           (js "dQw4w9WgXcQ") en_asr sample_params sample_no_transcript);
    [vm_compute; reflexivity | reflexivity | reflexivity | reflexivity].
Defined.

(** ** The cache read *)

Lemma check_cache_failing (kvError : js_error)
      (put : jsstring -> option jsondoc -> Z -> option js_error)
      (cacheKey : jsstring) :
  check_cache (failing_store kvError put) cacheKey
  = Proceed [kv_get_error_log cacheKey kvError].
Proof. reflexivity. Qed.

Lemma check_cache_empty
      (put : jsstring -> option jsondoc -> Z -> option js_error)
      (cacheKey : jsstring) :
  check_cache (empty_store put) cacheKey = Proceed [cache_miss_log cacheKey].
Proof. reflexivity. Qed.

(** C9. For both endpoints, a request served through a store whose
    read fails is answered exactly as through a store that holds
    nothing: same answer (which nowhere carries the cache error), same
    detached write, same retries; and once the identifier is resolved,
    the console starts with the cache error (an entry of level error,
    whose message names the key and whose detail is the caught error)
    instead of the miss line, continues identically, and the answer is
    the one computed by the underlying operation. *)
Theorem cache_read_failure_is_a_miss
        (engine_message : engine_fault -> jsstring)
        (Number_toString : jsnum -> jsstring)
        (kvError : js_error)
        (put : jsstring -> option jsondoc -> Z -> option js_error)
        (req_json : outcome RequestBody) :
  (forall (clientVersion : jsstring)
          (post : jsstring -> jsstring -> outcome jsval),
      let failed :=
        post_transcript engine_message Number_toString (Some (failing_store kvError put))
                        req_json clientVersion post in
      let missed :=
        post_transcript engine_message Number_toString (Some (empty_store put))
                        req_json clientVersion post in
      answer failed = answer missed
      /\ waitUntil failed = waitUntil missed
      /\ retries failed = retries missed
      /\ forall body c u videoId,
           req_json = Returned body ->
           or_else (body_videoUrl body) (body_videoId body) = Some (c :: u) ->
           extractVideoId (c :: u) = Some videoId ->
           let language := or_default (body_language body) (js "en") in
           let kind := or_default (body_kind body) (js "asr") in
           let cacheKey :=
             js "transcript:" ++ videoId ++ js ":" ++ language
             ++ js ":" ++ kind in
           hd_error (console failed)
           = Some {| level := error_;
                     message := js "KV get error for key " ++ cacheKey ++ js ":";
                     detail := Caught kvError |}
           /\ hd_error (console missed)
              = Some {| level := log_;
                        message := js "Cache miss for key: " ++ cacheKey;
                        detail := NoDetail |}
           /\ tl (console failed) = tl (console missed)
           /\ answer failed
              = match fst (getTranscript Number_toString clientVersion post videoId
                             {| language := language;
                                languageCode := language;
                                kind := kind |}) with
                | Returned r =>
                    Transcript videoId language (result_value r) miss
                | Thrown e => answer (caught engine_message [] [] e)
                end)
  /\ (forall (W : Type) (fetch_page : jsstring -> W -> video_page * W) (w : W),
         let failed :=
           post_languages engine_message (Some (failing_store kvError put))
                          req_json fetch_page w in
         let missed :=
           post_languages engine_message (Some (empty_store put))
                          req_json fetch_page w in
         answer failed = answer missed
         /\ waitUntil failed = waitUntil missed
         /\ retries failed = retries missed
         /\ forall body c u videoId,
              req_json = Returned body ->
              or_else (body_videoUrl body) (body_videoId body) = Some (c :: u) ->
              extractVideoId (c :: u) = Some videoId ->
              let cacheKey := js "languages:" ++ videoId in
              hd_error (console failed)
              = Some {| level := error_;
                        message := js "KV get error for key " ++ cacheKey ++ js ":";
                        detail := Caught kvError |}
              /\ hd_error (console missed)
                 = Some {| level := log_;
                           message := js "Cache miss for key: " ++ cacheKey;
                           detail := NoDetail |}
              /\ tl (console failed) = tl (console missed)
              /\ answer failed
                 = match fst (fst (getLangOptionsWithLink fetch_page videoId w)) with
                   | Returned languagesData =>
                       Languages videoId (languages_value languagesData) miss
                   | Thrown e => answer (caught engine_message [] [] e)
                   end).
Proof.
  split.
  - intros clientVersion post. cbv zeta. unfold post_transcript.
    destruct req_json as [body|e]; [|request_not_served].
    destruct (or_else (body_videoUrl body) (body_videoId body))
      as [[|c u]|] eqn:Hurl; try request_not_served.
    destruct (extractVideoId (c :: u)) as [videoId|] eqn:Hid;
      [|request_not_served].
    rewrite check_cache_failing, check_cache_empty.
    unfold DEFAULT_TRANSCRIPT_LANGUAGE, DEFAULT_TRANSCRIPT_KIND.
    destruct (getTranscript _ _ _ _) as [[r|e] logs] eqn:Hget;
      (split; [|split; [|split]]); try reflexivity;
      try (destruct e; reflexivity);
      intros b c' u' v Hb Hu Hv;
      inversion Hb; subst b; rewrite Hurl in Hu; inversion Hu; subst c' u';
      rewrite Hid in Hv; inversion Hv; subst v;
      rewrite Hget; repeat split; destruct e; reflexivity.
  - intros W fetch_page w. cbv zeta. unfold post_languages.
    destruct req_json as [body|e]; [|request_not_served].
    destruct (or_else (body_videoUrl body) (body_videoId body))
      as [[|c u]|] eqn:Hurl; try request_not_served.
    destruct (extractVideoId (c :: u)) as [videoId|] eqn:Hid;
      [|request_not_served].
    rewrite check_cache_failing, check_cache_empty.
    destruct (getLangOptionsWithLink _ _ _) as [[[l|e] w'] evs] eqn:Hget;
      (split; [|split; [|split]]); try reflexivity;
      try (destruct e; reflexivity);
      intros b c' u' v Hb Hu Hv;
      inversion Hb; subst b; rewrite Hurl in Hu; inversion Hu; subst c' u';
      rewrite Hid in Hv; inversion Hv; subst v;
      rewrite Hget; repeat split; destruct e; reflexivity.
Qed.

Lemma cache_read_failure_is_a_miss_witness :
  hd_error
    (console
       (post_transcript (fun _ => js "fault") number_text
          (Some (failing_store (Error (js "KV down")) (fun _ _ _ => None)))
          (Returned sample_request) (js "2.20240101.00.00")
          (always sample_no_transcript)))
  = Some {| level := error_;
            message := js "KV get error for key transcript:dQw4w9WgXcQ:en:asr:";
            detail := Caught (Error (js "KV down")) |}.
Proof.
  pose proof (proj1 (cache_read_failure_is_a_miss
                       (fun _ => js "fault") number_text
                       (Error (js "KV down"))
                       (fun _ _ _ => None) (Returned sample_request))
                (js "2.20240101.00.00") (always sample_no_transcript)) as H.
  cbv zeta in H. destruct H as (_ & _ & _ & H).
  apply (H sample_request 104 (js "ttps://youtu.be/dQw4w9WgXcQ")
           (js "dQw4w9WgXcQ"));
    [reflexivity | reflexivity | vm_compute; reflexivity].
Defined.

(** ** The language option of the transcript endpoint *)

Lemma getTranscript_echoes (Number_toString : jsnum -> jsstring)
      (clientVersion : jsstring)
      (post : jsstring -> jsstring -> outcome jsval)
      (videoId : jsstring) (lo : LanguageOption)
      (r : TranscriptResult) (logs : list log_entry) :
  getTranscript Number_toString clientVersion post videoId lo = (Returned r, logs) ->
  langOption r = lo.
Proof.
  intros H.
  destruct (getTranscript_returned _ _ _ _ _ _ _ H)
    as (params & data & _ & _ & Hr).
  now destruct (read_transcript_returned _ _ _ _ _ Hr)
    as (_ & _ & _ & _ & _ & E).
Qed.

(** C10. Whenever the transcript endpoint does not answer from the
    cache, the fetcher is called with a language option made from the
    request body alone: languageCode and language are both the
    requested language (the one of the body when it carries one that is
    not empty, "en" otherwise), kind the requested kind (the one of the
    body when it carries one that is not empty, "asr" otherwise),
    whatever they are; and a returned result carries these three fields
    unchanged into the answer. *)
Theorem post_transcript_language_option
        (engine_message : engine_fault -> jsstring)
        (Number_toString : jsnum -> jsstring)
        (kv : KVNamespace) (body : RequestBody)
        (c : N) (u videoId clientVersion : jsstring)
        (post : jsstring -> jsstring -> outcome jsval) :
  or_else (body_videoUrl body) (body_videoId body) = Some (c :: u) ->
  extractVideoId (c :: u) = Some videoId ->
  let language := or_default (body_language body) (js "en") in
  let kind := or_default (body_kind body) (js "asr") in
  let lo := {| language := language; languageCode := language; kind := kind |} in
  let cacheKey :=
    js "transcript:" ++ videoId ++ js ":" ++ language ++ js ":" ++ kind in
  (forall cachedData,
      kv_get kv cacheKey = Resolved cachedData -> truthy cachedData = false) ->
  let served :=
    post_transcript engine_message Number_toString (Some kv) (Returned body)
                    clientVersion post in
  answer served
  = match fst (getTranscript Number_toString clientVersion post videoId lo) with
    | Returned r => Transcript videoId language (result_value r) miss
    | Thrown e => answer (caught engine_message [] [] e)
    end
  /\ (body_language body = None -> language = js "en")
  /\ (body_kind body = None -> kind = js "asr")
  /\ (forall l, body_language body = Some l -> l <> [] -> language = l)
  /\ (body_language body = Some [] -> language = js "en")
  /\ (forall k, body_kind body = Some k -> k <> [] -> kind = k)
  /\ (body_kind body = Some [] -> kind = js "asr")
  /\ forall r logs,
       getTranscript Number_toString clientVersion post videoId lo = (Returned r, logs) ->
       langOption r = lo
       /\ get "languageCode" (result_value r) = VStr language
       /\ get "language" (result_value r) = VStr language
       /\ get "kind" (result_value r) = VStr kind
       /\ answer served = Transcript videoId language (result_value r) miss.
Proof.
  intros Hurl Hid language kind lo cacheKey Hmiss served.
  assert (Hanswer :
            answer served
            = match fst (getTranscript Number_toString clientVersion post videoId lo) with
              | Returned r => Transcript videoId language (result_value r) miss
              | Thrown e => answer (caught engine_message [] [] e)
              end).
  { unfold served, post_transcript. rewrite Hurl, Hid.
    fold language kind cacheKey lo.
    unfold DEFAULT_TRANSCRIPT_LANGUAGE, DEFAULT_TRANSCRIPT_KIND.
    fold language kind. fold cacheKey. fold lo.
    unfold check_cache.
    destruct (kv_get kv cacheKey) as [cachedData|kvError] eqn:Hget.
    - rewrite (Hmiss cachedData eq_refl).
      destruct (getTranscript Number_toString clientVersion post videoId lo) as [[r|e] logs];
        [reflexivity | destruct e; reflexivity].
    - destruct (getTranscript Number_toString clientVersion post videoId lo) as [[r|e] logs];
        [reflexivity | destruct e; reflexivity]. }
  split; [exact Hanswer|].
  split; [intros E; unfold language; now rewrite E|].
  split; [intros E; unfold kind; now rewrite E|].
  split; [intros l E Hl; unfold language; rewrite E;
          destruct l; [contradiction|reflexivity]|].
  split; [intros E; unfold language; now rewrite E|].
  split; [intros k E Hk; unfold kind; rewrite E;
          destruct k; [contradiction|reflexivity]|].
  split; [intros E; unfold kind; now rewrite E|].
  intros r logs Hr.
  pose proof (getTranscript_echoes _ _ _ _ _ _ _ Hr) as Hecho.
  rewrite Hanswer, Hr. cbn [fst]. unfold result_value. rewrite Hecho.
  repeat split.
Qed.

Lemma post_transcript_language_option_witness :
  answer
    (post_transcript (fun _ => js "fault") number_text
       (Some (empty_store (fun _ _ _ => None)))
       (Returned french_request) (js "2.20240101.00.00")
       (always (sample_response
                  (VArr [sample_segment "0" "1500" ["Bonjour"%string]]))))
  = Transcript (js "dQw4w9WgXcQ") (js "fr")
      (result_value
         {| langOption := fr_standard;
            transcript := js "Bonjour";
            parts := [{| start := Finite 0;
                         duration := Finite (3 # 2);
                         text := js "Bonjour" |}] |})
      miss.
Proof.
  pose proof (post_transcript_language_option
                (fun _ => js "fault") number_text
                (empty_store (fun _ _ _ => None))
                french_request 100 (js "Qw4w9WgXcQ")
                (js "dQw4w9WgXcQ") (js "2.20240101.00.00")
                (always (sample_response
                           (VArr [sample_segment "0" "1500" ["Bonjour"%string]])))
                eq_refl) as H.
  cbv zeta in H.
  destruct H as (_ & _ & _ & _ & _ & _ & _ & H).
  - vm_compute. reflexivity.
  - intros cachedData E. inversion E. reflexivity.
  - apply (H {| langOption := fr_standard;
                transcript := js "Bonjour";
                parts := [{| start := Finite 0;
                             duration := Finite (3 # 2);
                             text := js "Bonjour" |}] |} []).
    vm_compute. reflexivity.
Defined.

(** * Further properties *)

(** ** The matcher *)

Lemma suffix_refl (s : jsstring) : suffix s s.
Proof. now exists []. Qed.

Lemma suffix_trans (a b c : jsstring) : suffix a b -> suffix b c -> suffix a c.
Proof.
  intros [p ->] [q ->]. exists (q ++ p). now rewrite app_assoc.
Qed.

Lemma suffix_cons (x : N) (s : jsstring) : suffix s (x :: s).
Proof. now exists [x]. Qed.

Lemma within_suffix (c s1 s : jsstring) : within c s1 -> suffix s1 s -> within c s.
Proof.
  intros (pre & post & ->) [q ->]. exists (q ++ pre), post.
  now rewrite <- app_assoc.
Qed.

Lemma firstn_consumed {T : Type} (pre s' : list T) :
  firstn (List.length (pre ++ s') - List.length s') (pre ++ s') = pre.
Proof.
  rewrite length_app, Nat.add_sub.
  rewrite firstn_app, Nat.sub_diag, firstn_all. cbn. now rewrite app_nil_r.
Qed.

(** Whatever a match returns, it is its continuation that returned it,
    called on a rest of the input, with the capture it was given or
    with a part of the input. *)
Lemma rmatch_continues {A : Type} (r : regex) :
  forall (b : bool) (s : jsstring) (cap : option jsstring)
         (k : bool -> jsstring -> option jsstring -> option A) (a : A),
    rmatch r b s cap k = Some a ->
    exists b' s' cap',
      k b' s' cap' = Some a
      /\ suffix s' s
      /\ (cap' = cap \/ exists c, cap' = Some c /\ within c s).
Proof.
  induction r as [c|p| | |r1 IH1 r2 IH2|r1 IH1 r2 IH2|r1 IH1|p|p|n p|r1 IH1];
    intros b s cap k a H; cbn [rmatch] in H.
  - destruct s as [|x s]; [discriminate|].
    destruct (x =? c); [|discriminate].
    exists false, s, cap. repeat split; [assumption|apply suffix_cons|now left].
  - destruct s as [|x s]; [discriminate|].
    destruct (p x); [|discriminate].
    exists false, s, cap. repeat split; [assumption|apply suffix_cons|now left].
  - destruct b; [|discriminate].
    exists true, s, cap. repeat split; [assumption|apply suffix_refl|now left].
  - destruct s; [|discriminate].
    exists b, [], cap. repeat split; [assumption|apply suffix_refl|now left].
  - apply IH1 in H. destruct H as (b1 & s1 & c1 & H & Hs1 & Hc1).
    apply IH2 in H. destruct H as (b2 & s2 & c2 & H & Hs2 & Hc2).
    exists b2, s2, c2. repeat split; [assumption|eapply suffix_trans; eassumption|].
    destruct Hc2 as [->|(c & -> & Hc)].
    + exact Hc1.
    + right. exists c. split; [reflexivity|]. eapply within_suffix; eassumption.
  - destruct (rmatch r1 b s cap k) as [a'|] eqn:E.
    + inversion H; subst a'. now apply IH1 in E.
    + now apply IH2 in H.
  - destruct (rmatch r1 b s cap k) as [a'|] eqn:E.
    + inversion H; subst a'. now apply IH1 in E.
    + exists b, s, cap. repeat split; [assumption|apply suffix_refl|now left].
  - assert (Hin : exists s', k false s' cap = Some a /\ suffix s' s).
    { induction s as [|x s IHs]; [discriminate|].
      destruct (p x); [|discriminate].
      match type of H with
      | match ?m with _ => _ end = _ => destruct m as [a'|] eqn:E
      end.
      - inversion H; subst a'. destruct (IHs eq_refl) as (s' & Hk & Hs).
        exists s'. split; [assumption|].
        eapply suffix_trans; [eassumption|apply suffix_cons].
      - exists s. split; [assumption|apply suffix_cons]. }
    destruct Hin as (s' & Hk & Hs).
    exists false, s', cap. repeat split; [assumption|assumption|now left].
  - assert (Hin : exists b' s', k b' s' cap = Some a /\ suffix s' s).
    { revert b H. induction s as [|x s IHs]; intros b H.
      - destruct (k b [] cap) as [a'|] eqn:E; [|discriminate].
        inversion H; subst a'. exists b, []. split; [assumption|apply suffix_refl].
      - destruct (k b (x :: s) cap) as [a'|] eqn:E.
        + inversion H; subst a'. exists b, (x :: s).
          split; [assumption|apply suffix_refl].
        + destruct (p x); [|discriminate].
          destruct (IHs false H) as (b' & s' & Hk & Hs).
          exists b', s'. split; [assumption|].
          eapply suffix_trans; [eassumption|apply suffix_cons]. }
    destruct Hin as (b' & s' & Hk & Hs).
    exists b', s', cap. repeat split; [assumption|assumption|now left].
  - assert (Hin : exists b' s', k b' s' cap = Some a /\ suffix s' s).
    { revert b s H. induction n as [|n IHn]; intros b s H.
      - exists b, s. split; [assumption|apply suffix_refl].
      - destruct s as [|x s]; [discriminate|].
        destruct (p x); [|discriminate].
        destruct (IHn false s H) as (b' & s' & Hk & Hs).
        exists b', s'. split; [assumption|].
        eapply suffix_trans; [eassumption|apply suffix_cons]. }
    destruct Hin as (b' & s' & Hk & Hs).
    exists b', s', cap. repeat split; [assumption|assumption|now left].
  - apply IH1 in H. destruct H as (b' & s' & c' & H & Hs & _).
    destruct Hs as [pre ->].
    rewrite firstn_consumed in H.
    exists b', s', (Some pre). repeat split; [assumption|now exists pre|].
    right. exists pre. split; [reflexivity|]. exists [], s'. reflexivity.
Qed.

(** A counted class takes exactly that many characters of the class. *)
Lemma rmatch_times {A : Type} (n : nat) (p : N -> bool) :
  forall (b : bool) (s : jsstring) (cap : option jsstring)
         (k : bool -> jsstring -> option jsstring -> option A) (a : A),
    rmatch (Times n p) b s cap k = Some a ->
    exists pre s' b',
      s = pre ++ s' /\ List.length pre = n /\ forallb p pre = true
      /\ k b' s' cap = Some a.
Proof.
  intros b s cap k a. cbn [rmatch]. revert b s.
  induction n as [|n IHn]; intros b s H.
  - exists [], s, b. repeat split. assumption.
  - destruct s as [|x s]; [discriminate|].
    destruct (p x) eqn:Hp; [|discriminate].
    destruct (IHn false s H) as (pre & s' & b' & -> & Hlen & Hall & Hk).
    exists (x :: pre), s', b'. cbn. rewrite Hp, Hall, Hlen. repeat split.
    assumption.
Qed.

Lemma rmatch_group_times {A : Type} (n : nat) (p : N -> bool) :
  forall (b : bool) (s : jsstring) (cap : option jsstring)
         (k : bool -> jsstring -> option jsstring -> option A) (a : A),
    rmatch (Group (Times n p)) b s cap k = Some a ->
    exists pre s' b',
      s = pre ++ s' /\ List.length pre = n /\ forallb p pre = true
      /\ k b' s' (Some pre) = Some a.
Proof.
  intros b s cap k a H.
  change (rmatch (Times n p) b s cap
            (fun b0 s' _ =>
               k b0 s' (Some (firstn (List.length s - List.length s') s)))
          = Some a) in H.
  apply rmatch_times in H.
  destruct H as (pre & s' & b' & -> & Hlen & Hall & Hk).
  rewrite firstn_consumed in Hk.
  exists pre, s', b'. repeat split; assumption.
Qed.

(** A search succeeds at the start of the input, or further on where
    the position is no longer the start. *)
Lemma exec_from_found (r : regex) :
  forall (s : jsstring) (b : bool) (cap : option jsstring),
    exec_from r b s = Some cap ->
    exists b0 s0,
      rmatch r b0 s0 None (fun _ _ c => Some c) = Some cap
      /\ suffix s0 s
      /\ ((b0 = b /\ s0 = s) \/ b0 = false).
Proof.
  induction s as [|x s IH]; intros b cap H; cbn [exec_from] in H.
  - destruct (rmatch r b [] None _) as [c|] eqn:E; [|discriminate].
    inversion H; subst c. exists b, []. repeat split; [assumption|apply suffix_refl|].
    now left.
  - destruct (rmatch r b (x :: s) None _) as [c|] eqn:E.
    + inversion H; subst c. exists b, (x :: s).
      repeat split; [assumption|apply suffix_refl|now left].
    + destruct (IH false cap H) as (b0 & s0 & Hm & Hs & Hb).
      exists b0, s0. repeat split; [assumption| |].
      * eapply suffix_trans; [eassumption|apply suffix_cons].
      * right. destruct Hb as [[-> _]| ->]; reflexivity.
Qed.

(** ** Resolved identifiers *)

(** What a pattern ending in the capture of an identifier captures. *)
Lemma captured_id (r : regex) (url : jsstring) (cap : option jsstring) :
  regex_match (Seq r (Group (Times 11 id_char))) url = Some cap ->
  exists id, cap = Some id /\ is_video_id id /\ within id url.
Proof.
  unfold regex_match. intros H.
  apply exec_from_found in H. destruct H as (b0 & s0 & H & Hs0 & _).
  change (rmatch r b0 s0 None
            (fun b s' c =>
               rmatch (Group (Times 11 id_char)) b s' c (fun _ _ c0 => Some c0))
          = Some cap) in H.
  apply rmatch_continues in H. destruct H as (b1 & s1 & c1 & H & Hs1 & _).
  apply (rmatch_group_times 11 id_char) in H.
  destruct H as (id & s2 & b2 & -> & Hlen & Hall & Hk).
  inversion Hk; subst cap.
  exists id. repeat split; try assumption.
  apply (within_suffix id (id ++ s2) url).
  - exists [], s2. reflexivity.
  - eapply suffix_trans; [exact Hs1 | exact Hs0].
Qed.

Lemma bare_id_only (url : jsstring) :
  regex_test bare_id_pattern url = true -> is_video_id url.
Proof.
  unfold regex_test, regex_match. intros H.
  destruct (exec_from bare_id_pattern true url) as [cap|] eqn:E; [|discriminate].
  apply exec_from_found in E. destruct E as (b0 & s0 & Hm & _ & Hb).
  unfold bare_id_pattern in Hm.
  change (rmatch Bol b0 s0 None
            (fun b s' c =>
               rmatch (Seq (Times 11 id_char) Eol) b s' c (fun _ _ c0 => Some c0))
          = Some cap) in Hm.
  cbn [rmatch] in Hm.
  destruct b0; [|discriminate].
  destruct Hb as [[_ ->]|Hb]; [|discriminate].
  change (rmatch (Times 11 id_char) true url None
            (fun b s' c => rmatch Eol b s' c (fun _ _ c0 => Some c0))
          = Some cap) in Hm.
  apply rmatch_times in Hm.
  destruct Hm as (pre & s' & b' & -> & Hlen & Hall & Hk).
  cbn [rmatch] in Hk. destruct s'; [|discriminate].
  rewrite app_nil_r. now split.
Qed.

Lemma first_capture_id (url id : jsstring) :
  first_capture patterns url = Some id -> is_video_id id /\ within id url.
Proof.
  unfold patterns. cbn [first_capture].
  destruct (regex_match url_pattern url) as [cap|] eqn:E1.
  - apply captured_id in E1. destruct E1 as (id1 & -> & Hid & Hin).
    destruct id1 as [|c cs]; [now destruct Hid|].
    intros H; inversion H; subst id. now split.
  - destruct (regex_match shorts_pattern url) as [cap|] eqn:E2; [|discriminate].
    apply captured_id in E2. destruct E2 as (id2 & -> & Hid & Hin).
    destruct id2 as [|c cs]; [now destruct Hid|].
    intros H; inversion H; subst id. now split.
Qed.

Lemma extractVideoId_some (url id : jsstring) :
  extractVideoId url = Some id -> is_video_id id /\ within id url.
Proof.
  unfold extractVideoId. destruct url as [|c u]; [discriminate|].
  destruct (regex_test bare_id_pattern (c :: u)) eqn:Hbare.
  - intros H; inversion H; subst id. split.
    + now apply bare_id_only.
    + exists [], []. now rewrite app_nil_r.
  - apply first_capture_id.
Qed.

(** X1. Whatever the input, an identifier that [extractVideoId] returns
    is 11 characters of [A-Za-z0-9_-], and it is a contiguous part of
    the input. *)
Theorem extractVideoId_well_formed (url id : jsstring) :
  extractVideoId url = Some id -> is_video_id id /\ within id url.
Proof. apply extractVideoId_some. Qed.

Lemma extractVideoId_well_formed_witness :
  is_video_id (js "dQw4w9WgXcQ")
  /\ within (js "dQw4w9WgXcQ")
            (js "https://www.youtube.com/watch?v=dQw4w9WgXcQ&t=42s").
Proof.
  apply (extractVideoId_well_formed
           (js "https://www.youtube.com/watch?v=dQw4w9WgXcQ&t=42s")
           (js "dQw4w9WgXcQ")).
  vm_compute. reflexivity.
Defined.

(** X2. Resolving is idempotent: a returned identifier resolves to
    itself. *)
Theorem extractVideoId_idempotent (url id : jsstring) :
  extractVideoId url = Some id -> extractVideoId id = Some id.
Proof.
  intros H. apply extractVideoId_some in H.
  destruct H as [[Hlen Hall] _].
  unfold extractVideoId. rewrite (bare_id_test id Hlen Hall).
  destruct id; [discriminate|reflexivity].
Qed.

Lemma extractVideoId_idempotent_witness :
  extractVideoId (js "dQw4w9WgXcQ") = Some (js "dQw4w9WgXcQ").
Proof.
  apply (extractVideoId_idempotent
           (js "https://youtu.be/dQw4w9WgXcQ?si=abc") (js "dQw4w9WgXcQ")).
  vm_compute. reflexivity.
Defined.

(** ** Identifiers in the known link shapes *)

Lemma id_char_ranges (c : N) :
  id_char c = true ->
  (48 <= c <= 57) \/ (65 <= c <= 90) \/ (97 <= c <= 122) \/ c = 95 \/ c = 45.
Proof.
  unfold id_char, in_range. intros H.
  repeat (apply orb_prop in H; destruct H as [H|H]);
    try (apply andb_prop in H; destruct H as [H1 H2];
         apply N.leb_le in H1; apply N.leb_le in H2);
    try apply N.eqb_eq in H; lia.
Qed.

Lemma id_char_not_space (c : N) : id_char c = true -> isWhiteSpace c = false.
Proof.
  intros H. apply id_char_ranges in H. unfold isWhiteSpace.
  repeat (apply orb_false_intro);
    try (apply N.eqb_neq; lia).
  apply andb_false_iff. left. apply N.leb_gt. lia.
Qed.

(** What an identifier character is not, for the classes of the
    patterns. *)
Lemma id_char_classes (c : N) :
  id_char c = true ->
  (c =? 47) = false /\ not_slash_nl_space c = true /\ non_space c = true
  /\ query_or_amp c = false.
Proof.
  intros H. pose proof (id_char_not_space c H) as Hs.
  apply id_char_ranges in H.
  assert (H47 : (c =? 47) = false) by (apply N.eqb_neq; lia).
  assert (H10 : (c =? 10) = false) by (apply N.eqb_neq; lia).
  assert (H63 : (c =? 63) = false) by (apply N.eqb_neq; lia).
  assert (H38 : (c =? 38) = false) by (apply N.eqb_neq; lia).
  unfold not_slash_nl_space, non_space, query_or_amp.
  rewrite H47, H10, H63, H38, Hs. repeat split.
Qed.

(** A counted class consumes a run of its characters. *)
Lemma rmatch_times_app {A : Type} (p : N -> bool) (pre rest : jsstring) :
  forallb p pre = true ->
  forall (b : bool) (cap : option jsstring)
         (k : bool -> jsstring -> option jsstring -> option A),
    rmatch (Times (List.length pre) p) b (pre ++ rest) cap k
    = k (match pre with [] => b | _ :: _ => false end) rest cap.
Proof.
  induction pre as [|x pre IH]; intros Hall b cap k; [reflexivity|].
  cbn [forallb] in Hall. apply andb_prop in Hall. destruct Hall as [Hx Hpre].
  change (rmatch (Times (List.length (x :: pre)) p) b ((x :: pre) ++ rest) cap k)
    with (if p x then rmatch (Times (List.length pre) p) false (pre ++ rest) cap k
          else None).
  rewrite Hx, (IH Hpre). now destruct pre.
Qed.

(** The capture of an identifier in front of the rest of the input. *)
Lemma rmatch_id_at_front {A : Type} (id rest : jsstring) (b : bool)
      (cap : option jsstring)
      (k : bool -> jsstring -> option jsstring -> option A) :
  is_video_id id ->
  rmatch (Group (Times 11 id_char)) b (id ++ rest) cap k
  = k false rest (Some id).
Proof.
  intros [Hlen Hall]. rewrite <- Hlen.
  change (rmatch (Times (List.length id) id_char) b (id ++ rest) cap
            (fun b0 s' _ =>
               k b0 s'
                 (Some (firstn (List.length (id ++ rest) - List.length s')
                               (id ++ rest))))
          = k false rest (Some id)).
  rewrite (rmatch_times_app id_char id rest Hall).
  rewrite firstn_consumed. destruct id; [discriminate|reflexivity].
Qed.

Lemma long_not_bare (s : jsstring) :
  (11 < List.length s)%nat -> regex_test bare_id_pattern s = false.
Proof.
  intros Hlong.
  destruct (regex_test bare_id_pattern s) eqn:E; [|reflexivity].
  apply bare_id_only in E. destruct E as [E _]. lia.
Qed.

Lemma exec_from_skip (r : regex) (b : bool) (x : N) (s : jsstring) :
  rmatch r b (x :: s) None (fun _ _ cap => Some cap) = None ->
  exec_from r b (x :: s) = exec_from r false s.
Proof. intros H. cbn [exec_from]. now rewrite H. Qed.

Lemma exec_from_here (r : regex) (b : bool) (s : jsstring)
      (cap : option jsstring) :
  rmatch r b s None (fun _ _ cap => Some cap) = Some cap ->
  exec_from r b s = Some cap.
Proof. intros H. destruct s; cbn [exec_from]; now rewrite H. Qed.

Lemma rmatch_lit_prefix {A : Type} (l : jsstring) :
  forall (b : bool) (s : jsstring) (cap : option jsstring)
         (k : bool -> jsstring -> option jsstring -> option A) (a : A),
    rmatch (lit_chars l) b s cap k = Some a -> starts_with l s = true.
Proof.
  induction l as [|c l IH]; intros b s cap k a H; [reflexivity|].
  destruct l as [|c' l].
  - cbn in H. destruct s as [|x s]; [discriminate|].
    destruct (x =? c) eqn:E; [|discriminate].
    cbn. rewrite N.eqb_sym, E. reflexivity.
  - change (rmatch (Chr c) b s cap
              (fun b0 s' c0 => rmatch (lit_chars (c' :: l)) b0 s' c0 k) = Some a)
      in H.
    cbn [rmatch] in H. destruct s as [|x s]; [discriminate|].
    destruct (x =? c) eqn:E; [|discriminate].
    apply IH in H.
    change (starts_with (c :: c' :: l) (x :: s))
      with ((c =? x) && starts_with (c' :: l) s).
    now rewrite N.eqb_sym, E, H.
Qed.

Lemma starts_with_forallb (q : N -> bool) (l s : jsstring) :
  starts_with l s = true -> forallb q s = true -> forallb q l = true.
Proof.
  revert s. induction l as [|c l IH]; intros [|x s] H Hs; try reflexivity;
    try discriminate.
  cbn in *. apply andb_prop in H. destruct H as [Hc Hl].
  apply andb_prop in Hs. destruct Hs as [Hx Hs].
  apply N.eqb_eq in Hc. subst x. now rewrite Hx, (IH s).
Qed.

(** No link starts in a string without a slash: both link prefixes have
    one. *)
Lemma no_link_without_slash (b : bool) (s : jsstring) :
  forallb (fun x => negb (x =? 47)) s = true ->
  rmatch url_pattern b s None (fun _ _ cap => Some cap) = None.
Proof.
  intros Hs. unfold url_pattern.
  set (G := Group (Times 11 id_char)).
  match goal with
  | |- rmatch (Seq (Alt (Seq (lit ?a) ?x) (lit ?l)) G) _ _ _ ?k = _ =>
      change (match rmatch (lit_chars (js a)) b s None
                      (fun b0 s' c0 =>
                         rmatch x b0 s' c0
                                (fun b1 s1 c1 => rmatch G b1 s1 c1 k)) with
              | Some v => Some v
              | None =>
                  rmatch (lit_chars (js l)) b s None
                         (fun b1 s1 c1 => rmatch G b1 s1 c1 k)
              end = None)
  end.
  match goal with
  | |- match ?m with _ => _ end = _ => destruct m eqn:E1
  end.
  - apply rmatch_lit_prefix in E1.
    apply (starts_with_forallb (fun x => negb (x =? 47))) in E1;
      [discriminate E1|exact Hs].
  - match goal with
    | |- ?m = None => destruct m eqn:E2; [|reflexivity]
    end.
    apply rmatch_lit_prefix in E2.
    apply (starts_with_forallb (fun x => negb (x =? 47))) in E2;
      [discriminate E2|exact Hs].
Qed.

Lemma no_link_up_to_end (s : jsstring) :
  forallb (fun x => negb (x =? 47)) s = true ->
  exec_from url_pattern false s = None.
Proof.
  induction s as [|x s IH]; intros Hs.
  - cbn [exec_from]. now rewrite no_link_without_slash.
  - cbn [exec_from]. rewrite no_link_without_slash by exact Hs.
    apply IH. cbn [forallb] in Hs. apply andb_prop in Hs. tauto.
Qed.

(** The number of slashes of a string. *)
Lemma two_slashes_needed {A : Type} (s : jsstring) :
  (List.length (filter (fun x : N => (x =? 47)%N) s) < 2)%nat ->
  forall (b : bool) (cap : option jsstring)
         (k : bool -> jsstring -> option jsstring -> option A),
    rmatch (Plus not_slash_nl_space ;; Chr 47 ;; Plus non_space ;; Chr 47)%re
           b s cap k = None.
Proof.
  intros Hcount b cap k.
  match goal with |- ?m = None => destruct m as [a|] eqn:E; [|reflexivity] end.
  exfalso.
  change (rmatch (Plus not_slash_nl_space) b s cap
            (fun b1 s1 c1 =>
               rmatch (Chr 47) b1 s1 c1
                 (fun b2 s2 c2 =>
                    rmatch (Plus non_space) b2 s2 c2
                      (fun b3 s3 c3 => rmatch (Chr 47) b3 s3 c3 k)))
          = Some a) in E.
  apply rmatch_continues in E. destruct E as (b1 & s1 & c1 & E & [pre1 ->] & _).
  cbn [rmatch] in E. destruct s1 as [|x s2]; [discriminate|].
  destruct (x =? 47) eqn:Hx; [|discriminate].
  change (rmatch (Plus non_space) false s2 c1
            (fun b3 s3 c3 => rmatch (Chr 47) b3 s3 c3 k) = Some a) in E.
  apply rmatch_continues in E. destruct E as (b3 & s3 & c3 & E & [pre2 ->] & _).
  cbn [rmatch] in E. destruct s3 as [|y s4]; [discriminate|].
  destruct (y =? 47) eqn:Hy; [|discriminate].
  rewrite filter_app in Hcount. cbn [filter] in Hcount. rewrite Hx in Hcount.
  rewrite filter_app in Hcount. cbn [filter] in Hcount. rewrite Hy in Hcount.
  rewrite !length_app in Hcount. cbn [List.length] in Hcount.
  rewrite !length_app in Hcount. cbn [List.length] in Hcount. lia.
Qed.

(** A pattern that needs [?] or [&] finds none among identifier
    characters. *)
Lemma query_needed {A : Type} (s : jsstring) :
  forallb (fun x => negb (query_or_amp x)) s = true ->
  forall (b : bool) (cap : option jsstring)
         (k : bool -> jsstring -> option jsstring -> option A),
    rmatch (StarLazy non_space ;; Cls query_or_amp ;; lit "v=")%re
           b s cap k = None.
Proof.
  intros Hnone b cap k.
  match goal with |- ?m = None => destruct m as [a|] eqn:E; [|reflexivity] end.
  exfalso.
  change (rmatch (StarLazy non_space) b s cap
            (fun b1 s1 c1 =>
               rmatch (Cls query_or_amp) b1 s1 c1
                 (fun b2 s2 c2 => rmatch (lit "v=") b2 s2 c2 k))
          = Some a) in E.
  apply rmatch_continues in E. destruct E as (b1 & s1 & c1 & E & [pre ->] & _).
  cbn [rmatch] in E. destruct s1 as [|x s2]; [discriminate|].
  destruct (query_or_amp x) eqn:Hx; [|discriminate].
  rewrite forallb_app in Hnone. cbn [forallb] in Hnone. rewrite Hx in Hnone.
  cbn in Hnone. now rewrite andb_false_r in Hnone.
Qed.


Lemma id_has_no_slash (s : jsstring) :
  forallb id_char s = true -> forallb (fun x => negb (x =? 47)) s = true.
Proof.
  induction s as [|x s IH]; [reflexivity|]. cbn [forallb]. intros H.
  apply andb_prop in H. destruct H as [Hx Hs].
  destruct (id_char_classes x Hx) as (-> & _). now apply IH.
Qed.

Lemma id_has_no_query (s : jsstring) :
  forallb id_char s = true ->
  forallb (fun x => negb (query_or_amp x)) s = true.
Proof.
  induction s as [|x s IH]; [reflexivity|]. cbn [forallb]. intros H.
  apply andb_prop in H. destruct H as [Hx Hs].
  destruct (id_char_classes x Hx) as (_ & _ & _ & ->). now apply IH.
Qed.

Lemma no_slash_filter (s : jsstring) :
  forallb (fun x => negb (x =? 47)) s = true ->
  filter (fun x : N => (x =? 47)%N) s = [].
Proof.
  induction s as [|x s IH]; [reflexivity|]. cbn [forallb filter]. intros H.
  apply andb_prop in H. destruct H as [Hx Hs].
  apply negb_true_iff in Hx. rewrite Hx. now apply IH.
Qed.

(** The characters of the literal prefix of a link, spelled out. *)
Ltac spell_prefix :=
  match goal with
  | |- context [js ?str ++ ?s] =>
      let l := eval vm_compute in (js str) in
      change (js str ++ s) with (l ++ s); cbn [app]
  end.

(** Positions of the link where the pattern does not match. *)
Ltac skip_positions :=
  repeat (rewrite exec_from_skip by (cbn; reflexivity)).

(** The pattern with its capture and the alternatives that run over the
    identifier held fixed. *)
Ltac hold_pattern P R G :=
  unfold url_pattern;
  remember (Group (Times 11 id_char)) as G;
  remember (Plus not_slash_nl_space ;; Chr 47 ;; Plus non_space ;; Chr 47)%re
    as P;
  remember (StarLazy non_space ;; Cls query_or_amp ;; lit "v=")%re as R.

Ltac few_slashes H :=
  cbn [filter]; rewrite (no_slash_filter _ H); cbn; lia.

Section LinkShapes.

Variables id rest : jsstring.
Hypothesis Hid : is_video_id id.
Hypothesis Hrest : forallb (fun x => negb (x =? 47)) rest = true.

Lemma tail_no_slash : forallb (fun x => negb (x =? 47)) (id ++ rest) = true.
Proof.
  rewrite forallb_app, Hrest, id_has_no_slash; [reflexivity|apply Hid].
Qed.

Lemma watch_shape :
  regex_match url_pattern (js "https://www.youtube.com/watch?v=" ++ id ++ rest)
  = Some (Some id).
Proof.
  pose proof tail_no_slash as Hall.
  unfold regex_match. spell_prefix. hold_pattern Pth Qry Grp.
  skip_positions. apply exec_from_here. cbn.
  subst Pth. rewrite two_slashes_needed by few_slashes Hall.
  subst Qry. cbn.
  subst Grp. now rewrite rmatch_id_at_front.
Qed.

Lemma short_shape :
  regex_match url_pattern (js "https://youtu.be/" ++ id ++ rest)
  = Some (Some id).
Proof.
  unfold regex_match. spell_prefix. hold_pattern Pth Qry Grp.
  skip_positions. apply exec_from_here. cbn.
  subst Grp. now rewrite rmatch_id_at_front.
Qed.

Lemma embed_shape :
  regex_match url_pattern (js "https://www.youtube.com/embed/" ++ id ++ rest)
  = Some (Some id).
Proof.
  pose proof tail_no_slash as Hall.
  unfold regex_match. spell_prefix. hold_pattern Pth Qry Grp.
  skip_positions. apply exec_from_here. cbn.
  subst Pth. rewrite two_slashes_needed by few_slashes Hall.
  cbn.
  subst Grp. now rewrite rmatch_id_at_front.
Qed.

Lemma shorts_not_url_pattern :
  forallb (fun x => negb (query_or_amp x)) rest = true ->
  regex_match url_pattern (js "https://www.youtube.com/shorts/" ++ id ++ rest)
  = None.
Proof.
  intros Hq. pose proof tail_no_slash as Hall.
  assert (Hq' : forallb (fun x => negb (query_or_amp x)) (id ++ rest) = true).
  { rewrite forallb_app, Hq, id_has_no_query; [reflexivity|apply Hid]. }
  unfold regex_match. spell_prefix. hold_pattern Pth Qry Grp.
  skip_positions.
  rewrite exec_from_skip.
  2:{ cbn. subst Pth. rewrite two_slashes_needed by few_slashes Hall.
      subst Qry. rewrite query_needed; [reflexivity|].
      cbn [forallb]. rewrite Hq'. reflexivity. }
  skip_positions.
  subst Pth Qry Grp. apply (no_link_up_to_end (id ++ rest) Hall).
Qed.

Lemma shorts_shape :
  regex_match shorts_pattern (js "https://www.youtube.com/shorts/" ++ id ++ rest)
  = Some (Some id).
Proof.
  unfold regex_match, shorts_pattern. spell_prefix.
  remember (Group (Times 11 id_char)) as Grp.
  skip_positions. apply exec_from_here. cbn.
  subst Grp. now rewrite rmatch_id_at_front.
Qed.

End LinkShapes.

Lemma resolved_by_url_pattern (url id : jsstring) :
  (11 < List.length url)%nat -> is_video_id id ->
  regex_match url_pattern url = Some (Some id) ->
  extractVideoId url = Some id.
Proof.
  intros Hlong [Hlen _] Hm. unfold extractVideoId.
  destruct url as [|c u]; [cbn in Hlong; lia|].
  rewrite (long_not_bare _ Hlong). unfold patterns. cbn [first_capture].
  rewrite Hm. destruct id; [discriminate|reflexivity].
Qed.

Ltac longer_than_id Hid :=
  destruct Hid as [Hlen _]; rewrite !length_app, Hlen; cbn; lia.

(** X3. A link of the watch, short or embed shape resolves to its
    identifier, whatever the identifier is and whatever follows it, as
    long as no slash follows; so does a shorts link that has no [?] or
    [&] after the identifier either. *)
Theorem extractVideoId_link_shapes (id rest : jsstring) :
  is_video_id id ->
  forallb (fun x => negb (x =? 47)) rest = true ->
  extractVideoId (js "https://www.youtube.com/watch?v=" ++ id ++ rest)
  = Some id
  /\ extractVideoId (js "https://youtu.be/" ++ id ++ rest) = Some id
  /\ extractVideoId (js "https://www.youtube.com/embed/" ++ id ++ rest)
     = Some id
  /\ (forallb (fun x => negb (query_or_amp x)) rest = true ->
      extractVideoId (js "https://www.youtube.com/shorts/" ++ id ++ rest)
      = Some id).
Proof.
  intros Hid Hrest. split; [|split; [|split]].
  - apply resolved_by_url_pattern;
      [longer_than_id Hid|exact Hid|now apply watch_shape].
  - apply resolved_by_url_pattern;
      [longer_than_id Hid|exact Hid|now apply short_shape].
  - apply resolved_by_url_pattern;
      [longer_than_id Hid|exact Hid|now apply embed_shape].
  - intros Hq. unfold extractVideoId.
    assert (Hlong : (11 < List.length
                            (js "https://www.youtube.com/shorts/" ++ id ++ rest))%nat)
      by longer_than_id Hid.
    rewrite (long_not_bare _ Hlong).
    unfold patterns. cbn [first_capture].
    rewrite (shorts_not_url_pattern id rest Hid Hrest Hq).
    rewrite (shorts_shape id rest Hid).
    destruct Hid as [Hlen _]. destruct id; [discriminate|reflexivity].
Qed.

Lemma extractVideoId_link_shapes_witness :
  extractVideoId (js "https://www.youtube.com/watch?v=" ++ js "dQw4w9WgXcQ"
                  ++ js "&t=42s")
  = Some (js "dQw4w9WgXcQ").
Proof.
  refine (proj1 (extractVideoId_link_shapes
                   (js "dQw4w9WgXcQ") (js "&t=42s") _ _)).
  - split; reflexivity.
  - reflexivity.
Defined.

(** ** Every run of the retry executor *)

Section RetryRuns.

Context {W A : Type}.
Variable fn : W -> outcome A * W.
Variable initialDelay : Z.

(** What a run of the loop says about the calls it made. *)
Lemma retry_from_run (r : nat) :
  forall (attempt : nat) (w : W),
    let '(res, w', evs) := retry_from fn initialDelay r attempt w in
    exists es : list js_error,
      (List.length es <= r)%nat
      /\ first_outcomes fn (S (List.length es)) w = map Thrown es ++ [res]
      /\ w' = world_after fn (S (List.length es)) w
      /\ invocations evs = S (List.length es)
      /\ sleeps evs = backoff initialDelay attempt (List.length es)
      /\ warnings evs = warned initialDelay attempt es
      /\ (forall e, res = Thrown e -> List.length es = r)
      /\ evs = trace initialDelay attempt es.
Proof.
  induction r as [|r IH]; intros attempt w; rewrite retry_from_unfold.
  - cbn [first_outcomes world_after].
    destruct (fn w) as [[a|e] w1]; exists []; rewrite trace_nil; cbn;
      repeat split; lia.
  - cbn [first_outcomes world_after].
    destruct (fn w) as [[a|e] w1] eqn:Hfn.
    + exists []. rewrite trace_nil. cbn. repeat split; try lia. discriminate.
    + specialize (IH (S attempt) w1). cbv zeta.
      destruct (retry_from fn initialDelay r (S attempt) w1) as [[res w2] evs].
      destruct IH
        as (es & Hlen & Hout & Hw & Hinv & Hsl & Hwarn & Hthrown & Htrace).
      exists (e :: es). cbn [List.length map app first_outcomes world_after].
      cbn [first_outcomes] in Hout. cbn [world_after] in Hw.
      cbn [snd].
      cbn [invocations sleeps warnings backoff warned].
      rewrite Hinv, Hsl, Hwarn, trace_cons, <- Htrace.
      repeat split; try lia.
      * now rewrite Hout.
      * exact Hw.
      * intros e' He'. now rewrite (Hthrown e' He').
Qed.

End RetryRuns.

Lemma total_backoff (initialDelay : Z) (k : nat) :
  forall attempt : nat,
    total (backoff initialDelay attempt k)
    = (initialDelay * 2 ^ Z.of_nat attempt * (2 ^ Z.of_nat k - 1))%Z.
Proof.
  induction k as [|k IH]; intros attempt; cbn [backoff total fold_right].
  - cbn. lia.
  - fold (total (backoff initialDelay (S attempt) k)). rewrite IH.
    rewrite !Nat2Z.inj_succ, !Z.pow_succ_r by lia. ring.
Qed.

(** X4. Whatever the operation, the retry limit and the initial delay
    are, a run of the executor made n calls of the operation, with
    1 <= n <= maxRetries + 1: the first n - 1 threw, the result of the
    run is the outcome of the last one and the state left is the one
    after these n calls; it slept [initialDelay * 2^i] after each failed
    call i but the last and warned once before each sleep, with the
    number of the attempt, the delay and the error; it throws only
    when maxRetries + 1 calls were made; and the run is, in this order
    and with nothing else: for each failed call that is retried, its
    invocation, its warning and its sleep; then the last invocation. *)
Theorem retryWithBackoff_run {W A : Type} (fn : W -> outcome A * W)
        (maxRetries : nat) (initialDelay : Z) (w : W) :
  let '(res, w', evs) := retryWithBackoff fn maxRetries initialDelay w in
  exists es : list js_error,
    (List.length es <= maxRetries)%nat
    /\ first_outcomes fn (S (List.length es)) w = map Thrown es ++ [res]
    /\ w' = world_after fn (S (List.length es)) w
    /\ invocations evs = S (List.length es)
    /\ sleeps evs = backoff initialDelay 0 (List.length es)
    /\ warnings evs = warned initialDelay 0 es
    /\ (forall e, res = Thrown e -> List.length es = maxRetries)
    /\ evs = flat_map
               (fun '(i, e) =>
                  let delay := (initialDelay * 2 ^ Z.of_nat i)%Z in
                  [Invoke i; Warn (S i) delay e; Sleep delay])
               (combine (seq 0 (List.length es)) es)
             ++ [Invoke (List.length es)].
Proof. unfold retryWithBackoff. apply retry_from_run. Qed.

(** X5. The time a run of the executor sleeps in all is
    [initialDelay * (2^(n-1) - 1)] for its n calls of the operation,
    hence at most [initialDelay * (2^maxRetries - 1)]: 7000 ms with the
    default parameters. *)
Theorem retryWithBackoff_total_sleep {W A : Type} (fn : W -> outcome A * W)
        (maxRetries : nat) (initialDelay : Z) (w : W) :
  (0 <= initialDelay)%Z ->
  let evs := snd (retryWithBackoff fn maxRetries initialDelay w) in
  total (sleeps evs)
  = (initialDelay * (2 ^ Z.of_nat (invocations evs - 1) - 1))%Z
  /\ (total (sleeps evs) <= initialDelay * (2 ^ Z.of_nat maxRetries - 1))%Z.
Proof.
  intros Hpos. unfold retryWithBackoff.
  pose proof (retry_from_run fn initialDelay maxRetries 0 w) as H.
  destruct (retry_from fn initialDelay maxRetries 0 w) as [[res w'] evs].
  destruct H as (es & Hlen & _ & _ & Hinv & Hsl & _).
  cbn [snd]. rewrite Hsl, Hinv, total_backoff.
  replace (S (List.length es) - 1)%nat with (List.length es) by lia.
  cbn [Z.of_nat Z.pow]. rewrite Z.mul_1_r. split; [reflexivity|].
  apply Z.mul_le_mono_nonneg_l; [exact Hpos|].
  apply Z.sub_le_mono_r. apply Z.pow_le_mono_r; lia.
Qed.

Lemma retryWithBackoff_total_sleep_witness :
  let evs := snd (retryWithBackoff fails_twice MAX_RETRIES INITIAL_RETRY_DELAY
                                   0%nat) in
  total (sleeps evs) = (1000 * (2 ^ Z.of_nat (invocations evs - 1) - 1))%Z
  /\ (total (sleeps evs) <= 1000 * (2 ^ Z.of_nat 3 - 1))%Z.
Proof.
  apply (retryWithBackoff_total_sleep fails_twice MAX_RETRIES
           INITIAL_RETRY_DELAY 0%nat).
  unfold INITIAL_RETRY_DELAY. lia.
Defined.

(** ** Every token *)

Lemma nth_forallb {T : Type} (P : T -> bool) (d : T) (l : list T) :
  forallb P l = true -> P d = true -> forall n, P (nth n l d) = true.
Proof.
  intros Hl Hd. induction l as [|x l IH]; intros [|n]; cbn in *;
    try assumption; apply andb_prop in Hl; destruct Hl as [Hx Hl]; auto.
Qed.

Lemma b64_char_token (i : N) :
  forallb token_char (uri_escape (b64_char i)) = true.
Proof.
  unfold b64_char.
  apply (nth_forallb (fun c => forallb token_char (uri_escape c))).
  - vm_compute. reflexivity.
  - vm_compute. reflexivity.
Qed.

Lemma b64_groups_token (bs : list N) :
  forallb token_char (percent_encode (b64_groups bs)) = true.
Proof.
  unfold percent_encode.
  induction bs as [|a|a b|a b c l IH] using list_ind3;
    cbn [b64_groups flat_map]; rewrite ?forallb_app, ?b64_char_token;
    try reflexivity.
  exact IH.
Qed.

Lemma fromCharCode_binary (n : N) :
  is_binary (fromCharCode n) = (n mod 65536 <=? 255).
Proof. unfold is_binary, fromCharCode. cbn [forallb]. apply andb_true_r. Qed.

Lemma inner_blob_binary (source lang : jsstring) :
  is_binary (inner_blob source lang)
  = is_binary source && is_binary lang
    && byte_length source && byte_length lang.
Proof.
  unfold inner_blob, byte_length.
  rewrite !is_binary_app, !fromCharCode_binary.
  change (10 mod 65536 <=? 255) with true.
  change (18 mod 65536 <=? 255) with true.
  change (26 mod 65536 <=? 255) with true.
  change (0 mod 65536 <=? 255) with true.
  destruct (is_binary source), (is_binary lang),
    (str_length source mod 65536 <=? 255),
    (str_length lang mod 65536 <=? 255); reflexivity.
Qed.

Lemma outer_blob_binary (videoId innerB64 : jsstring) (lastFlag : bool) :
  is_ascii innerB64 = true ->
  is_binary (outer_blob videoId innerB64 lastFlag)
  = is_binary videoId && byte_length videoId && byte_length innerB64.
Proof.
  intros Hascii. apply is_ascii_binary in Hascii.
  unfold outer_blob, byte_length.
  rewrite !is_binary_app, !fromCharCode_binary, Hascii.
  assert (Hflag : ((if lastFlag then 1 else 0) mod 65536 <=? 255) = true)
    by now destruct lastFlag.
  rewrite Hflag.
  change (10 mod 65536 <=? 255) with true.
  change (18 mod 65536 <=? 255) with true.
  change (24 mod 65536 <=? 255) with true.
  change (1 mod 65536 <=? 255) with true.
  change (42 mod 65536 <=? 255) with true.
  change (48 mod 65536 <=? 255) with true.
  change (56 mod 65536 <=? 255) with true.
  change (64 mod 65536 <=? 255) with true.
  change (str_length panel mod 65536 <=? 255) with true.
  change (is_binary panel) with true.
  destruct (is_binary videoId), (str_length videoId mod 65536 <=? 255),
    (str_length innerB64 mod 65536 <=? 255); reflexivity.
Qed.

Lemma token_or_invalid (videoId source lang : jsstring) (lastFlag : bool) :
  match buildTranscriptToken videoId source lang lastFlag with
  | Returned token => forallb token_char token = true
  | Thrown e => e = EngineError InvalidCharacter
  end.
Proof.
  unfold buildTranscriptToken, b64urlEncodeBinary, btoa.
  destruct (is_binary (inner_blob source lang)); [|reflexivity].
  cbn [bind_outcome].
  destruct (is_binary (outer_blob videoId _ lastFlag)); [|reflexivity].
  cbn [bind_outcome].
  rewrite (encodeURIComponent_ascii _ (b64_groups_ascii _)).
  apply b64_groups_token.
Qed.

(** X6. A token that is returned is made of letters, digits and percent
    signs only, so it needs no further escaping; and the only way the
    encoder fails is the InvalidCharacter error of btoa, never a URI
    error. *)
Theorem buildTranscriptToken_alphabet
        (videoId source lang : jsstring) (lastFlag : bool) :
  match buildTranscriptToken videoId source lang lastFlag with
  | Returned token => forallb token_char token = true
  | Thrown e => e = EngineError InvalidCharacter
  end.
Proof. apply token_or_invalid. Qed.

(** X7. The encoder returns a token exactly when every character of the
    video identifier, of the kind and of the language code is a byte
    and the four length characters it writes (for these three and for
    the base64 of the inner blob) are bytes; in every other case it
    throws. *)
Theorem buildTranscriptToken_returns_iff
        (videoId source lang : jsstring) (lastFlag : bool) :
  (exists token,
      buildTranscriptToken videoId source lang lastFlag = Returned token)
  <-> is_binary videoId && is_binary source && is_binary lang
      && byte_length videoId && byte_length source && byte_length lang
      && byte_length (b64_groups (inner_blob source lang)) = true.
Proof.
  unfold buildTranscriptToken, b64urlEncodeBinary, btoa.
  rewrite inner_blob_binary.
  destruct (is_binary source), (is_binary lang), (byte_length source),
    (byte_length lang); cbn [andb bind_outcome];
    rewrite ?andb_false_r;
    try (split; [intros [t Ht]; discriminate Ht | discriminate]).
  rewrite (outer_blob_binary _ _ _ (b64_groups_ascii _)).
  destruct (is_binary videoId), (byte_length videoId),
    (byte_length (b64_groups (inner_blob source lang)));
    cbn [andb bind_outcome];
    try (split; [intros [t Ht]; discriminate Ht | discriminate]).
  rewrite (encodeURIComponent_ascii _ (b64_groups_ascii _)).
  split; [reflexivity|]. intros _. eexists. reflexivity.
Qed.

(** ** What the fetcher throws *)

Lemma ToString_thrown (Number_toString : jsnum -> jsstring) :
  forall (v : jsval) (e : js_error),
    ToString Number_toString v = Thrown e -> e = EngineError NotPrimitive.
Proof.
  fix IH 1. intros [ | | b | x | s | items | props ] e; cbn [ToString];
    try discriminate.
  - match goal with
    | |- bind_outcome ?els _ = _ -> _ =>
        assert (Hels : forall e', els = Thrown e' ->
                                  e' = EngineError NotPrimitive)
    end.
    { clear e. revert items. fix IHitems 1. intros [|x items] e';
        [discriminate|].
      destruct (match x with
                | VUndefined | VNull => Returned []
                | _ => ToString Number_toString x
                end) as [t|e''] eqn:Ex.
      - cbn [bind_outcome].
        match goal with
        | |- bind_outcome ?rest _ = _ -> _ =>
            destruct rest as [ts|e3] eqn:Er
        end; cbn [bind_outcome]; [discriminate|].
        intros H; inversion H; subst. exact (IHitems _ _ Er).
      - cbn [bind_outcome]. intros H; inversion H; subst.
        pose proof (IH x e') as Hx.
        destruct x; try discriminate Ex; exact (Hx Ex). }
    match goal with
    | |- bind_outcome ?els _ = _ -> _ => destruct els as [ts|e'] eqn:E
    end; cbn [bind_outcome]; [discriminate|].
    intros H; inversion H; subst. now apply Hels.
  - destruct (has_own _ _); [|discriminate].
    intros H; now inversion H.
Qed.

Lemma parseInt_thrown (Number_toString : jsnum -> jsstring) (v : jsval)
      (e : js_error) :
  parseInt Number_toString v = Thrown e -> e = EngineError NotPrimitive.
Proof.
  unfold parseInt.
  destruct (ToString Number_toString v) as [s|e'] eqn:E; cbn [bind_outcome];
    [discriminate|].
  intros H; inversion H; subst. exact (ToString_thrown _ _ _ E).
Qed.

Lemma collect_parts_thrown (Number_toString : jsnum -> jsstring)
      (segments : list jsval) :
  forall e logs,
    collect_parts Number_toString segments = (Thrown e, logs) ->
    (exists what, e = EngineError (NotIterable what))
    \/ e = EngineError NotPrimitive.
Proof.
  induction segments as [|segment rest IH]; intros e logs;
    cbn [collect_parts]; [discriminate|].
  destruct (segment_step_of Number_toString segment) as [|renderer|part|e'] eqn:Hstep.
  - apply IH.
  - destruct (collect_parts Number_toString rest) as [r logs'].
    intros H; inversion H; subst. eapply IH; reflexivity.
  - destruct (collect_parts Number_toString rest) as [[ps'|e''] logs']; cbn;
      intros H; inversion H; subst. eapply IH; reflexivity.
  - intros H; inversion H; subst.
    unfold segment_step_of in Hstep.
    destruct (_ || _); [discriminate|].
    destruct (iterate _); [|inversion Hstep; left; eexists; reflexivity].
    destruct (normalize _); [discriminate|].
    destruct (parseInt _ (get "startMs" _)) as [startMs|e'] eqn:Es;
      [|inversion Hstep; subst; right; exact (parseInt_thrown _ _ _ Es)].
    destruct (parseInt _ (get "endMs" _)) as [endMs|e'] eqn:Ee;
      [|inversion Hstep; subst; right; exact (parseInt_thrown _ _ _ Ee)].
    destruct (_ || _); discriminate.
Qed.

Lemma read_transcript_thrown (Number_toString : jsnum -> jsstring)
      (lo : LanguageOption) (responseData : jsval)
      (e : js_error) (logs : list log_entry) :
  read_transcript Number_toString lo responseData = (Thrown e, logs) ->
  e = no_transcript_found (language lo)
  \/ e = parse_error
  \/ e = empty_transcript (language lo)
  \/ (exists what, e = EngineError (NotIterable what))
  \/ e = EngineError NotPrimitive.
Proof.
  unfold read_transcript.
  destruct (negb _).
  - destruct (is_transcript_panel _); intros H; inversion H; auto.
  - destruct (iterate _) as [segments|].
    + destruct (collect_parts Number_toString segments) as [[[|p ps]|e'] logs'] eqn:Hc;
        intros H; inversion H; subst; auto.
      right. right. right. eapply collect_parts_thrown, Hc.
    + intros H; inversion H. right. right. right. left. eexists. reflexivity.
Qed.

Lemma getTranscript_thrown (Number_toString : jsnum -> jsstring)
      (clientVersion : jsstring)
      (post : jsstring -> jsstring -> outcome jsval)
      (videoId : jsstring) (lo : LanguageOption)
      (e : js_error) (logs : list log_entry) :
  getTranscript Number_toString clientVersion post videoId lo = (Thrown e, logs) ->
  e = EngineError InvalidCharacter
  \/ (exists params, request_params videoId lo = Returned params
                     /\ post clientVersion params = Thrown e)
  \/ e = no_transcript_found (language lo)
  \/ e = parse_error
  \/ e = empty_transcript (language lo)
  \/ (exists what, e = EngineError (NotIterable what))
  \/ e = EngineError NotPrimitive.
Proof.
  unfold getTranscript.
  destruct (request_params videoId lo) as [params|e'] eqn:Hparams.
  - destruct (post clientVersion params) as [responseData|e'] eqn:Hpost.
    + intros H. apply read_transcript_thrown in H. tauto.
    + intros H; inversion H; subst. right. left. now exists params.
  - intros H; inversion H; subst. left.
    unfold request_params in Hparams.
    destruct (str_eqb _ _);
      match type of Hparams with
      | buildTranscriptToken ?v ?s ?l ?f = _ =>
          pose proof (token_or_invalid v s l f) as Ha;
          rewrite Hparams in Ha; exact Ha
      end.
Qed.

(** X8. The text kept from a segment is stable: normalizing a
    normalized text again gives the same text. *)
Theorem normalize_idempotent (s : jsstring) :
  normalize (normalize s) = normalize s.
Proof.
  destruct (normalize s) as [|c t] eqn:E; [reflexivity|].
  rewrite <- E. apply normalize_fixed, normalize_normalized.
  rewrite E. discriminate.
Qed.

(** X9. The transcript of a returned result is itself normalized: it is
    the texts of the parts joined by single spaces, the final trim
    removing nothing; it is not empty, has no white space at either end
    and no white space inside other than single spaces. *)
Theorem getTranscript_transcript_normalized
        (Number_toString : jsnum -> jsstring) (clientVersion : jsstring)
        (post : jsstring -> jsstring -> outcome jsval)
        (videoId : jsstring) (lo : LanguageOption)
        (r : TranscriptResult) (logs : list log_entry) :
  getTranscript Number_toString clientVersion post videoId lo = (Returned r, logs) ->
  transcript r = join (js " ") (map text (parts r))
  /\ normalized (transcript r)
  /\ normalize (transcript r) = transcript r.
Proof.
  intros H.
  destruct (returned_transcript_normalized _ _ _ _ _ _ _ H)
    as (_ & Hjoin & Hnorm).
  split; [exact Hjoin|]. split; [exact Hnorm|].
  now apply normalize_fixed.
Qed.

Lemma getTranscript_transcript_normalized_witness :
  js "Hello world again" = join (js " ") [js "Hello world"; js "again"]
  /\ normalized (js "Hello world again")
  /\ normalize (js "Hello world again") = js "Hello world again".
Proof.
  apply (getTranscript_transcript_normalized
           number_text (js "2.20240101.00.00")
           (always (sample_response
                      (VArr [sample_segment "0" "1500" [" Hello  "; "world "]%string;
                             sample_segment "1500" "2000" ["again"%string]])))
           (js "dQw4w9WgXcQ") en_asr
           {| langOption := en_asr;
              transcript := js "Hello world again";
              parts := [{| start := Finite 0;
                           duration := Finite (3 # 2);
                           text := js "Hello world" |};
                        {| start := Finite (3 # 2);
                           duration := Finite (1 # 2);
                           text := js "again" |}] |}
           []).
  vm_compute. reflexivity.
Defined.

(** X11. Whatever the fetcher throws is the InvalidCharacter error of
    the encoder, the error of the request itself, one of its own three
    transcript errors (not found and no text, with status 404, or
    unparsable, with status 500), the error of iterating a value that
    is not iterable, or the error of turning into a string a time that
    is an object with a toString of its own. *)
Theorem getTranscript_failures
        (Number_toString : jsnum -> jsstring) (clientVersion : jsstring)
        (post : jsstring -> jsstring -> outcome jsval)
        (videoId : jsstring) (lo : LanguageOption)
        (e : js_error) (logs : list log_entry) :
  getTranscript Number_toString clientVersion post videoId lo = (Thrown e, logs) ->
  e = EngineError InvalidCharacter
  \/ (exists params, post clientVersion params = Thrown e)
  \/ (exists m, e = TranscriptError m 404)
  \/ e = parse_error
  \/ (exists what, e = EngineError (NotIterable what))
  \/ e = EngineError NotPrimitive.
Proof.
  intros H. apply getTranscript_thrown in H.
  destruct H as [H|[(params & _ & H)|[H|[H|[H|[H|H]]]]]];
    [ tauto
    | right; left; now exists params
    | right; right; left; eexists; exact H
    | tauto
    | right; right; left; eexists; exact H
    | tauto
    | tauto ].
Qed.

Lemma getTranscript_failures_witness :
  EngineError NotPrimitive = EngineError InvalidCharacter
  \/ (exists params,
         always (sample_response (VArr [opaque_segment]))
                (js "2.20240101.00.00") params
         = Thrown (EngineError NotPrimitive))
  \/ (exists m, EngineError NotPrimitive = TranscriptError m 404)
  \/ EngineError NotPrimitive = parse_error
  \/ (exists what, EngineError NotPrimitive = EngineError (NotIterable what))
  \/ EngineError NotPrimitive = EngineError NotPrimitive.
Proof.
  apply (getTranscript_failures
           number_text (js "2.20240101.00.00")
           (always (sample_response (VArr [opaque_segment])))
           (js "dQw4w9WgXcQ") en_asr (EngineError NotPrimitive) []).
  vm_compute. reflexivity.
Defined.

(** ** Strings without a slash *)

Lemma no_shorts_without_slash (b : bool) (s : jsstring) :
  forallb (fun x => negb (x =? 47)) s = true ->
  rmatch shorts_pattern b s None (fun _ _ cap => Some cap) = None.
Proof.
  intros Hs. unfold shorts_pattern.
  match goal with
  | |- rmatch (Seq (lit ?a) ?G) _ _ _ ?k = _ =>
      change (rmatch (lit_chars (js a)) b s None
                (fun b1 s1 c1 => rmatch G b1 s1 c1 k) = None)
  end.
  match goal with
  | |- ?m = None => destruct m eqn:E; [|reflexivity]
  end.
  apply rmatch_lit_prefix in E.
  apply (starts_with_forallb (fun x => negb (x =? 47))) in E;
    [discriminate E|exact Hs].
Qed.

Lemma exec_from_nowhere (r : regex) (q : N -> bool) :
  (forall b s, forallb q s = true ->
               rmatch r b s None (fun _ _ cap => Some cap) = None) ->
  forall s b, forallb q s = true -> exec_from r b s = None.
Proof.
  intros Hr. induction s as [|x s IH]; intros b Hs; cbn [exec_from].
  - now rewrite Hr.
  - rewrite (Hr b (x :: s) Hs). apply IH.
    cbn [forallb] in Hs. apply andb_prop in Hs. tauto.
Qed.

(** X12. A string without a slash resolves to itself or not at all:
    only a bare identifier is accepted, every other text without a
    slash gives null, whatever else it contains. *)
Theorem extractVideoId_without_slash (url id : jsstring) :
  forallb (fun x => negb (x =? 47)) url = true ->
  extractVideoId url = Some id -> id = url.
Proof.
  intros Hs. unfold extractVideoId.
  destruct url as [|c u]; [discriminate|].
  destruct (regex_test bare_id_pattern (c :: u)); [congruence|].
  unfold patterns. cbn [first_capture]. unfold regex_match.
  rewrite (exec_from_nowhere url_pattern _
             (fun b s => no_link_without_slash b s) _ true Hs).
  rewrite (exec_from_nowhere shorts_pattern _
             (fun b s => no_shorts_without_slash b s) _ true Hs).
  discriminate.
Qed.

Lemma extractVideoId_without_slash_witness : js "dQw4w9WgXcQ" = js "dQw4w9WgXcQ".
Proof.
  apply (extractVideoId_without_slash (js "dQw4w9WgXcQ") (js "dQw4w9WgXcQ"));
    reflexivity.
Defined.

(** ** A miss, then a hit *)

Lemma caught_fails (engine_message : engine_fault -> jsstring)
      (logs : list log_entry) (evs : list retry_event) (e : js_error) :
  exists status m,
    answer (caught engine_message logs evs e) = Failure status m
    /\ waitUntil (caught engine_message logs evs e) = None.
Proof. destruct e; cbn; eexists; eexists; split; reflexivity. Qed.

Lemma revived_result_stringify (r : TranscriptResult) :
  JSON_stringify (revived_result r) = JSON_stringify (result_value r).
Proof.
  unfold revived_result, result_value.
  cbn [JSON_stringify flat_map fst snd app]. rewrite !map_map.
  do 6 f_equal. f_equal. f_equal. f_equal.
  apply map_ext. intros p. unfold segment_value.
  destruct (start p) as [|ss| |qs], (duration p) as [|sd| |qd]; reflexivity.
Qed.

(** X13. When the transcript endpoint answers with a fresh result, it
    hands the store a write of the JSON text of that very result; the
    text parses to the result with its finite times as they are, 0 for
    -0 and null for Infinity and NaN, which is the result itself when
    all its times are finite and none is -0, and which prints as the
    same text again; and through any store that gives the parsed text
    back under the key of the write, the same request is answered with
    the parsed text, marked as a hit, whatever the upstream would say,
    with the line of the hit on the console and without another
    write. *)
Theorem post_transcript_miss_then_hit
        (engine_message : engine_fault -> jsstring)
        (Number_toString : jsnum -> jsstring)
        (kv : KVNamespace) (req_json : outcome RequestBody)
        (clientVersion : jsstring)
        (post : jsstring -> jsstring -> outcome jsval)
        (videoId language : jsstring) (data : jsval) :
  answer (post_transcript engine_message Number_toString (Some kv) req_json
                          clientVersion post)
  = Transcript videoId language data miss ->
  exists w doc r,
    waitUntil (post_transcript engine_message Number_toString (Some kv) req_json
                               clientVersion post) = Some w
    /\ write_value w = Some doc
    /\ data = result_value r
    /\ JSON_stringify data = Some doc
    /\ JSON_parse doc = revived_result r
    /\ JSON_stringify (JSON_parse doc) = Some doc
    /\ (Forall (fun p => kept (start p) /\ kept (duration p)) (parts r) ->
        JSON_parse doc = data)
    /\ forall (kv' : KVNamespace) (clientVersion' : jsstring)
              (post' : jsstring -> jsstring -> outcome jsval),
         kv_get kv' (write_key w) = Resolved (JSON_parse doc) ->
         post_transcript engine_message Number_toString (Some kv') req_json
                         clientVersion' post'
         = {| answer := Transcript videoId language (JSON_parse doc) hit;
              console := [{| level := log_;
                             message := js "Cache hit for key: " ++ write_key w;
                             detail := NoDetail |}];
              retries := [];
              waitUntil := None |}.
Proof.
  unfold post_transcript.
  destruct req_json as [body|e].
  2:{ intros H. destruct (caught_fails engine_message [] [] e) as (st & m & E & _).
      rewrite E in H. discriminate H. }
  destruct (or_else (body_videoUrl body) (body_videoId body))
    as [[|c u]|] eqn:Hurl; try discriminate.
  destruct (extractVideoId (c :: u)) as [vid|] eqn:Hid; [|discriminate].
  cbv zeta.
  destruct (check_cache kv _) as [cached logs|logs]; [discriminate|].
  destruct (getTranscript _ _ _ _ _) as [[r|e] logs'] eqn:Hget.
  2:{ intros H. destruct (caught_fails engine_message (logs ++ logs') [] e)
        as (st & m & E & _).
      rewrite E in H. discriminate H. }
  cbn [answer waitUntil]. intros H. inversion H; subst; clear H.
  destruct (result_value_revived r) as (doc & Hs & Hp).
  eexists. exists doc, r. split; [reflexivity|].
  cbn [put_in_cache write_value write_key].
  split; [exact Hs|]. split; [reflexivity|]. split; [exact Hs|].
  split; [exact Hp|].
  split; [now rewrite Hp, revived_result_stringify|].
  split; [intros Hkept; rewrite Hp; now apply revived_result_kept|].
  intros kv' clientVersion' post' Hread.
  unfold check_cache. rewrite Hread, Hp. reflexivity.
Qed.

Lemma post_transcript_miss_then_hit_witness :
  exists w doc r,
    waitUntil (post_transcript fault_message number_text (Some fresh_store)
                 (Returned sample_request) (js "2.20240101.00.00")
                 (always hello_response)) = Some w
    /\ write_value w = Some doc
    /\ result_value hello_result = result_value r
    /\ JSON_stringify (result_value hello_result) = Some doc
    /\ JSON_parse doc = revived_result r
    /\ JSON_stringify (JSON_parse doc) = Some doc
    /\ (Forall (fun p => kept (start p) /\ kept (duration p)) (parts r) ->
        JSON_parse doc = result_value hello_result)
    /\ forall (kv' : KVNamespace) (clientVersion' : jsstring)
              (post' : jsstring -> jsstring -> outcome jsval),
         kv_get kv' (write_key w) = Resolved (JSON_parse doc) ->
         post_transcript fault_message number_text (Some kv')
                         (Returned sample_request) clientVersion' post'
         = {| answer := Transcript (js "dQw4w9WgXcQ") (js "en")
                                   (JSON_parse doc) hit;
              console := [{| level := log_;
                             message := js "Cache hit for key: " ++ write_key w;
                             detail := NoDetail |}];
              retries := [];
              waitUntil := None |}.
Proof.
  apply (post_transcript_miss_then_hit fault_message number_text fresh_store
           (Returned sample_request) (js "2.20240101.00.00")
           (always hello_response)).
  vm_compute. reflexivity.
Defined.

Lemma option_value_round_trip (options : list LanguageOption) :
  exists doc,
    JSON_stringify (languages_value (Some options)) = Some doc
    /\ JSON_parse doc = languages_value (Some options).
Proof.
  unfold languages_value. cbn [JSON_stringify].
  eexists. split; [reflexivity|].
  cbn [JSON_parse]. rewrite !map_map. f_equal.
Qed.

(** X14. When the languages endpoint answers with fresh data, either
    there were no captions, the data is undefined and the write handed
    to the store has no JSON text (JSON.stringify gives undefined), or
    the write has the JSON text of the returned list and, through any
    store that gives the parsed text back under the key of the write,
    the same request is answered with the same list, marked as a hit,
    without a page request and without another write. *)
Theorem post_languages_miss_then_hit {W : Type}
        (engine_message : engine_fault -> jsstring)
        (kv : KVNamespace) (req_json : outcome RequestBody)
        (fetch_page : jsstring -> W -> video_page * W) (w : W)
        (videoId : jsstring) (data : jsval) :
  answer (post_languages engine_message (Some kv) req_json fetch_page w)
  = Languages videoId data miss ->
  exists wr,
    waitUntil (post_languages engine_message (Some kv) req_json fetch_page w)
    = Some wr
    /\ write_key wr = languages_key videoId
    /\ ((data = VUndefined /\ write_value wr = None)
        \/ exists doc,
             write_value wr = Some doc
             /\ JSON_parse doc = data
             /\ forall (kv' : KVNamespace)
                       (fetch_page' : jsstring -> W -> video_page * W) (w' : W),
                  kv_get kv' (write_key wr) = Resolved (JSON_parse doc) ->
                  post_languages engine_message (Some kv') req_json
                                 fetch_page' w'
                  = served_from_cache (Languages videoId data hit)
                                      (write_key wr)).
Proof.
  unfold post_languages.
  destruct req_json as [body|e].
  2:{ intros H. destruct (caught_fails engine_message [] [] e) as (st & m & E & _).
      rewrite E in H. discriminate H. }
  destruct (or_else (body_videoUrl body) (body_videoId body))
    as [[|c u]|] eqn:Hurl; try discriminate.
  destruct (extractVideoId (c :: u)) as [vid|] eqn:Hid; [|discriminate].
  cbv zeta.
  destruct (check_cache kv _) as [cached logs|logs]; [discriminate|].
  destruct (getLangOptionsWithLink _ _ _) as [[[l|e] w1] evs] eqn:Hget.
  2:{ intros H. destruct (caught_fails engine_message logs evs e)
        as (st & m & E & _).
      rewrite E in H. discriminate H. }
  cbn [answer waitUntil]. intros H. inversion H; subst; clear H.
  eexists. split; [reflexivity|].
  cbn [put_in_cache write_value write_key]. split; [reflexivity|].
  destruct l as [options|]; [right|left; now split].
  destruct (option_value_round_trip options) as (doc & Hs & Hp).
  exists doc. split; [exact Hs|]. split; [exact Hp|].
  intros kv' fetch_page' w' Hread.
  unfold check_cache. rewrite Hread, Hp. reflexivity.
Qed.

Lemma post_languages_miss_then_hit_witness :
  exists wr,
    waitUntil (post_languages fault_message (Some fresh_store)
                 (Returned sample_request)
                 (page_always NoCaptionsMarker) tt)
    = Some wr
    /\ write_key wr = languages_key (js "dQw4w9WgXcQ")
    /\ ((VUndefined = VUndefined /\ write_value wr = None)
        \/ exists doc,
             write_value wr = Some doc
             /\ JSON_parse doc = VUndefined
             /\ forall (kv' : KVNamespace)
                       (fetch_page' : jsstring -> unit -> video_page * unit)
                       (w' : unit),
                  kv_get kv' (write_key wr) = Resolved (JSON_parse doc) ->
                  post_languages fault_message (Some kv')
                                 (Returned sample_request) fetch_page' w'
                  = served_from_cache
                      (Languages (js "dQw4w9WgXcQ") VUndefined hit)
                      (write_key wr)).
Proof.
  apply (post_languages_miss_then_hit fault_message fresh_store
           (Returned sample_request) (page_always NoCaptionsMarker) tt).
  vm_compute. reflexivity.
Defined.

(** ** What is written to the cache *)

(** X15. Both endpoints hand the store a write only with a fresh
    result: the write is of the JSON text of the data answered, under
    the key made of the identifier resolved from the body and, for a
    transcript, of the language and the kind of the body or their
    defaults, for 3600 seconds; a failure writes nothing; and an answer
    from the cache is the value the store holds under that key, writes
    nothing, and is the same whatever the upstream would say. *)
Theorem only_fresh_results_are_written
        (engine_message : engine_fault -> jsstring)
        (Number_toString : jsnum -> jsstring)
        (MY_KV : option KVNamespace) (req_json : outcome RequestBody) :
  (forall (clientVersion : jsstring)
          (post : jsstring -> jsstring -> outcome jsval),
      let s := post_transcript engine_message Number_toString MY_KV req_json
                               clientVersion post in
      (forall status m, answer s = Failure status m -> waitUntil s = None)
      /\ (forall videoId language data cache,
            answer s = Transcript videoId language data cache ->
            exists kv body c u,
              MY_KV = Some kv /\ req_json = Returned body
              /\ or_else (body_videoUrl body) (body_videoId body) = Some (c :: u)
              /\ extractVideoId (c :: u) = Some videoId
              /\ language = or_default (body_language body) (js "en")
              /\ let cacheKey :=
                   js "transcript:" ++ videoId ++ js ":" ++ language ++ js ":"
                   ++ or_default (body_kind body) (js "asr") in
                 match cache with
                 | hit =>
                     waitUntil s = None
                     /\ kv_get kv cacheKey = Resolved data
                     /\ forall clientVersion' post',
                          post_transcript engine_message Number_toString MY_KV
                                          req_json clientVersion' post'
                          = s
                 | miss =>
                     exists wr r logs,
                       waitUntil s = Some wr
                       /\ write_key wr = cacheKey
                       /\ write_value wr = JSON_stringify data
                       /\ write_ttl wr = 3600%Z
                       /\ getTranscript Number_toString clientVersion post videoId
                            {| language := language;
                               languageCode := language;
                               kind := or_default (body_kind body) (js "asr") |}
                          = (Returned r, logs)
                       /\ data = result_value r
                 end))
  /\ (forall (W : Type) (fetch_page : jsstring -> W -> video_page * W) (w : W),
         let s := post_languages engine_message MY_KV req_json fetch_page w in
         (forall status m, answer s = Failure status m -> waitUntil s = None)
         /\ (forall videoId data cache,
               answer s = Languages videoId data cache ->
               exists kv body c u,
                 MY_KV = Some kv /\ req_json = Returned body
                 /\ or_else (body_videoUrl body) (body_videoId body)
                    = Some (c :: u)
                 /\ extractVideoId (c :: u) = Some videoId
                 /\ let cacheKey := js "languages:" ++ videoId in
                    match cache with
                    | hit =>
                        waitUntil s = None /\ retries s = []
                        /\ kv_get kv cacheKey = Resolved data
                        /\ forall (W' : Type)
                                  (fetch_page' : jsstring -> W' -> video_page * W')
                                  (w' : W'),
                             post_languages engine_message MY_KV req_json
                                            fetch_page' w'
                             = s
                    | miss =>
                        exists wr languagesData w' evs,
                          waitUntil s = Some wr
                          /\ write_key wr = cacheKey
                          /\ write_value wr = JSON_stringify data
                          /\ write_ttl wr = 3600%Z
                          /\ getLangOptionsWithLink fetch_page videoId w
                             = (Returned languagesData, w', evs)
                          /\ data = languages_value languagesData
                    end)).
Proof.
  split.
  - intros clientVersion post. cbv zeta. unfold post_transcript.
    destruct MY_KV as [kv|]; [|split; [reflexivity|discriminate]].
    destruct req_json as [body|e].
    2:{ destruct (caught_fails engine_message [] [] e) as (st & m & E1 & E2).
        rewrite E2. split; [reflexivity|]. rewrite E1. discriminate. }
    destruct (or_else (body_videoUrl body) (body_videoId body))
      as [[|c u]|] eqn:Hurl; try (split; [reflexivity|discriminate]).
    destruct (extractVideoId (c :: u)) as [vid|] eqn:Hid;
      [|split; [reflexivity|discriminate]].
    unfold DEFAULT_TRANSCRIPT_LANGUAGE, DEFAULT_TRANSCRIPT_KIND.
    unfold check_cache.
    destruct (kv_get kv _) as [cachedData|kvError] eqn:Hread.
    + destruct (truthy cachedData) eqn:Htruthy.
      * split; [discriminate|].
        intros videoId language data cache H. cbn [answer] in H.
        inversion H; subst; clear H.
        exists kv, body, c, u. do 5 (split; [reflexivity || assumption|]).
        cbv zeta. cbn [waitUntil]. split; [reflexivity|].
        split; [exact Hread|].
        intros clientVersion' post'. reflexivity.
      * destruct (getTranscript _ _ _ _ _) as [[r|e] logs'] eqn:Hget.
        -- split; [discriminate|].
           intros videoId language data cache H. cbn [answer] in H.
           inversion H; subst; clear H.
           exists kv, body, c, u. do 5 (split; [reflexivity || assumption|]).
           cbv zeta. eexists. exists r, logs'. cbn [waitUntil].
           split; [reflexivity|]. repeat split. exact Hget.
        -- destruct (caught_fails engine_message
                       ([cache_miss_log
                           (js "transcript:" ++ vid ++ js ":"
                            ++ or_default (body_language body) (js "en")
                            ++ js ":"
                            ++ or_default (body_kind body) (js "asr"))]
                        ++ logs') [] e)
             as (st & m & E1 & E2).
           rewrite E2. split; [reflexivity|]. rewrite E1. discriminate.
    + destruct (getTranscript _ _ _ _ _) as [[r|e] logs'] eqn:Hget.
      * split; [discriminate|].
        intros videoId language data cache H. cbn [answer] in H.
        inversion H; subst; clear H.
        exists kv, body, c, u. do 5 (split; [reflexivity || assumption|]).
        cbv zeta. eexists. exists r, logs'. cbn [waitUntil].
        split; [reflexivity|]. repeat split. exact Hget.
      * match goal with
        | |- context [caught ?em ?l ?ev e] =>
            destruct (caught_fails em l ev e) as (st & m & E1 & E2)
        end.
        rewrite E2. split; [reflexivity|]. rewrite E1. discriminate.
  - intros W fetch_page w. cbv zeta. unfold post_languages.
    destruct MY_KV as [kv|]; [|split; [reflexivity|discriminate]].
    destruct req_json as [body|e].
    2:{ destruct (caught_fails engine_message [] [] e) as (st & m & E1 & E2).
        rewrite E2. split; [reflexivity|]. rewrite E1. discriminate. }
    destruct (or_else (body_videoUrl body) (body_videoId body))
      as [[|c u]|] eqn:Hurl; try (split; [reflexivity|discriminate]).
    destruct (extractVideoId (c :: u)) as [vid|] eqn:Hid;
      [|split; [reflexivity|discriminate]].
    unfold check_cache.
    destruct (kv_get kv _) as [cachedData|kvError] eqn:Hread.
    + destruct (truthy cachedData) eqn:Htruthy.
      * split; [discriminate|].
        intros videoId data cache H. cbn [answer] in H.
        inversion H; subst; clear H.
        exists kv, body, c, u. do 4 (split; [reflexivity || assumption|]).
        cbv zeta. cbn [waitUntil retries]. do 2 (split; [reflexivity|]).
        split; [exact Hread|].
        intros W' fetch_page' w'. reflexivity.
      * destruct (getLangOptionsWithLink _ _ _) as [[[l|e] w1] evs] eqn:Hget.
        -- split; [discriminate|].
           intros videoId data cache H. cbn [answer] in H.
           inversion H; subst; clear H.
           exists kv, body, c, u. do 4 (split; [reflexivity || assumption|]).
           cbv zeta. eexists. exists l, w1, evs. cbn [waitUntil].
           split; [reflexivity|]. repeat split. exact Hget.
        -- match goal with
           | |- context [caught ?em ?l ?ev e] =>
               destruct (caught_fails em l ev e) as (st & m & E1 & E2)
           end.
           rewrite E2. split; [reflexivity|]. rewrite E1. discriminate.
    + destruct (getLangOptionsWithLink _ _ _) as [[[l|e] w1] evs] eqn:Hget.
      * split; [discriminate|].
        intros videoId data cache H. cbn [answer] in H.
        inversion H; subst; clear H.
        exists kv, body, c, u. do 4 (split; [reflexivity || assumption|]).
        cbv zeta. eexists. exists l, w1, evs. cbn [waitUntil].
        split; [reflexivity|]. repeat split. exact Hget.
      * match goal with
        | |- context [caught ?em ?l ?ev e] =>
            destruct (caught_fails em l ev e) as (st & m & E1 & E2)
        end.
        rewrite E2. split; [reflexivity|]. rewrite E1. discriminate.
Qed.

Lemma only_fresh_results_are_written_witness :
  exists kv body c u,
    Some (holding (js "transcript:dQw4w9WgXcQ:fr:standard")
                  (obj1 "transcript" (VStr (js "Bonjour")))) = Some kv
    /\ Returned french_request = Returned body
    /\ or_else (body_videoUrl body) (body_videoId body) = Some (c :: u)
    /\ extractVideoId (c :: u) = Some (js "dQw4w9WgXcQ")
    /\ js "fr" = or_default (body_language body) (js "en")
    /\ waitUntil
         (post_transcript fault_message number_text
            (Some (holding (js "transcript:dQw4w9WgXcQ:fr:standard")
                           (obj1 "transcript" (VStr (js "Bonjour")))))
            (Returned french_request) (js "2.20240101.00.00")
            (always hello_response)) = None
    /\ kv_get kv (js "transcript:" ++ js "dQw4w9WgXcQ" ++ js ":" ++ js "fr"
                  ++ js ":" ++ or_default (body_kind body) (js "asr"))
       = Resolved (obj1 "transcript" (VStr (js "Bonjour")))
    /\ forall clientVersion' post',
         post_transcript fault_message number_text
            (Some (holding (js "transcript:dQw4w9WgXcQ:fr:standard")
                           (obj1 "transcript" (VStr (js "Bonjour")))))
            (Returned french_request) clientVersion' post'
         = post_transcript fault_message number_text
            (Some (holding (js "transcript:dQw4w9WgXcQ:fr:standard")
                           (obj1 "transcript" (VStr (js "Bonjour")))))
            (Returned french_request) (js "2.20240101.00.00")
            (always hello_response).
Proof.
  pose proof (proj2 (proj1 (only_fresh_results_are_written
                              fault_message number_text
                              (Some (holding
                                       (js "transcript:dQw4w9WgXcQ:fr:standard")
                                       (obj1 "transcript" (VStr (js "Bonjour")))))
                              (Returned french_request))
                       (js "2.20240101.00.00") (always hello_response))
                (js "dQw4w9WgXcQ") (js "fr")
                (obj1 "transcript" (VStr (js "Bonjour"))) hit) as H.
  cbv zeta in H. apply H. vm_compute. reflexivity.
Defined.

(** ** The status of a failure *)

Lemma caught_status (engine_message : engine_fault -> jsstring)
      (logs : list log_entry) (evs : list retry_event) (e : js_error)
      (status : Z) (m : jsstring) :
  answer (caught engine_message logs evs e) = Failure status m ->
  e = TranscriptError m status
  \/ (~ is_TranscriptError e /\ status = 500%Z).
Proof.
  destruct e as [m' st|m'|f]; cbn [caught answer]; intros H; inversion H; subst.
  - now left.
  - right. split; [intros (x & y & E); discriminate E|reflexivity].
  - right. split; [intros (x & y & E); discriminate E|reflexivity].
Qed.

(** X16. The transcript endpoint fails with the status 400, 404 or 500
    and no other, as long as neither the reading of the request body nor
    the request upstream throws a TranscriptError of its own. *)
Theorem post_transcript_statuses
        (engine_message : engine_fault -> jsstring)
        (Number_toString : jsnum -> jsstring)
        (MY_KV : option KVNamespace) (req_json : outcome RequestBody)
        (clientVersion : jsstring)
        (post : jsstring -> jsstring -> outcome jsval)
        (status : Z) (m : jsstring) :
  (forall e, req_json = Thrown e -> ~ is_TranscriptError e) ->
  (forall params e, post clientVersion params = Thrown e ->
                    ~ is_TranscriptError e) ->
  answer (post_transcript engine_message Number_toString MY_KV req_json clientVersion post)
  = Failure status m ->
  status = 400%Z \/ status = 404%Z \/ status = 500%Z.
Proof.
  intros Hreq Hpost. unfold post_transcript.
  destruct MY_KV as [kv|]; [|intros H; inversion H; tauto].
  destruct req_json as [body|e].
  2:{ intros H. apply caught_status in H. destruct H as [E|[_ E]]; [|tauto].
      exfalso. apply (Hreq e eq_refl). subst e. eexists; eexists; reflexivity. }
  destruct (or_else (body_videoUrl body) (body_videoId body))
    as [[|c u]|] eqn:Hurl; try (intros H; inversion H; tauto).
  destruct (extractVideoId (c :: u)) as [vid|] eqn:Hid;
    [|intros H; inversion H; tauto].
  cbv zeta.
  destruct (check_cache kv _) as [cached logs|logs]; [discriminate|].
  destruct (getTranscript _ _ _ _ _) as [[r|e] logs'] eqn:Hget; [discriminate|].
  intros H. apply caught_status in H. destruct H as [E|[_ E]]; [|tauto].
  apply getTranscript_thrown in Hget.
  destruct Hget as [Hg|[(params & _ & Hg)|[Hg|[Hg|[Hg|[(what & Hg)|Hg]]]]]];
    rewrite E in Hg; try discriminate Hg.
  - exfalso. apply (Hpost params _ Hg). eexists; eexists; reflexivity.
  - inversion Hg. tauto.
  - inversion Hg. tauto.
  - inversion Hg. tauto.
Qed.

Lemma post_transcript_statuses_witness :
  404%Z = 400%Z \/ 404%Z = 404%Z \/ 404%Z = 500%Z.
Proof.
  apply (post_transcript_statuses fault_message number_text
           (Some fresh_store)
           (Returned sample_request) (js "2.20240101.00.00")
           (always sample_no_transcript) 404
           (js "No transcript found for this video in the specified language ('en').")).
  - intros e H. discriminate H.
  - intros params e H. discriminate H.
  - vm_compute. reflexivity.
Defined.

(** ** The order and the fields of the language options *)

Section ExactSort.

Context {T : Type}.
Variable comparefn : T -> T -> Z.
Variable p : T -> bool.
Hypothesis below_iff : forall x y, (comparefn x y <? 0)%Z = p x.

(** One [sort] call with such a comparator: the elements with the
    property come first, the last of them first, then the others in
    their original order. *)
Lemma array_sort_exact (a : list T) :
  array_sort comparefn a
  = rev (filter p a) ++ filter (fun x => negb (p x)) a.
Proof.
  unfold array_sort, countAndMakeRun.
  destruct a as [|a0 [|a1 rest]].
  - reflexivity.
  - cbn. destruct (p a0); reflexivity.
  - rewrite below_iff.
    destruct (p a1) eqn:Hp1.
    + destruct (extend_run comparefn true a1 rest) as [run tail] eqn:E.
      destruct (extend_run_descending comparefn p below_iff _ _ _ _ E)
        as [-> Hall].
      destruct (filter_all p run Hall) as [Hin Hout].
      rewrite (binaryInsertionSort_shape comparefn p below_iff).
      cbn [filter]. rewrite Hp1. cbn [negb].
      rewrite !filter_app, Hin, Hout. cbn [app rev].
      destruct (p a0) eqn:Hp0; cbn [negb rev app];
        rewrite ?rev_app_distr, <- ?app_assoc; reflexivity.
    + destruct (extend_run comparefn false a1 rest) as [run tail] eqn:E.
      destruct (extend_run_ascending comparefn p below_iff _ _ _ _ E)
        as [-> Hall].
      destruct (filter_none p run Hall) as [Hin Hout].
      rewrite (binaryInsertionSort_shape comparefn p below_iff).
      cbn [filter]. rewrite Hp1. cbn [negb].
      rewrite !filter_app, Hin, Hout. cbn [app].
      destruct (p a0) eqn:Hp0; cbn [negb rev app];
        rewrite <- ?app_assoc; reflexivity.
Qed.

End ExactSort.

Lemma filter_english_of_others (l : list jsstring) :
  filter is_English (filter (fun x => negb (has_English x)) l) = [].
Proof.
  induction l as [|x l IH]; cbn; [reflexivity|].
  destruct (has_English x) eqn:Hh; cbn; [assumption|].
  destruct (is_English x) eqn:Hi; [|assumption].
  apply is_English_has_English in Hi. congruence.
Qed.

Lemma filter_english_of_containing (l : list jsstring) :
  filter is_English (filter has_English l) = filter is_English l.
Proof.
  induction l as [|x l IH]; cbn; [reflexivity|].
  destruct (has_English x) eqn:Hh; cbn.
  - destruct (is_English x); now rewrite IH.
  - destruct (is_English x) eqn:Hi; [|assumption].
    apply is_English_has_English in Hi. congruence.
Qed.

Lemma filter_rev_comm {T : Type} (f : T -> bool) (l : list T) :
  filter f (rev l) = rev (filter f l).
Proof.
  induction l as [|x l IH]; [reflexivity|].
  cbn [rev filter]. rewrite filter_app, IH. cbn [filter].
  destruct (f x); cbn [rev]; [reflexivity|apply app_nil_r].
Qed.

(** The net effect of the two sorts, order included. *)
Lemma sort_names_exact (names : list jsstring) :
  sort_names names
  = filter is_English names
    ++ rev (filter (fun x => has_English x && negb (is_English x)) names)
    ++ filter (fun x => negb (has_English x)) names.
Proof.
  unfold sort_names.
  rewrite (array_sort_exact compare_equals is_English compare_equals_below).
  rewrite (array_sort_exact compare_includes has_English
             compare_includes_below).
  rewrite !filter_app, !filter_rev_comm.
  rewrite filter_english_of_others, filter_english_of_containing.
  rewrite filter_filter_other, filter_filter_english.
  now rewrite app_nil_r, rev_involutive.
Qed.

Lemma languageOptionsOf_returns (captionTracks : list CaptionTrack) :
  exists options,
    languageOptionsOf captionTracks = Returned options
    /\ map language options = sort_names (map track_name captionTracks).
Proof.
  unfold languageOptionsOf. apply map_outcome_options.
  intros x Hx. eapply Permutation_in; [apply sort_names_Permutation|exact Hx].
Qed.

Lemma map_outcome_Forall {A B : Type} (f : A -> outcome B) (P : A -> B -> Prop) :
  (forall x y, f x = Returned y -> P x y) ->
  forall xs ys, map_outcome f xs = Returned ys -> Forall2 P xs ys.
Proof.
  intros HP. induction xs as [|x xs IH]; intros ys; cbn [map_outcome].
  - intros H; inversion H. constructor.
  - destruct (f x) as [y|e] eqn:Hx; [|discriminate].
    cbn [bind_outcome].
    destruct (map_outcome f xs) as [ys'|e]; [|discriminate].
    cbn [bind_outcome]. intros H; inversion H; subst.
    constructor; [now apply HP | now apply IH].
Qed.

(** X17. The order of the options, with the sort of V8 for arrays
    shorter than 64 that the model embeds: the names that are exactly
    "English" first, then the other names that contain "English" in the
    reverse of the order of their tracks, then the remaining names in
    the order of their tracks. *)
Theorem languageOptionsOf_order (captionTracks : list CaptionTrack) :
  let names := map track_name captionTracks in
  exists options,
    languageOptionsOf captionTracks = Returned options
    /\ map language options
       = filter is_English names
         ++ rev (filter (fun x => has_English x && negb (is_English x)) names)
         ++ filter (fun x => negb (has_English x)) names.
Proof.
  intros names.
  destruct (languageOptionsOf_returns captionTracks) as (options & Ho & Hmap).
  exists options. split; [exact Ho|].
  rewrite Hmap. apply sort_names_exact.
Qed.

(** X18. Every option carries the language code and the kind of the
    first track that has its name, with the kind "manual" when that
    track has none or an empty one, so that the kind is never empty; two
    options of the same name are therefore the same option, and a later
    track of a name already seen is not reachable. *)
Theorem languageOptionsOf_fields (captionTracks : list CaptionTrack)
        (options : list LanguageOption) :
  languageOptionsOf captionTracks = Returned options ->
  Forall (fun o =>
            kind o <> []
            /\ exists t,
                 find (fun i => str_eqb (track_name i) (language o))
                      captionTracks = Some t
                 /\ languageCode o = track_languageCode t
                 /\ kind o = or_default (track_kind t) (js "manual"))
         options
  /\ forall o1 o2, In o1 options -> In o2 options ->
                   language o1 = language o2 -> o1 = o2.
Proof.
  intros H. unfold languageOptionsOf in H.
  assert (Hall :
            Forall (fun o =>
                      exists t,
                        find (fun i => str_eqb (track_name i) (language o))
                             captionTracks = Some t
                        /\ o = {| language := language o;
                                  languageCode := track_languageCode t;
                                  kind := or_default (track_kind t)
                                                     (js "manual") |})
                   options).
  { apply (map_outcome_Forall _
             (fun langName o =>
                exists t,
                  find (fun i => str_eqb (track_name i) (language o))
                       captionTracks = Some t
                  /\ o = {| language := language o;
                            languageCode := track_languageCode t;
                            kind := or_default (track_kind t) (js "manual") |}))
      in H.
    - clear -H. induction H; constructor; assumption.
    - intros langName o. unfold option_for.
      destruct (find _ captionTracks) as [t|] eqn:Hfind; [|discriminate].
      intros Ho; inversion Ho; subst o; clear Ho. cbn [language].
      exists t. split; [exact Hfind|reflexivity]. }
  split.
  - eapply Forall_impl; [|exact Hall].
    intros [ol oc ok] (t & Hfind & Ho).
    cbn [language languageCode kind] in *. injection Ho as Hc Hk. split.
    + rewrite Hk. unfold or_default.
      destruct (track_kind t) as [[|c k]|]; discriminate.
    + exists t. repeat split; assumption.
  - intros o1 o2 H1 H2 Hname.
    rewrite Forall_forall in Hall.
    destruct (Hall o1 H1) as (t1 & Hf1 & E1).
    destruct (Hall o2 H2) as (t2 & Hf2 & E2).
    rewrite Hname in Hf1. rewrite Hf1 in Hf2. inversion Hf2; subst t2.
    rewrite E1, E2, Hname. reflexivity.
Qed.

Lemma languageOptionsOf_fields_witness :
  exists options,
    languageOptionsOf sample_tracks = Returned options
    /\ Forall (fun o =>
                 kind o <> []
                 /\ exists t,
                      find (fun i => str_eqb (track_name i) (language o))
                           sample_tracks = Some t
                      /\ languageCode o = track_languageCode t
                      /\ kind o = or_default (track_kind t) (js "manual"))
              options.
Proof.
  eexists. split; [vm_compute; reflexivity|].
  apply (languageOptionsOf_fields sample_tracks). vm_compute. reflexivity.
Defined.

Lemma discover_once_thrown {W : Type}
      (fetch_page : jsstring -> W -> video_page * W)
      (videoId : jsstring) (w : W) (e : js_error) :
  fst (discover_once fetch_page videoId w) = Thrown e ->
  fst (fetch_page videoId w) = FetchFailed e \/ ~ is_TranscriptError e.
Proof.
  unfold discover_once.
  destruct (fetch_page videoId w) as [[e'|st tx| |pm| |tracks] w']; cbn [fst];
    intros H; try discriminate H;
    try (inversion H; subst; right; intros (x & y & E); discriminate E).
  - inversion H. now left.
  - right. intros (x & y & E). subst e.
    destruct (languageOptionsOf_returns tracks) as (options & Ho & _).
    rewrite Ho in H. discriminate H.
Qed.

Lemma first_outcomes_length {W A : Type} (fn : W -> outcome A * W) (n : nat) :
  forall w, List.length (first_outcomes fn n w) = n.
Proof.
  induction n as [|n IH]; intros w; cbn [first_outcomes]; [reflexivity|].
  destruct (fn w) as [r w']. cbn [List.length]. now rewrite IH.
Qed.

(** The last of the outcomes of successive calls is the outcome of a
    call. *)
Lemma last_outcome {W A : Type} (fn : W -> outcome A * W) (n : nat) :
  forall (w : W) (l : list (outcome A)) (res : outcome A),
    first_outcomes fn (S n) w = l ++ [res] ->
    exists w', fst (fn w') = res.
Proof.
  induction n as [|n IH]; intros w l res;
    change (first_outcomes fn (S ?k) w)
      with (let (r, w') := fn w in r :: first_outcomes fn k w');
    destruct (fn w) as [r w'] eqn:Hfn.
  - cbn [first_outcomes]. intros H. exists w. rewrite Hfn. cbn [fst].
    destruct l as [|x [|y l]]; inversion H; reflexivity.
  - intros H. destruct l as [|x l].
    + apply (f_equal (@List.length _)) in H.
      cbn [List.length app] in H. rewrite first_outcomes_length in H. lia.
    + inversion H. eapply IH. eassumption.
Qed.

Lemma getLangOptionsWithLink_thrown {W : Type}
      (fetch_page : jsstring -> W -> video_page * W)
      (videoId : jsstring) (w w1 : W) (e : js_error)
      (evs : list retry_event) :
  getLangOptionsWithLink fetch_page videoId w = (Thrown e, w1, evs) ->
  (exists w', fst (fetch_page videoId w') = FetchFailed e)
  \/ ~ is_TranscriptError e.
Proof.
  unfold getLangOptionsWithLink, retryWithBackoff. intros H.
  pose proof (retry_from_run (discover_once fetch_page videoId)
                INITIAL_RETRY_DELAY MAX_RETRIES 0 w) as Hrun.
  rewrite H in Hrun. destruct Hrun as (es & _ & Hout & _).
  apply last_outcome in Hout. destruct Hout as (w' & Hout).
  apply discover_once_thrown in Hout.
  destruct Hout as [Hf|Hn]; [left; now exists w'|now right].
Qed.

(** X19. The languages endpoint fails with the status 400 or 500 and no
    other (a video without captions is not a failure), as long as
    neither the reading of the request body nor the page request throws
    a TranscriptError of its own. *)
Theorem post_languages_statuses {W : Type}
        (engine_message : engine_fault -> jsstring)
        (MY_KV : option KVNamespace) (req_json : outcome RequestBody)
        (fetch_page : jsstring -> W -> video_page * W) (w : W)
        (status : Z) (m : jsstring) :
  (forall e, req_json = Thrown e -> ~ is_TranscriptError e) ->
  (forall videoId w' e, fst (fetch_page videoId w') = FetchFailed e ->
                        ~ is_TranscriptError e) ->
  answer (post_languages engine_message MY_KV req_json fetch_page w)
  = Failure status m ->
  status = 400%Z \/ status = 500%Z.
Proof.
  intros Hreq Hfetch. unfold post_languages.
  destruct MY_KV as [kv|]; [|intros H; inversion H; tauto].
  destruct req_json as [body|e].
  2:{ intros H. apply caught_status in H. destruct H as [E|[_ E]]; [|tauto].
      exfalso. apply (Hreq e eq_refl). subst e. eexists; eexists; reflexivity. }
  destruct (or_else (body_videoUrl body) (body_videoId body))
    as [[|c u]|] eqn:Hurl; try (intros H; inversion H; tauto).
  destruct (extractVideoId (c :: u)) as [vid|] eqn:Hid;
    [|intros H; inversion H; tauto].
  cbv zeta.
  destruct (check_cache kv _) as [cached logs|logs]; [discriminate|].
  destruct (getLangOptionsWithLink _ _ _) as [[[l|e] w1] evs] eqn:Hget;
    [discriminate|].
  intros H. apply caught_status in H. destruct H as [E|[_ E]]; [|tauto].
  exfalso. apply getLangOptionsWithLink_thrown in Hget.
  assert (Hte : is_TranscriptError e) by (subst e; eexists; eexists; reflexivity).
  destruct Hget as [(w' & Hf)|Hn]; [|exact (Hn Hte)].
  exact (Hfetch vid w' e Hf Hte).
Qed.

Lemma post_languages_statuses_witness : 500%Z = 400%Z \/ 500%Z = 500%Z.
Proof.
  apply (post_languages_statuses fault_message (Some fresh_store)
           (Returned sample_request)
           (page_always CaptionsWithoutTracks) tt 500
           (js "Caption tracks not found in response")).
  - intros e H. discriminate H.
  - intros videoId w' e H. discriminate H.
  - vm_compute. reflexivity.
Defined.

(** ** The keys of the cache *)

Lemma app_inv_length {T : Type} (a a' b b' : list T) :
  List.length a = List.length a' -> a ++ b = a' ++ b' -> a = a' /\ b = b'.
Proof.
  revert a'. induction a as [|x a IH]; intros [|x' a'] Hlen H;
    try discriminate Hlen.
  - now split.
  - cbn in H. inversion H; subst.
    destruct (IH a') as [-> ->]; [now inversion Hlen|assumption|now split].
Qed.

Lemma split_at_first (c : N) (l l' k k' : jsstring) :
  forallb (fun x => negb (x =? c)) l = true ->
  forallb (fun x => negb (x =? c)) l' = true ->
  l ++ c :: k = l' ++ c :: k' -> l = l' /\ k = k'.
Proof.
  revert l'. induction l as [|x l IH]; intros [|x' l'] Hl Hl' H; cbn in *.
  - inversion H. now split.
  - inversion H; subst x'. now rewrite N.eqb_refl in Hl'.
  - inversion H; subst x. now rewrite N.eqb_refl in Hl.
  - inversion H; subst x'.
    apply andb_prop in Hl. apply andb_prop in Hl'.
    destruct (IH l') as [-> ->]; [tauto|tauto|assumption|now split].
Qed.

(** X20. The key of the transcript cache tells the requests apart: for
    identifiers of videos and language codes without a colon, two keys
    are the same only when the video, the language and the kind are the
    same.  A colon in the language breaks this: the language a:b with
    the kind c has the key of the language a with the kind b:c. *)
Theorem transcript_key_injective
        (videoId videoId' language language' kind kind' : jsstring) :
  is_video_id videoId -> is_video_id videoId' ->
  colon_free language -> colon_free language' ->
  (transcript_key videoId language kind
   = transcript_key videoId' language' kind'
   -> videoId = videoId' /\ language = language' /\ kind = kind')
  /\ forall a b c,
       transcript_key videoId (a ++ js ":" ++ b) c
       = transcript_key videoId a (b ++ js ":" ++ c).
Proof.
  intros [Hlen _] [Hlen' _] Hl Hl'. split.
  - unfold transcript_key. intros H.
    apply app_inv_head in H.
    apply app_inv_length in H; [|congruence].
    destruct H as [-> H]. change (js ":") with [58] in H. cbn [app] in H.
    inversion H as [H'].
    apply split_at_first in H'; [|assumption|assumption].
    now destruct H' as [-> ->].
  - intros a b c. unfold transcript_key.
    now rewrite <- !app_assoc.
Qed.

Lemma transcript_key_injective_witness :
  (transcript_key (js "dQw4w9WgXcQ") (js "en") (js "asr")
   = transcript_key (js "dQw4w9WgXcQ") (js "en") (js "asr")
   -> js "dQw4w9WgXcQ" = js "dQw4w9WgXcQ" /\ js "en" = js "en"
      /\ js "asr" = js "asr")
  /\ forall a b c,
       transcript_key (js "dQw4w9WgXcQ") (a ++ js ":" ++ b) c
       = transcript_key (js "dQw4w9WgXcQ") a (b ++ js ":" ++ c).
Proof.
  apply (transcript_key_injective (js "dQw4w9WgXcQ") (js "dQw4w9WgXcQ")
           (js "en") (js "en") (js "asr") (js "asr")).
  - split; reflexivity.
  - split; reflexivity.
  - reflexivity.
  - reflexivity.
Defined.

(** ** Tokens tell their requests apart *)

Lemma b64_index_char (i : N) : i < 64 -> b64_index (b64_char i) = i.
Proof.
  intros Hi.
  assert (H : forall n, (n < 64)%nat ->
                        b64_index (b64_char (N.of_nat n)) = N.of_nat n).
  { intros n Hn.
    do 64 (destruct n as [|n]; [vm_compute; reflexivity|]). lia. }
  rewrite <- (N2Nat.id i). apply H. lia.
Qed.

Lemma b64_char_not_padding (i : N) : i < 64 -> b64_char i <> 61.
Proof.
  intros Hi E. apply (f_equal b64_index) in E.
  rewrite (b64_index_char i Hi) in E. vm_compute in E. subst i. discriminate Hi.
Qed.

Lemma b64_char_injective (i j : N) :
  i < 64 -> j < 64 -> b64_char i = b64_char j -> i = j.
Proof.
  intros Hi Hj E. apply (f_equal b64_index) in E.
  now rewrite !b64_index_char in E.
Qed.

Lemma b64_char_text (i : N) : i < 64 -> b64_text (b64_char i) = true.
Proof.
  intros Hi. unfold b64_text. rewrite (b64_index_char i Hi).
  apply N.ltb_lt in Hi. now rewrite Hi.
Qed.

(** Quotient and remainder of a byte, as two numbers. *)
Ltac split_byte a d :=
  let H1 := fresh "Hsplit" in
  let H2 := fresh "Hrem" in
  pose proof (N.div_mod a d ltac:(lia)) as H1;
  pose proof (N.mod_lt a d ltac:(lia)) as H2;
  generalize dependent (a / d); generalize dependent (a mod d); intros.

Lemma sextet_bounds (a b c : N) :
  a <= 255 -> b <= 255 -> c <= 255 ->
  a / 4 < 64 /\ (a mod 4) * 16 + b / 16 < 64 /\ (a mod 4) * 16 < 64
  /\ (b mod 16) * 4 + c / 64 < 64 /\ (b mod 16) * 4 < 64 /\ c mod 64 < 64.
Proof.
  intros Ha Hb Hc. split_byte a 4. split_byte b 16. split_byte c 64. lia.
Qed.

Lemma sextets_injective (a b c a' b' c' : N) :
  a <= 255 -> b <= 255 -> c <= 255 -> a' <= 255 -> b' <= 255 -> c' <= 255 ->
  a / 4 = a' / 4 ->
  (a mod 4) * 16 + b / 16 = (a' mod 4) * 16 + b' / 16 ->
  (b mod 16) * 4 + c / 64 = (b' mod 16) * 4 + c' / 64 ->
  c mod 64 = c' mod 64 ->
  a = a' /\ b = b' /\ c = c'.
Proof.
  intros Ha Hb Hc Ha' Hb' Hc' E1 E2 E3 E4.
  split_byte a 4. split_byte b 16. split_byte c 64.
  split_byte a' 4. split_byte b' 16. split_byte c' 64. lia.
Qed.

(** The four characters of a group of three bytes, and the bytes they
    stand for. *)
Lemma b64_group_injective (a b c a' b' c' : N) :
  a <= 255 -> b <= 255 -> c <= 255 -> a' <= 255 -> b' <= 255 -> c' <= 255 ->
  b64_char (a / 4) = b64_char (a' / 4) ->
  b64_char ((a mod 4) * 16 + b / 16) = b64_char ((a' mod 4) * 16 + b' / 16) ->
  b64_char ((b mod 16) * 4 + c / 64) = b64_char ((b' mod 16) * 4 + c' / 64) ->
  b64_char (c mod 64) = b64_char (c' mod 64) ->
  a = a' /\ b = b' /\ c = c'.
Proof.
  intros Ha Hb Hc Ha' Hb' Hc' E1 E2 E3 E4.
  destruct (sextet_bounds a b c Ha Hb Hc) as (B1 & B2 & _ & B3 & _ & B4).
  destruct (sextet_bounds a' b' c' Ha' Hb' Hc') as (B1' & B2' & _ & B3' & _ & B4').
  apply b64_char_injective in E1, E2, E3, E4; try assumption.
  now apply sextets_injective.
Qed.

Lemma b64_group1_injective (a a' : N) :
  a <= 255 -> a' <= 255 ->
  b64_char (a / 4) = b64_char (a' / 4) ->
  b64_char ((a mod 4) * 16) = b64_char ((a' mod 4) * 16) ->
  a = a'.
Proof.
  intros Ha Ha' E1 E2.
  destruct (sextet_bounds a a a Ha Ha Ha) as (B1 & _ & B2 & _).
  destruct (sextet_bounds a' a' a' Ha' Ha' Ha') as (B1' & _ & B2' & _).
  apply b64_char_injective in E1, E2; try assumption.
  split_byte a 4. split_byte a' 4. lia.
Qed.

Lemma b64_group2_injective (a b a' b' : N) :
  a <= 255 -> b <= 255 -> a' <= 255 -> b' <= 255 ->
  b64_char (a / 4) = b64_char (a' / 4) ->
  b64_char ((a mod 4) * 16 + b / 16) = b64_char ((a' mod 4) * 16 + b' / 16) ->
  b64_char ((b mod 16) * 4) = b64_char ((b' mod 16) * 4) ->
  a = a' /\ b = b'.
Proof.
  intros Ha Hb Ha' Hb' E1 E2 E3.
  destruct (sextet_bounds a b b Ha Hb Hb) as (B1 & B2 & _ & _ & B3 & _).
  destruct (sextet_bounds a' b' b' Ha' Hb' Hb') as (B1' & B2' & _ & _ & B3' & _).
  apply b64_char_injective in E1, E2, E3; try assumption.
  split_byte a 4. split_byte b 16. split_byte a' 4. split_byte b' 16. lia.
Qed.

Lemma b64_groups_nil (bs : list N) : b64_groups bs = [] -> bs = [].
Proof. destruct bs as [|a [|b [|c l]]]; [reflexivity|discriminate..]. Qed.

Ltac bytes_of H :=
  unfold is_binary in H; cbn [forallb] in H;
  repeat (apply andb_prop in H; let Hx := fresh "Hbyte" in destruct H as [Hx H];
          try apply N.leb_le in Hx).

(** A padding character where the other text has a character of the
    alphabet. *)
Ltac padding_clash E a b c :=
  first [ apply b64_char_not_padding in E | symmetry in E; apply b64_char_not_padding in E ];
  [ contradiction
  | destruct (sextet_bounds a b c) as (? & ? & ? & ? & ? & ?);
    try assumption; try lia ].

Lemma b64_groups_injective (bs : list N) :
  forall bs',
    is_binary bs = true -> is_binary bs' = true ->
    b64_groups bs = b64_groups bs' -> bs = bs'.
Proof.
  induction bs as [|a|a b|a b c l IH] using list_ind3; intros bs' Hb Hb' E.
  - symmetry. apply b64_groups_nil. now symmetry.
  - destruct bs' as [|a' [|b' [|c' l']]]; cbn [b64_groups] in E;
      try discriminate E; bytes_of Hb; bytes_of Hb'.
    + inversion E as [[E1 E2]].
      now rewrite (b64_group1_injective a a').
    + inversion E as [[E1 E2 E3]]. padding_clash E3 b' b' 0.
    + inversion E as [[E1 E2 E3 E4 E5]]. padding_clash E3 b' b' c'.
  - destruct bs' as [|a' [|b' [|c' l']]]; cbn [b64_groups] in E;
      try discriminate E; bytes_of Hb; bytes_of Hb'.
    + inversion E as [[E1 E2 E3]]. padding_clash E3 b b 0.
    + inversion E as [[E1 E2 E3]].
      destruct (b64_group2_injective a b a' b') as (-> & ->);
        try assumption; reflexivity.
    + inversion E as [[E1 E2 E3 E4 E5]]. padding_clash E4 c' c' c'.
  - destruct bs' as [|a' [|b' [|c' l']]]; cbn [b64_groups] in E;
      try discriminate E.
    + inversion E as [[E1 E2 E3 E4 E5]]. bytes_of Hb. padding_clash E3 b b c.
    + inversion E as [[E1 E2 E3 E4 E5]]. bytes_of Hb. padding_clash E4 c c c.
    + unfold is_binary in Hb, Hb'. cbn [forallb] in Hb, Hb'.
      do 3 (apply andb_prop in Hb; let Hx := fresh "Hbyte" in
            destruct Hb as [Hx Hb]; apply N.leb_le in Hx).
      do 3 (apply andb_prop in Hb'; let Hx := fresh "Hbyte" in
            destruct Hb' as [Hx Hb']; apply N.leb_le in Hx).
      inversion E as [[E1 E2 E3 E4 E5]].
      rewrite (IH l' Hb Hb' E5).
      destruct (b64_group_injective a b c a' b' c') as (-> & -> & ->);
        try assumption; reflexivity.
Qed.

Lemma b64_groups_text (bs : list N) :
  is_binary bs = true -> forallb b64_text (b64_groups bs) = true.
Proof.
  induction bs as [|a|a b|a b c l IH] using list_ind3; intros Hb;
    [reflexivity| | |].
  - bytes_of Hb.
    destruct (sextet_bounds a a a) as (B1 & _ & B2 & _); try assumption.
    cbn [b64_groups forallb]. now rewrite !b64_char_text.
  - bytes_of Hb.
    destruct (sextet_bounds a b b) as (B1 & B2 & _ & _ & B3 & _);
      try assumption.
    cbn [b64_groups forallb]. now rewrite !b64_char_text.
  - unfold is_binary in Hb. cbn [forallb] in Hb.
    do 3 (apply andb_prop in Hb; let Hx := fresh "Hbyte" in
          destruct Hb as [Hx Hb]; apply N.leb_le in Hx).
    destruct (sextet_bounds a b c) as (B1 & B2 & _ & B3 & _ & B4);
      try assumption.
    cbn [b64_groups forallb]. rewrite !b64_char_text by assumption.
    now apply IH.
Qed.

Lemma index_in_found (c : N) (alphabet : jsstring) :
  index_in c alphabet < N.of_nat (List.length alphabet) ->
  nth (N.to_nat (index_in c alphabet)) alphabet 0 = c.
Proof.
  induction alphabet as [|x rest IH]; cbn [index_in List.length]; [lia|].
  destruct (x =? c) eqn:E.
  - intros _. now apply N.eqb_eq in E.
  - intros H. rewrite N2Nat.inj_succ. cbn [nth]. apply IH. lia.
Qed.

(** How the characters of a base64 text are escaped: itself, or one of
    three escapes. *)
Lemma uri_escape_text (c : N) :
  b64_text c = true ->
  (uri_escape c = [c] /\ c <> 37)
  \/ (c = 43 /\ uri_escape c = [37; 50; 66])
  \/ (c = 47 /\ uri_escape c = [37; 50; 70])
  \/ (c = 61 /\ uri_escape c = [37; 51; 68]).
Proof.
  unfold b64_text. intros H. apply orb_prop in H. destruct H as [H|H].
  - apply N.ltb_lt in H.
    assert (Hc : b64_char (b64_index c) = c).
    { unfold b64_char, b64_index. apply index_in_found.
      change (N.of_nat (List.length b64_alphabet)) with 64. exact H. }
    remember (b64_index c) as i eqn:Hi. subst c. clear Hi.
    assert (Hn : forall n, (n < 64)%nat ->
                   let c := b64_char (N.of_nat n) in
                   (uri_escape c = [c] /\ c <> 37)
                   \/ (c = 43 /\ uri_escape c = [37; 50; 66])
                   \/ (c = 47 /\ uri_escape c = [37; 50; 70])
                   \/ (c = 61 /\ uri_escape c = [37; 51; 68])).
    { intros n Hn.
      do 64 (destruct n as [|n];
             [vm_compute;
              first [ left; split; [reflexivity|discriminate]
                    | right; left; split; reflexivity
                    | right; right; left; split; reflexivity ]|]).
      lia. }
    rewrite <- (N2Nat.id i). apply (Hn (N.to_nat i)). lia.
  - apply N.eqb_eq in H. subst c. right. right. right. split; reflexivity.
Qed.

Lemma percent_encode_injective (s : jsstring) :
  forall s',
    forallb b64_text s = true -> forallb b64_text s' = true ->
    percent_encode s = percent_encode s' -> s = s'.
Proof.
  unfold percent_encode.
  induction s as [|c s IH]; intros [|c' s'] Hs Hs' E; cbn [flat_map] in E.
  - reflexivity.
  - cbn [forallb] in Hs'. apply andb_prop in Hs'. destruct Hs' as [Hc' _].
    destruct (uri_escape_text c' Hc') as [[Ec _]|[[_ Ec]|[[_ Ec]|[_ Ec]]]];
      rewrite Ec in E; discriminate E.
  - cbn [forallb] in Hs. apply andb_prop in Hs. destruct Hs as [Hc _].
    destruct (uri_escape_text c Hc) as [[Ec _]|[[_ Ec]|[[_ Ec]|[_ Ec]]]];
      rewrite Ec in E; discriminate E.
  - cbn [forallb] in Hs, Hs'.
    apply andb_prop in Hs. destruct Hs as [Hc Hs].
    apply andb_prop in Hs'. destruct Hs' as [Hc' Hs'].
    destruct (uri_escape_text c Hc) as [[Ec Hn]|[[-> Ec]|[[-> Ec]|[-> Ec]]]];
      destruct (uri_escape_text c' Hc')
        as [[Ec' Hn']|[[-> Ec']|[[-> Ec']|[-> Ec']]]];
      rewrite ?Ec, ?Ec' in E; cbn [app] in E; inversion E; subst;
      try contradiction; try (now contradiction Hn); try (now contradiction Hn');
      f_equal; now apply IH.
Qed.

Lemma tlv_injective (tag : N) (v v' r r' : list N) :
  tlv tag v ++ r = tlv tag v' ++ r' -> v = v' /\ r = r'.
Proof.
  unfold tlv, str_length. cbn [app]. intros H. inversion H as [[Hlen E]].
  apply Nat2N.inj in Hlen. now apply app_inv_length.
Qed.

Lemma token_returned (videoId source lang token : jsstring) (lastFlag : bool) :
  buildTranscriptToken videoId source lang lastFlag = Returned token ->
  is_binary (inner_blob source lang) = true
  /\ is_binary (outer_blob videoId (b64_groups (inner_blob source lang))
                           lastFlag) = true
  /\ token = percent_encode
               (b64_groups
                  (outer_blob videoId (b64_groups (inner_blob source lang))
                              lastFlag)).
Proof.
  unfold buildTranscriptToken, b64urlEncodeBinary, btoa.
  destruct (is_binary (inner_blob source lang)); [|discriminate].
  cbn [bind_outcome].
  destruct (is_binary (outer_blob videoId _ lastFlag)); [|discriminate].
  cbn [bind_outcome].
  rewrite (encodeURIComponent_ascii _ (b64_groups_ascii _)).
  intros H; inversion H. repeat split.
Qed.

Lemma inner_b64_short (source lang : jsstring) :
  (List.length source + List.length lang <= 183)%nat ->
  (List.length (b64_groups (inner_blob source lang)) < 256)%nat.
Proof.
  intros H. rewrite inner_blob_tlv by lia.
  pose proof (b64_groups_length
                (tlv 10 source ++ tlv 18 lang ++ tlv 26 [])) as Hlen.
  unfold tlv in Hlen at 4 5 6. rewrite !length_app in Hlen.
  cbn [List.length] in Hlen. lia.
Qed.

(** X21. Tokens tell their requests apart: for video identifiers shorter
    than 256 characters and kinds and language codes of at most 183
    characters together, two calls of the encoder that return the same
    token were given the same video identifier, kind, language code and
    flag. *)
Theorem buildTranscriptToken_injective
        (videoId source lang videoId' source' lang' token : jsstring)
        (lastFlag lastFlag' : bool) :
  (List.length videoId < 256)%nat -> (List.length videoId' < 256)%nat ->
  (List.length source + List.length lang <= 183)%nat ->
  (List.length source' + List.length lang' <= 183)%nat ->
  buildTranscriptToken videoId source lang lastFlag = Returned token ->
  buildTranscriptToken videoId' source' lang' lastFlag' = Returned token ->
  videoId = videoId' /\ source = source' /\ lang = lang'
  /\ lastFlag = lastFlag'.
Proof.
  intros Hv Hv' Hsl Hsl' H H'.
  apply token_returned in H. destruct H as (Hin & Hout & ->).
  apply token_returned in H'. destruct H' as (Hin' & Hout' & E).
  apply percent_encode_injective in E; try now apply b64_groups_text.
  apply b64_groups_injective in E; try assumption.
  rewrite !outer_blob_tlv in E by (try assumption; now apply inner_b64_short).
  apply tlv_injective in E. destruct E as [-> E].
  apply tlv_injective in E. destruct E as [E64 E].
  apply b64_groups_injective in E64; try assumption.
  rewrite !inner_blob_tlv in E64 by lia.
  apply tlv_injective in E64. destruct E64 as [-> E64].
  apply tlv_injective in E64. destruct E64 as [-> _].
  repeat split.
  apply app_inv_head in E. apply app_inv_head in E.
  destruct lastFlag, lastFlag'; try reflexivity; discriminate E.
Qed.

Lemma buildTranscriptToken_injective_witness :
  js "dQw4w9WgXcQ" = js "dQw4w9WgXcQ" /\ js "asr" = js "asr"
  /\ js "en" = js "en" /\ true = true.
Proof.
  apply (buildTranscriptToken_injective
           (js "dQw4w9WgXcQ") (js "asr") (js "en")
           (js "dQw4w9WgXcQ") (js "asr") (js "en") sample_params true true);
    try (vm_compute; lia); vm_compute; reflexivity.
Defined.
